(** * The bees hash table (src/bees-hash.cc): a shallow embedding

    The persistent hash index of the bees deduplication agent is a fixed
    array of 16-byte cells, grouped into buckets of [c_cells_per_bucket]
    cells and extents of [c_buckets_per_extent] buckets.  This file
    embeds the lookup, erase, push-front, push-random, page-in,
    write-back and startup-verification code of [BeesHashTable] and
    proves properties of it.

    Conventions of the embedding.
    - [uint64_t] values (hashes, addresses) are [Z]; array offsets and
      extent numbers are [nat].
    - A cell range [(er.first, er.second)] is a pair of cell offsets into
      the mapped region; the code that walks such a range is embedded as a
      function on the list of cells the range spans (a pointer into the
      range is its offset from [er.first]), and the result is stored back.
    - Exceptions ([THROW_CHECK], [pread_or_die]) are the [Throw] result of
      a state-and-exception monad; [Throw] carries the state at the throw.
    - Locks, rate limiters, log lines and timers have no counterpart: the
      embedding is the sequential behaviour of each member function. *)

From Stdlib Require Import ZArith Lia.
From stdpp Require Import gmap strings list.

Open Scope Z_scope.
Open Scope nat_scope.

(** ** Cells *)

(** Modelled from the spec: [BeesHashTable::Cell] is declared in bees.h,
    which is not among the sources at hand.  The spec has it as a pair of
    a 64-bit fingerprint and a 64-bit address whose equality is field-wise;
    the order [std::set<Cell>] needs is taken to agree with that
    equality. *)
Record Cell : Type := mkCell { e_hash : Z; e_addr : Z }.

#[global] Instance Cell_eq_dec : EqDecision Cell.
Proof. solve_decision. Defined.

#[global] Instance Cell_countable : Countable Cell.
Proof.
  refine (inj_countable' (λ c, (e_hash c, e_addr c))
                         (λ p, mkCell p.1 p.2) _).
  by intros [].
Defined.

#[global] Instance Cell_inhabited : Inhabited Cell := populate (mkCell 0 0).

(** [Cell(0, 0)], the empty cell. *)
Definition empty_cell : Cell := mkCell 0 0.

(** ** Walking a cell range *)

(** [std::find(first, last, v)]: offset of the first cell equal to [v], or
    the length of the range ([last]) when there is none. *)
Fixpoint std_find (cells : list Cell) (v : Cell) : nat :=
  match cells with
  | [] => 0
  | c :: rest => if decide (c = v) then 0 else S (std_find rest v)
  end.

(** The backward copy loop of push_front and push_random,
    [while (dp > lo)] copy the cell at [sp] to [dp] and decrement both, entered with [sp = dp - 1]
    (the two pointers move together, so [sp] is always [dp - 1]). *)
Fixpoint copy_backward_loop (lo dp : nat) (cells : list Cell) : list Cell :=
  match dp with
  | 0 => cells
  | S sp =>
      if decide (lo < dp)
      then copy_backward_loop lo sp (<[dp := cells !!! sp]> cells)
      else cells
  end.

(** [std::move_backward(first, last, d_last)] on offsets of one range:
    while [first != last], decrement both [d_last] and [last] and copy the
    cell at [last] to [d_last]. *)
Fixpoint move_backward (first last d_last : nat) (cells : list Cell)
  : list Cell :=
  match last, d_last with
  | S last', S d_last' =>
      if decide (first = last) then cells
      else move_backward first last' d_last'
             (<[d_last' := cells !!! last']> cells)
  | _, _ => cells
  end.

(** The upward scan of push_random for an empty cell,
    [for (ip = er.first + pos; ip < er.second; ++ip)] testing
    [ip[0] == Cell(0, 0)],
    on the cells from [pos] on: offset (from [pos]) of the first hit. *)
Fixpoint scan_up (cells : list Cell) : option nat :=
  match cells with
  | [] => None
  | c :: rest =>
      if decide (c = empty_cell) then Some 0 else S <$> scan_up rest
  end.

(** The downward scan,
    [for (ip = er.first + pos - 1; ip >= er.first; --ip)] with the same test:
    [n] is the number of cells still to visit, the next one is [n - 1]. *)
Fixpoint scan_down (n : nat) (cells : list Cell) : option nat :=
  match n with
  | 0 => None
  | S ip =>
      if decide (cells !!! ip = empty_cell) then Some ip
      else scan_down ip cells
  end.

(** ** Counters *)

(** Modelled from the spec: the [BEESCOUNT] macro of bees.h feeds named
    monotonic counters; [add_count name] adds one to the counter [name]. *)
Definition add_count (name : string) (stats : gmap string nat)
  : gmap string nat :=
  <[name := S (default 0 (stats !! name))]> stats.

(** Reading a counter (absent means zero). *)
Definition counter (name : string) (stats : gmap string nat) : nat :=
  default 0 (stats !! name).

(** ** The verifier *)

(** [cell->e_addr && cell->e_addr < 0x1000]. *)
Definition magic_addr (c : Cell) : bool :=
  bool_decide (e_addr c ≠ 0%Z) && bool_decide (e_addr c < 0x1000)%Z.

(** The loop of [verify_cell_range]: the cells still to visit, the set
    [seen_it], the flag [bugs_found] and the counters are threaded through;
    the cells come back as the loop leaves them. *)
Fixpoint verify_cells (clear_bugs : bool) (cells : list Cell)
    (seen_it : gset Cell) (bugs_found : bool) (stats : gmap string nat)
  : list Cell * bool * gmap string nat :=
  match cells with
  | [] => ([], bugs_found, stats)
  | cell :: rest =>
      let '(cell, bugs_found, stats) :=
        if magic_addr cell
        then (if clear_bugs then mkCell 0 0 else cell, true,
              add_count "bug_hash_magic_addr" stats)
        else (cell, bugs_found, stats) in
      let '(cell, seen_it, bugs_found, stats) :=
        if bool_decide (e_addr cell ≠ 0%Z)
        then if bool_decide (cell ∈ seen_it)
             then (if clear_bugs then mkCell 0 0 else cell, seen_it, true,
                   add_count "bug_hash_duplicate_cell" stats)
             else (cell, {[cell]} ∪ seen_it, bugs_found, stats)
        else (cell, seen_it, bugs_found, stats) in
      let '(rest, bugs_found, stats) :=
        verify_cells clear_bugs rest seen_it bugs_found stats in
      (cell :: rest, bugs_found, stats)
  end.

(** [const bool VERIFY_CLEARS_BUGS = false;] *)
Definition VERIFY_CLEARS_BUGS : bool := false.

(** ** The table and its monad *)

(** The state of a [BeesHashTable] that the member functions read and
    write.  [m_cell_ptr] is the mapped region seen as cells;
    [m_fd] is the backing file as [pread_or_die] sees it: for each
    extent-sized, extent-aligned read, the cells it delivers; an extent
    with no entry is one whose read fails.  [s_global] holds the
    [BEESCOUNT] counters. *)
Record BeesHashTable : Type := mkTable {
  m_buckets : nat;
  m_extents : nat;
  m_cell_ptr : list Cell;
  m_buckets_dirty : gset nat;
  m_buckets_missing : gset nat;
  m_fd : gmap nat (list Cell);
  m_toxic_hashes : gset Z;
  s_global : gmap string nat
}.

Definition with_cells (cells : list Cell) (t : BeesHashTable) : BeesHashTable :=
  mkTable (m_buckets t) (m_extents t) cells (m_buckets_dirty t)
          (m_buckets_missing t) (m_fd t) (m_toxic_hashes t) (s_global t).

Definition with_dirty (d : gset nat) (t : BeesHashTable) : BeesHashTable :=
  mkTable (m_buckets t) (m_extents t) (m_cell_ptr t) d
          (m_buckets_missing t) (m_fd t) (m_toxic_hashes t) (s_global t).

Definition with_missing (m : gset nat) (t : BeesHashTable) : BeesHashTable :=
  mkTable (m_buckets t) (m_extents t) (m_cell_ptr t) (m_buckets_dirty t)
          m (m_fd t) (m_toxic_hashes t) (s_global t).

Definition with_fd (f : gmap nat (list Cell)) (t : BeesHashTable)
  : BeesHashTable :=
  mkTable (m_buckets t) (m_extents t) (m_cell_ptr t) (m_buckets_dirty t)
          (m_buckets_missing t) f (m_toxic_hashes t) (s_global t).

Definition with_stats (s : gmap string nat) (t : BeesHashTable)
  : BeesHashTable :=
  mkTable (m_buckets t) (m_extents t) (m_cell_ptr t) (m_buckets_dirty t)
          (m_buckets_missing t) (m_fd t) (m_toxic_hashes t) s.

(** Outcome of a member function: a value and the state it leaves, or an
    exception and the state at the throw. *)
Inductive Res (A : Type) : Type :=
| Ok (a : A) (t : BeesHashTable)
| Throw (t : BeesHashTable).
Arguments Ok {A} a t.
Arguments Throw {A} t.

(** The state an outcome carries. *)
Definition state_of {A : Type} (r : Res A) : BeesHashTable :=
  match r with Ok _ t => t | Throw t => t end.

Definition M (A : Type) : Type := BeesHashTable → Res A.

#[global] Instance M_ret : MRet M := λ A a t, Ok a t.
#[global] Instance M_bind : MBind M := λ A B f m t,
  match m t with
  | Ok a t' => f a t'
  | Throw t' => Throw t'
  end.

Definition throw {A : Type} : M A := λ t, Throw t.
Definition get : M BeesHashTable := λ t, Ok t t.
Definition modify (f : BeesHashTable → BeesHashTable) : M unit :=
  λ t, Ok () (f t).

(** Modelled from the spec: [THROW_CHECK1] and [THROW_CHECK2] (macros of
    the crucible library) are the assertions of the code; they throw unless
    the condition holds. *)
Definition THROW_CHECK (cond : bool) : M unit :=
  if cond then mret () else throw.

(** [BEESCOUNT(name)], on the counters of the table. *)
Definition BEESCOUNT (name : string) : M unit :=
  modify (λ t, with_stats (add_count name (s_global t)) t).

(** Modelled from the spec: [catch_all(f)] (crucible library) is the
    catch-all boundary around each extent operation: it runs [f]; an
    exception is logged and swallowed, what [f] did before it threw stays
    done. *)
Definition catch_all (f : M unit) : M unit := λ t,
  match f t with
  | Ok _ t' => Ok () t'
  | Throw t' => Ok () t'
  end.

(** The cells a range spans, and storing cells over a range. *)
Definition range_cells (er : nat * nat) (mem : list Cell) : list Cell :=
  take (er.2 - er.1) (drop er.1 mem).

Definition store_range (er : nat * nat) (cells : list Cell) (mem : list Cell)
  : list Cell :=
  take er.1 mem ++ cells ++ drop er.2 mem.

Definition read_range (er : nat * nat) : M (list Cell) :=
  λ t, Ok (range_cells er (m_cell_ptr t)) t.

Definition write_range (er : nat * nat) (cells : list Cell) : M unit :=
  modify (λ t, with_cells (store_range er cells (m_cell_ptr t)) t).

(** ** Sample tables

    Small tables on which the statements below are run: buckets of four
    cells, as in the scenarios of the specification. *)

(** One extent of one bucket, already paged in, holding [cells]; 77 is the
    only toxic hash. *)
Definition sample_table (cells : list Cell) : BeesHashTable :=
  mkTable 1 1 cells ∅ ∅ ∅ {[77%Z]} ∅.

Definition cell_A : Cell := mkCell 10 0x100a.
Definition cell_B : Cell := mkCell 11 0x100b.
Definition cell_C : Cell := mkCell 12 0x100c.
Definition cell_D : Cell := mkCell 13 0x100d.
Definition cell_E : Cell := mkCell 14 0x100e.

(** A full bucket of distinct cells. *)
Definition full_table : BeesHashTable :=
  sample_table [cell_A; cell_B; cell_C; cell_D].

(** A bucket with its last cell empty. *)
Definition roomy_table : BeesHashTable :=
  sample_table [cell_A; cell_B; cell_C; empty_cell].

(** A bucket with holes. *)
Definition holey_table : BeesHashTable :=
  sample_table [cell_A; empty_cell; cell_C; empty_cell].

(** A bucket with two cells and two holes. *)
Definition half_table : BeesHashTable :=
  sample_table [cell_A; cell_B; empty_cell; empty_cell].

(** A bucket where hash 10 has a valid cell, a cell with a reserved
    address and another valid cell. *)
Definition lookup_table : BeesHashTable :=
  sample_table [cell_A; mkCell 10 0x10; cell_B; mkCell 10 0x2000].

(** A freshly constructed table of one extent of one bucket, not yet paged
    in, whose backing file holds the cell D twice. *)
Definition duplicate_file_table : BeesHashTable :=
  mkTable 1 1 [empty_cell; empty_cell; empty_cell; empty_cell] ∅ {[0]}
          {[0 := [cell_D; cell_B; cell_C; cell_D]]} ∅ ∅.

(** A freshly constructed table of one extent of one bucket whose backing
    file holds a cell with a reserved address and a duplicated cell. *)
Definition broken_file_table : BeesHashTable :=
  mkTable 1 1 [empty_cell; empty_cell; empty_cell; empty_cell] ∅ {[0]}
          {[0 := [mkCell 1 0x10; cell_B; cell_C; cell_C]]} ∅ ∅.

(** A freshly constructed table of two extents of two buckets of two cells:
    the read of extent 0 fails, extent 1 holds a cell with a reserved
    address. *)
Definition unreadable_extent_table : BeesHashTable :=
  mkTable 4 2 (replicate 8 empty_cell) ∅ {[0; 1]}
          {[1 := [mkCell 1 0x10; empty_cell; cell_C; empty_cell]]} ∅ ∅.

(** A loaded table whose only extent is dirty: the region holds four
    cells, the backing file still holds the empty extent. *)
Definition dirty_table : BeesHashTable :=
  mkTable 1 1 [cell_A; cell_B; cell_C; cell_D] {[0]} ∅
          {[0 := [empty_cell; empty_cell; empty_cell; empty_cell]]}
          {[77%Z]} ∅.

(** A table without buckets. *)
Definition no_bucket_table : BeesHashTable :=
  mkTable 0 0 [] ∅ ∅ ∅ ∅ ∅.


Section Geometry.

(** Constants of bees.h, which is not among the sources at hand, taken as
    parameters: the number of cells in a bucket
    ([BLOCK_SIZE_HASHTAB_BUCKET / sizeof(Cell)]) and of buckets in an
    extent ([BLOCK_SIZE_HASHTAB_EXTENT / BLOCK_SIZE_HASHTAB_BUCKET]). *)
Variable c_cells_per_bucket : nat.
Variable c_buckets_per_extent : nat.

(** Cells in an extent: [sizeof(Extent) / sizeof(Cell)]. *)
Definition cells_per_extent : nat := c_buckets_per_extent * c_cells_per_bucket.

(** [hash % m_buckets], as an offset. *)
Definition bucket_index (hash : Z) (t : BeesHashTable) : nat :=
  Z.to_nat (hash `mod` Z.of_nat (m_buckets t)).

(** [BeesHashTable::get_cell_range].  The check that [m_bucket_ptr] is not
    null has no counterpart: the region is always mapped here. *)
Definition get_cell_range (hash : Z) : M (nat * nat) :=
  t ← get;
  THROW_CHECK (bool_decide (0 < m_buckets t));;
  let pp := bucket_index hash t in
  let bp := pp * c_cells_per_bucket in
  let ep := (pp + 1) * c_cells_per_bucket in
  THROW_CHECK (bool_decide (0 ≤ bp));;
  THROW_CHECK (bool_decide (ep ≤ length (m_cell_ptr t)));;
  mret (bp, ep).

(** [BeesHashTable::get_extent_range], in cell offsets (the byte view and
    the cell view alias the same region); same remark on the null check. *)
Definition get_extent_range (hash : Z) : M (nat * nat) :=
  t ← get;
  THROW_CHECK (bool_decide (0 < m_buckets t));;
  let iop := bucket_index hash t / c_buckets_per_extent in
  let bp := iop * cells_per_extent in
  let ep := (iop + 1) * cells_per_extent in
  THROW_CHECK (bool_decide (0 ≤ bp));;
  THROW_CHECK (bool_decide (ep ≤ length (m_cell_ptr t)));;
  mret (bp, ep).

(** [reinterpret_cast<Extent *>(pr.first) - m_extent_ptr]. *)
Definition extent_number_of (pr : nat * nat) : nat :=
  pr.1 / cells_per_extent.

(** [BeesHashTable::set_extent_dirty]. *)
Definition set_extent_dirty (hash : Z) : M unit :=
  t ← get;
  THROW_CHECK (bool_decide (0 < m_buckets t));;
  pr ← get_extent_range hash;
  let extent_number := extent_number_of pr in
  THROW_CHECK (bool_decide (extent_number < m_extents t));;
  modify (λ t, with_dirty ({[extent_number]} ∪ m_buckets_dirty t) t).

(** Modelled from the spec: [pread_or_die(m_fd, dirty_extent, length,
    offset)] (crucible library) reads one extent of the backing file into
    the mapped region; a failed or short read throws and leaves the region
    as it was. *)
Definition pread_or_die (extent_number : nat) : M unit :=
  t ← get;
  match m_fd t !! extent_number with
  | Some cells =>
      if decide (length cells = cells_per_extent)
      then write_range (extent_number * cells_per_extent,
                        (extent_number + 1) * cells_per_extent) cells
      else throw
  | None => throw
  end.

(** [BeesHashTable::fetch_missing_extent]. *)
Definition fetch_missing_extent (hash : Z) : M unit :=
  t ← get;
  THROW_CHECK (bool_decide (0 < m_buckets t));;
  pr ← get_extent_range hash;
  let extent_number := extent_number_of pr in
  THROW_CHECK (bool_decide (extent_number < m_extents t));;
  if bool_decide (extent_number ∉ m_buckets_missing t) then mret ()
  else
    t ← get;
    if bool_decide (extent_number ∉ m_buckets_missing t)
    then BEESCOUNT "hash_extent_in_twice"
    else
      pread_or_die extent_number;;
      BEESCOUNT "hash_extent_in";;
      modify (λ t, with_missing (m_buckets_missing t ∖ {[extent_number]}) t).

(** [BeesHashTable::is_toxic_hash]. *)
Definition is_toxic_hash (hash : Z) (t : BeesHashTable) : bool :=
  bool_decide (hash ∈ m_toxic_hashes t).

(** The mask of the toxic flag of [BeesAddress], a constant of bees.h,
    taken as a parameter. *)
Variable c_toxic_mask : Z.

(** Modelled from the spec: [BeesAddress::set_toxic] is declared in bees.h,
    which is not among the sources at hand; the spec says the address
    carries a toxic flag bit, which this sets. *)
Definition set_toxic (addr : Z) : Z := Z.lor addr c_toxic_mask.

(** Modelled from the spec: [BeesAddress::is_toxic], from bees.h as well,
    tests that flag. *)
Definition is_toxic (addr : Z) : bool :=
  bool_decide (Z.land addr c_toxic_mask ≠ 0%Z).

(** [BeesHashTable::find_cell]. *)
Definition find_cell (hash : Z) : M (list Cell) :=
  t ← get;
  if is_toxic_hash hash t then
    BEESCOUNT "hash_toxic";;
    let toxic_addr := set_toxic 0x1000 in
    let toxic_cell := mkCell hash toxic_addr in
    mret [toxic_cell]
  else
    fetch_missing_extent hash;;
    er ← get_cell_range hash;
    cells ← read_range er;
    let rv := filter (λ ip, e_hash ip = hash ∧ (0x1000 ≤ e_addr ip)%Z) cells in
    BEESCOUNT "hash_lookup";;
    mret rv.

(** [BeesHashTable::erase_hash_addr]. *)
Definition erase_hash_addr (hash addr : Z) : M unit :=
  fetch_missing_extent hash;;
  er ← get_cell_range hash;
  cells ← read_range er;
  let mv := mkCell hash addr in
  let ip := std_find cells mv in
  let found := bool_decide (ip < length cells) in
  if found then
    write_range er (<[ip := mkCell 0 0]> cells);;
    set_extent_dirty hash;;
    BEESCOUNT "hash_erase"
  else mret ().

(** [BeesHashTable::push_front_hash_addr]. *)
Definition push_front_hash_addr (hash addr : Z) : M bool :=
  fetch_missing_extent hash;;
  er ← get_cell_range hash;
  cells ← read_range er;
  let mv := mkCell hash addr in
  let ip := std_find cells mv in
  let found := bool_decide (ip < length cells) in
  let ip := if found then ip else std_find cells (mkCell 0 0) in
  (if bool_decide (0 < ip) then
     if bool_decide (ip = length cells) then
       BEESCOUNT "hash_evict";;
       write_range er (copy_backward_loop 0 (ip - 1) cells)
     else
       write_range er (copy_backward_loop 0 ip cells)
   else mret ());;
  cells ← read_range er;
  (if bool_decide (cells !!! 0 ≠ mv) then
     write_range er (<[0 := mv]> cells);;
     set_extent_dirty hash;;
     BEESCOUNT "hash_front"
   else mret ());;
  mret found.

(** [BeesHashTable::push_random_hash_addr].  [pos] is the value drawn from
    [distribution(generator)], uniform on [0, c_cells_per_bucket - 1]. *)
Definition push_random_hash_addr (pos : nat) (hash addr : Z) : M bool :=
  fetch_missing_extent hash;;
  er ← get_cell_range hash;
  cells ← read_range er;
  let mv := mkCell hash addr in
  let ip := std_find cells mv in
  let found := bool_decide (ip < length cells) in
  let ret_dirty : M bool :=
    BEESCOUNT "hash_insert";;
    set_extent_dirty hash;;
    mret found in
  if found then
    if bool_decide (pos < ip) then
      write_range er (<[pos := mv]> (copy_backward_loop pos ip cells));;
      BEESCOUNT "hash_bump";;
      ret_dirty
    else
      BEESCOUNT "hash_already";;
      mret found
  else
    match scan_up (drop pos cells) with
    | Some k =>
        write_range er (<[pos + k := mv]> cells);;
        ret_dirty
    | None =>
        match (if bool_decide (0 < pos) then scan_down pos cells else None) with
        | Some ip =>
            write_range er (<[ip := mv]> cells);;
            ret_dirty
        | None =>
            write_range er
              (<[pos := mv]>
                 (move_backward pos (length cells - 1) (length cells) cells));;
            BEESCOUNT "hash_evict";;
            ret_dirty
        end
    end.

(** A [for] loop over a list of indices. *)
Fixpoint for_each {A : Type} (l : list A) (body : A → M unit) : M unit :=
  match l with
  | [] => mret ()
  | x :: rest => body x;; for_each rest body
  end.

(** Modelled from the spec: [pwrite_or_die(m_fd, extent_copy, offset)]
    (crucible library) writes one extent to the backing file; the write is
    taken to succeed. *)
Definition pwrite_or_die (extent_number : nat) (extent_copy : list Cell)
  : M unit :=
  modify (λ t, with_fd (<[extent_number := extent_copy]> (m_fd t)) t).

(** [BeesHashTable::flush_dirty_extents].  With nothing dirty the code
    waits on the condition variable and returns. *)
Definition flush_dirty_extents : M unit :=
  t ← get;
  THROW_CHECK (bool_decide (0 < m_buckets t));;
  let dirty_extent_copy := m_buckets_dirty t in
  modify (with_dirty ∅);;
  for_each (elements dirty_extent_copy) (λ extent_number,
    catch_all (
      t ← get;
      let dirty_extent := extent_number * cells_per_extent in
      let dirty_extent_end := (extent_number + 1) * cells_per_extent in
      THROW_CHECK (bool_decide (0 ≤ dirty_extent));;
      THROW_CHECK (bool_decide (dirty_extent_end ≤ length (m_cell_ptr t)));;
      extent_copy ← read_range (dirty_extent, dirty_extent_end);
      pwrite_or_die extent_number extent_copy;;
      BEESCOUNT "hash_extent_out")).

(** [verify_cell_range(p, q, clear_bugs)] on the range [er]. *)
Definition verify_cell_range (er : nat * nat) (clear_bugs : bool) : M bool :=
  t ← get;
  cells ← read_range er;
  let '(cells, bugs_found, stats) :=
    verify_cells clear_bugs cells ∅ false (s_global t) in
  write_range er cells;;
  modify (with_stats stats);;
  mret bugs_found.

(** The bucket loop of [prefetch_loop] over one extent: [n] buckets are
    left, the next is [bucket].  The occupancy statistics gathered in the
    same loop are local to [prefetch_loop] and only reach the log. *)
Fixpoint analyze_buckets (n bucket : nat) (duplicate_bugs_found : bool)
  : M bool :=
  match n with
  | 0 => mret duplicate_bugs_found
  | S n' =>
      verify_cell_range (bucket * c_cells_per_bucket,
                         (bucket + 1) * c_cells_per_bucket)
                        VERIFY_CLEARS_BUGS ≫= λ bugs : bool,
      analyze_buckets n' (bucket + 1)
                      (if bugs then true else duplicate_bugs_found)
  end.

(** The occupancy count of one bucket in [prefetch_loop]: the loop over the
    cells of the bucket that increments [this_bucket_occupied_count] for
    each cell whose [e_addr] is not zero ([count] is the counter so far). *)
Fixpoint this_bucket_occupied_count (cells : list Cell) (count : nat) : nat :=
  match cells with
  | [] => count
  | cell :: rest =>
      this_bucket_occupied_count rest
        (if bool_decide (e_addr cell ≠ 0%Z) then S count else count)
  end.

(** [size_t width = 64;], the number of slots of the occupancy histogram. *)
Definition width : nat := 64.

(** The slot of the histogram a bucket is counted in,
    [this_bucket_occupied_count * width / (1 + c_cells_per_bucket)]. *)
Definition occupancy_slot (cells : list Cell) : nat :=
  this_bucket_occupied_count cells 0 * width / (1 + c_cells_per_bucket).

(** The body of the extent loop of [BeesHashTable::prefetch_loop]. *)
Definition prefetch_extent (ext : nat) : M unit :=
  catch_all (
    fetch_missing_extent (Z.of_nat (ext * c_buckets_per_extent));;
    analyze_buckets c_buckets_per_extent (ext * c_buckets_per_extent) false
      ≫= λ duplicate_bugs_found : bool,
    if duplicate_bugs_found then set_extent_dirty (Z.of_nat ext)
    else mret ()).

(** One pass of the extent loop, [for (ext = 0; ext < m_extents; ++ext)]. *)
Definition prefetch_pass : M unit :=
  t ← get;
  for_each (seq 0 (m_extents t)) prefetch_extent.

(** The constructor, for a backing file of [extents] extents: the region
    is a fresh anonymous mapping (all zero), every extent is missing and
    nothing is dirty.  The toxic hashes are CRC64 digests computed by a
    library that is not part of the sources at hand; the set is taken as
    given. *)
Definition BeesHashTable_ctor (extents : nat) (fd : gmap nat (list Cell))
    (toxic : gset Z) : BeesHashTable :=
  mkTable (extents * c_buckets_per_extent) extents
          (replicate (extents * cells_per_extent) (mkCell 0 0))
          ∅ (list_to_set (seq 0 extents)) fd toxic ∅.

(** ** Vocabulary of the statements *)

(** The geometry the constructor establishes. *)
Definition wf (t : BeesHashTable) : Prop :=
  0 < c_cells_per_bucket ∧
  0 < m_buckets t ∧
  m_buckets t = m_extents t * c_buckets_per_extent ∧
  length (m_cell_ptr t) = m_buckets t * c_cells_per_bucket.

(** The bucket of [hash]: the cells of its range. *)
Definition bucket_range (hash : Z) (t : BeesHashTable) : nat * nat :=
  (bucket_index hash t * c_cells_per_bucket,
   (bucket_index hash t + 1) * c_cells_per_bucket).

Definition bucket_of (hash : Z) (t : BeesHashTable) : list Cell :=
  range_cells (bucket_range hash t) (m_cell_ptr t).

(** The extent of [hash]. *)
Definition extent_of (hash : Z) (t : BeesHashTable) : nat :=
  bucket_index hash t / c_buckets_per_extent.

Definition extent_range (e : nat) : nat * nat :=
  (e * cells_per_extent, (e + 1) * cells_per_extent).

(** The state a successful page-in of extent [e] leaves, [cells] being
    what the read delivered. *)
Definition paged_in (e : nat) (cells : list Cell) (t : BeesHashTable)
  : BeesHashTable :=
  with_missing (m_buckets_missing t ∖ {[e]})
    (with_stats (add_count "hash_extent_in" (s_global t))
       (with_cells (store_range (extent_range e) cells (m_cell_ptr t)) t)).

(** Rotating the cells at offsets [lo .. hi] right by one: each moves one
    place up and the cell at [hi] comes to [lo]. *)
Definition rotate_right (lo hi : nat) (cells : list Cell) : list Cell :=
  take lo cells ++ (cells !!! hi) :: take (hi - lo) (drop lo cells)
       ++ drop (S hi) cells.

(** The state push_random leaves on its dirty paths: the bucket of [hash]
    holds [cells], the counters named in [counts] are bumped (the last
    named first), and the extent of [hash] is dirty. *)
Definition inserted (hash : Z) (cells : list Cell) (counts : list string)
    (t : BeesHashTable) : BeesHashTable :=
  with_dirty ({[extent_of hash t]} ∪ m_buckets_dirty t)
    (with_stats (foldr add_count (s_global t) counts)
       (with_cells (store_range (bucket_range hash t) cells (m_cell_ptr t))
                   t)).

(** The source of the shift of push_front, in the words of the spec: the
    matching cell if there is one, else the first empty cell, else the last
    cell of the bucket. *)
Definition push_front_source (mv : Cell) (cells : list Cell) : nat :=
  if decide (mv ∈ cells) then std_find cells mv
  else if decide (empty_cell ∈ cells) then std_find cells empty_cell
  else length cells - 1.

(** A cell that breaks a structural invariant of its bucket: not empty and
    either its address is below 0x1000 or an earlier cell equals it. *)
Definition violates (cells : list Cell) (i : nat) : Prop :=
  ∃ c, cells !! i = Some c ∧ e_addr c ≠ 0%Z ∧
       ((e_addr c < 0x1000)%Z ∨ ∃ j, j < i ∧ cells !! j = Some c).

(** A range that verifies clean: no cell of it breaks an invariant. *)
Definition clean (cells : list Cell) : Prop := ∀ i, ¬ violates cells i.

(** An address the verifier accepts in a cell: zero, or not reserved. *)
Definition accepted_addr (addr : Z) : Prop :=
  addr = 0%Z ∨ (0x1000 ≤ addr)%Z.

(** The read of extent [e] delivers a whole extent. *)
Definition readable (e : nat) (t : BeesHashTable) : Prop :=
  ∃ cells, m_fd t !! e = Some cells ∧ length cells = cells_per_extent.

(** What an index operation may do to the table [t1] it finds after the
    page-in: rewrite the cells of the bucket of [hash], add the extent of
    [hash] to the dirty set, and count; it must mark the extent dirty if it
    changed a cell. *)
Definition touches_only_bucket (hash : Z) (t1 t' : BeesHashTable) : Prop :=
  (∃ cells, length cells = c_cells_per_bucket ∧
            m_cell_ptr t' =
              store_range (bucket_range hash t1) cells (m_cell_ptr t1)) ∧
  m_buckets t' = m_buckets t1 ∧
  m_extents t' = m_extents t1 ∧
  m_buckets_missing t' = m_buckets_missing t1 ∧
  m_fd t' = m_fd t1 ∧
  m_toxic_hashes t' = m_toxic_hashes t1 ∧
  (m_buckets_dirty t' = m_buckets_dirty t1 ∨
   m_buckets_dirty t' = {[extent_of hash t1]} ∪ m_buckets_dirty t1) ∧
  (m_cell_ptr t' ≠ m_cell_ptr t1 → extent_of hash t1 ∈ m_buckets_dirty t').

(** No extent is both dirty and missing. *)
Definition dirty_loaded (t : BeesHashTable) : Prop :=
  m_buckets_dirty t ∩ m_buckets_missing t = ∅.

(** Two tables that differ at most in their counters. *)
Definition same_but_stats (t t' : BeesHashTable) : Prop :=
  with_stats ∅ t = with_stats ∅ t'.

(** A call of one of the member functions that read or write the index:
    the lookups and updates of the clients and the write-back of
    [writeback_loop]; a call of [push_random_hash_addr] comes with the
    position it draws. *)
Inductive Call : Type :=
| call_find_cell (hash : Z)
| call_erase_hash_addr (hash addr : Z)
| call_push_front_hash_addr (hash addr : Z)
| call_push_random_hash_addr (pos : nat) (hash addr : Z)
| call_flush_dirty_extents.

(** The table a call leaves, whether it returns or throws. *)
Definition after_call (t : BeesHashTable) (c : Call) : BeesHashTable :=
  match c with
  | call_find_cell hash => state_of (find_cell hash t)
  | call_erase_hash_addr hash addr => state_of (erase_hash_addr hash addr t)
  | call_push_front_hash_addr hash addr =>
      state_of (push_front_hash_addr hash addr t)
  | call_push_random_hash_addr pos hash addr =>
      state_of (push_random_hash_addr pos hash addr t)
  | call_flush_dirty_extents => state_of (flush_dirty_extents t)
  end.

(** The position a call draws is one of the bucket. *)
Definition in_distribution (c : Call) : Prop :=
  match c with
  | call_push_random_hash_addr pos _ _ => pos < c_cells_per_bucket
  | _ => True
  end.


(** * Properties *)

(** ** The range walkers *)

Lemma std_find_le (cells : list Cell) v : std_find cells v ≤ length cells.
Proof. induction cells as [|c rest IH]; simpl; [lia | case_decide; lia]. Qed.

Lemma std_find_elem (cells : list Cell) v :
  std_find cells v < length cells ↔ v ∈ cells.
Proof.
  induction cells as [|c rest IH]; simpl.
  - split; [lia | by intros ?%elem_of_nil].
  - case_decide as Hc.
    + subst. split; [intros _; apply list_elem_of_here | lia].
    + rewrite elem_of_cons, <- IH. split; [intros; right; lia | ].
      intros [-> | ?]; [done | lia].
Qed.

Lemma std_find_lookup (cells : list Cell) v :
  std_find cells v < length cells → cells !! std_find cells v = Some v.
Proof.
  induction cells as [|c rest IH]; simpl; [lia |].
  case_decide; [by subst | intros; apply IH; lia].
Qed.

Lemma std_find_before (cells : list Cell) v j :
  j < std_find cells v → cells !! j ≠ Some v.
Proof.
  revert j. induction cells as [|c rest IH]; simpl; intros j; [lia |].
  case_decide; [lia |]. destruct j as [|j]; simpl; [congruence |].
  intros; apply IH; lia.
Qed.

Lemma std_find_absent (cells : list Cell) v :
  v ∉ cells → std_find cells v = length cells.
Proof.
  intros Hv. pose proof (std_find_le cells v).
  destruct (decide (std_find cells v < length cells)) as [Hlt|]; [| lia].
  by apply std_find_elem in Hlt.
Qed.

Lemma copy_backward_loop_length lo dp (cells : list Cell) :
  length (copy_backward_loop lo dp cells) = length cells.
Proof.
  revert cells. induction dp as [|sp IH]; intros cells; simpl; [done |].
  case_decide; [| done]. by rewrite IH, length_insert.
Qed.

Lemma copy_backward_loop_lookup lo dp (cells : list Cell) j :
  dp < length cells →
  copy_backward_loop lo dp cells !! j =
    if decide (lo < j ≤ dp) then cells !! (j - 1) else cells !! j.
Proof.
  revert cells. induction dp as [|sp IH]; intros cells Hdp; simpl.
  - case_decide; [lia | done].
  - destruct (decide (lo < S sp)) as [Hlo|Hlo].
    + rewrite IH by (rewrite length_insert; lia).
      destruct (decide (lo < j ≤ sp)) as [Hj|Hj].
      * rewrite decide_True by lia. apply list_lookup_insert_ne. lia.
      * destruct (decide (j = S sp)) as [->|Hne].
        -- rewrite decide_True by lia.
           rewrite list_lookup_insert_eq by lia.
           replace (S sp - 1) with sp by lia.
           symmetry. apply list_lookup_lookup_total_lt. lia.
        -- rewrite decide_False by lia.
           apply list_lookup_insert_ne. lia.
    + rewrite decide_False by lia. done.
Qed.

Lemma move_backward_copy_backward first last (cells : list Cell) :
  first ≤ last →
  move_backward first last (S last) cells = copy_backward_loop first last cells.
Proof.
  revert cells. induction last as [|last' IH]; intros cells Hle; [done |].
  simpl. destruct (decide (first = S last')) as [->|Hne].
  - rewrite decide_False by lia. done.
  - rewrite decide_True by lia. apply IH. lia.
Qed.

Lemma rotate_right_length lo hi (cells : list Cell) :
  lo ≤ hi → hi < length cells → length (rotate_right lo hi cells) = length cells.
Proof.
  intros. unfold rotate_right.
  rewrite length_app. simpl.
  rewrite length_app, !length_take, !length_drop. lia.
Qed.

Lemma rotate_right_lookup lo hi (cells : list Cell) j :
  lo ≤ hi → hi < length cells →
  rotate_right lo hi cells !! j =
    if decide (j = lo) then cells !! hi
    else if decide (lo < j ≤ hi) then cells !! (j - 1) else cells !! j.
Proof.
  intros Hle Hhi. unfold rotate_right.
  rewrite lookup_app, lookup_take.
  destruct (decide (j < lo)) as [Hj|Hj].
  - rewrite decide_False by lia. rewrite decide_False by lia.
    destruct (cells !! j) eqn:E; [done |].
    apply lookup_ge_None in E. lia.
  - rewrite length_take. replace (lo `min` length cells) with lo by lia.
    destruct (decide (j = lo)) as [->|Hne].
    + replace (lo - lo) with 0 by lia. simpl.
      symmetry. apply list_lookup_lookup_total_lt. lia.
    + destruct (j - lo) as [|k] eqn:Ek; [lia |]. simpl.
      rewrite lookup_app, lookup_take, lookup_drop.
      destruct (decide (k < hi - lo)) as [Hk|Hk].
      * rewrite decide_True by lia. replace (lo + k) with (j - 1) by lia.
        destruct (cells !! (j - 1)) eqn:E; [done |].
        apply lookup_ge_None in E. lia.
      * rewrite length_take, length_drop, lookup_drop.
        replace ((hi - lo) `min` (length cells - lo)) with (hi - lo) by lia.
        rewrite decide_False by lia. f_equal. lia.
Qed.

(** The copy loop followed by the write at [lo] is the rotation followed by
    the write at [lo]. *)
Lemma insert_copy_backward_rotate lo hi (cells : list Cell) x :
  lo ≤ hi → hi < length cells →
  <[lo := x]> (copy_backward_loop lo hi cells) =
  <[lo := x]> (rotate_right lo hi cells).
Proof.
  intros Hle Hhi. apply list_eq. intros j.
  rewrite !list_lookup_insert.
  rewrite copy_backward_loop_length, rotate_right_length by done.
  destruct (decide (lo = j ∧ lo < length cells)) as [[-> _]|Hn]; [done |].
  rewrite copy_backward_loop_lookup, rotate_right_lookup by done.
  rewrite (decide_False (P := j = lo)) by lia. done.
Qed.

(** When the cell at [hi] is already [x], the rotation alone brings it to
    [lo]. *)
Lemma insert_rotate_right_id lo hi (cells : list Cell) x :
  lo ≤ hi → hi < length cells → cells !! hi = Some x →
  <[lo := x]> (rotate_right lo hi cells) = rotate_right lo hi cells.
Proof.
  intros Hle Hhi Hx. apply list_insert_id.
  rewrite rotate_right_lookup by done. by rewrite decide_True.
Qed.

Lemma scan_up_Some (cells : list Cell) k :
  scan_up cells = Some k →
  cells !! k = Some empty_cell ∧ ∀ j, j < k → cells !! j ≠ Some empty_cell.
Proof.
  revert k. induction cells as [|c rest IH]; intros k; simpl; [done |].
  case_decide as Hc.
  - intros [= <-]. subst. split; [done | lia].
  - destruct (scan_up rest) as [k'|]; simpl; [| done].
    intros [= <-]. destruct (IH k' eq_refl) as [H1 H2]. split; [done |].
    intros [|j] Hj; simpl; [congruence | apply H2; lia].
Qed.

Lemma scan_up_None (cells : list Cell) :
  scan_up cells = None → empty_cell ∉ cells.
Proof.
  induction cells as [|c rest IH]; simpl; [intros _ ?%elem_of_nil; done |].
  case_decide; [done |]. destruct (scan_up rest); simpl; [done |].
  intros _ [?|?]%elem_of_cons; [congruence | by apply IH].
Qed.

Lemma scan_down_Some n (cells : list Cell) i :
  scan_down n cells = Some i →
  i < n ∧ cells !!! i = empty_cell ∧
  ∀ j, i < j < n → cells !!! j ≠ empty_cell.
Proof.
  induction n as [|ip IH]; simpl; [done |]. case_decide as Hc.
  - intros [= <-]. repeat split; [lia | done | lia].
  - intros [H1 [H2 H3]]%IH. repeat split; [lia | done |].
    intros j Hj. destruct (decide (j = ip)) as [->|]; [done | apply H3; lia].
Qed.

Lemma scan_down_None n (cells : list Cell) :
  scan_down n cells = None → ∀ j, j < n → cells !!! j ≠ empty_cell.
Proof.
  induction n as [|ip IH]; simpl; [lia |]. case_decide; [done |].
  intros Hn j Hj. destruct (decide (j = ip)) as [->|]; [done |].
  apply IH; [done | lia].
Qed.

(** ** Ranges of the mapped region *)

Lemma range_cells_length lo hi (mem : list Cell) :
  lo ≤ hi → hi ≤ length mem → length (range_cells (lo, hi) mem) = hi - lo.
Proof.
  intros. unfold range_cells; simpl. rewrite length_take, length_drop. lia.
Qed.

Lemma store_range_length lo hi (cells mem : list Cell) :
  lo ≤ hi → hi ≤ length mem → length cells = hi - lo →
  length (store_range (lo, hi) cells mem) = length mem.
Proof.
  intros. unfold store_range; simpl.
  rewrite !length_app, length_take, length_drop. lia.
Qed.

Lemma range_store lo hi (cells mem : list Cell) :
  lo ≤ hi → hi ≤ length mem → length cells = hi - lo →
  range_cells (lo, hi) (store_range (lo, hi) cells mem) = cells.
Proof.
  intros Hle Hhi Hlen. unfold range_cells, store_range; simpl.
  rewrite drop_app_length' by (rewrite length_take; lia).
  rewrite take_app_length' by lia. done.
Qed.

Lemma store_store lo hi (c1 c2 mem : list Cell) :
  lo ≤ hi → hi ≤ length mem → length c1 = hi - lo →
  store_range (lo, hi) c2 (store_range (lo, hi) c1 mem) =
  store_range (lo, hi) c2 mem.
Proof.
  intros Hle Hhi Hlen. unfold store_range; simpl.
  rewrite take_app_length' by (rewrite length_take; lia).
  rewrite (app_assoc (take lo mem) c1).
  rewrite drop_app_length' by (rewrite length_app, length_take; lia).
  done.
Qed.

Lemma store_range_id lo hi (mem : list Cell) :
  lo ≤ hi → store_range (lo, hi) (range_cells (lo, hi) mem) mem = mem.
Proof.
  intros Hle. unfold store_range, range_cells; simpl.
  rewrite app_assoc, take_take_drop.
  replace (lo + (hi - lo)) with hi by lia. apply take_drop.
Qed.

Lemma store_range_lookup_outside lo hi (cells mem : list Cell) i :
  lo ≤ hi → hi ≤ length mem → length cells = hi - lo →
  i < lo ∨ hi ≤ i →
  store_range (lo, hi) cells mem !! i = mem !! i.
Proof.
  intros Hle Hhi Hlen Hi. unfold store_range; simpl.
  rewrite lookup_app, lookup_take. destruct Hi as [Hi|Hi].
  - rewrite decide_True by lia.
    destruct (mem !! i) eqn:E; [done |]. apply lookup_ge_None in E. lia.
  - rewrite decide_False by lia. rewrite length_take.
    rewrite lookup_app.
    destruct (cells !! (i - lo `min` length mem)) eqn:E.
    + apply lookup_lt_Some in E. lia.
    + rewrite lookup_drop. f_equal. lia.
Qed.

(** A range inside a stored range reads the stored cells. *)
Lemma range_store_inside lo hi (cells mem : list Cell) a b :
  lo ≤ hi → hi ≤ length mem → length cells = hi - lo →
  lo ≤ a → a ≤ b → b ≤ hi →
  range_cells (a, b) (store_range (lo, hi) cells mem) =
  range_cells (a - lo, b - lo) cells.
Proof.
  intros Hle Hhi Hlen Ha Hab Hb. unfold range_cells, store_range; simpl.
  rewrite drop_app_ge by (rewrite length_take; lia).
  rewrite length_take. replace (lo `min` length mem) with lo by lia.
  rewrite drop_app.
  rewrite take_app_le by (rewrite length_drop; lia).
  f_equal. lia.
Qed.

(** ** The monad *)

Lemma bind_eq {A B : Type} (m : M A) (f : A → M B) t :
  (m ≫= f) t =
  match m t with Ok a t' => f a t' | Throw t' => Throw t' end.
Proof. reflexivity. Qed.

Lemma bind_Ok {A B : Type} (m : M A) (f : A → M B) t a t' :
  m t = Ok a t' → (m ≫= f) t = f a t'.
Proof. intros H. by rewrite bind_eq, H. Qed.

Lemma bind_Throw {A B : Type} (m : M A) (f : A → M B) t t' :
  m t = Throw t' → (m ≫= f) t = Throw t'.
Proof. intros H. by rewrite bind_eq, H. Qed.

Lemma THROW_CHECK_true t : THROW_CHECK true t = Ok () t.
Proof. reflexivity. Qed.

(** ** Addressing *)

Lemma bucket_index_lt hash t : 0 < m_buckets t → bucket_index hash t < m_buckets t.
Proof.
  intros Hb. unfold bucket_index.
  pose proof (Z.mod_pos_bound hash (Z.of_nat (m_buckets t))). lia.
Qed.

Lemma wf_buckets_per_extent t : wf t → 0 < c_buckets_per_extent.
Proof. intros (? & ? & ? & ?). destruct c_buckets_per_extent; lia. Qed.

Lemma wf_cells_per_extent t : wf t → 0 < cells_per_extent.
Proof.
  intros Hwf. pose proof (wf_buckets_per_extent t Hwf).
  destruct Hwf as (? & _). unfold cells_per_extent. nia.
Qed.

Lemma extent_of_lt hash t : wf t → extent_of hash t < m_extents t.
Proof.
  intros Hwf. pose proof (wf_buckets_per_extent t Hwf).
  destruct Hwf as (? & Hb & Hm & ?). unfold extent_of.
  apply Nat.Div0.div_lt_upper_bound.
  pose proof (bucket_index_lt hash t Hb). lia.
Qed.

Lemma bucket_range_bounds hash t :
  wf t →
  (bucket_range hash t).1 ≤ (bucket_range hash t).2 ∧
  (bucket_range hash t).2 ≤ length (m_cell_ptr t) ∧
  (bucket_range hash t).2 - (bucket_range hash t).1 = c_cells_per_bucket.
Proof.
  intros (? & Hb & Hm & Hl). pose proof (bucket_index_lt hash t Hb) as Hlt.
  unfold bucket_range; simpl. rewrite Hl.
  assert ((bucket_index hash t + 1) * c_cells_per_bucket
          ≤ m_buckets t * c_cells_per_bucket)
    by (apply Nat.mul_le_mono_r; lia).
  lia.
Qed.

Lemma extent_range_bounds e t :
  wf t → e < m_extents t →
  (extent_range e).1 ≤ (extent_range e).2 ∧
  (extent_range e).2 ≤ length (m_cell_ptr t) ∧
  (extent_range e).2 - (extent_range e).1 = cells_per_extent.
Proof.
  intros (? & Hb & Hm & Hl) He.
  unfold extent_range; simpl. rewrite Hl, Hm.
  assert ((e + 1) * cells_per_extent ≤ m_extents t * cells_per_extent)
    by (apply Nat.mul_le_mono_r; lia).
  unfold cells_per_extent in *. lia.
Qed.

Lemma bucket_of_length hash t :
  wf t → length (bucket_of hash t) = c_cells_per_bucket.
Proof.
  intros Hwf. destruct (bucket_range_bounds hash t Hwf) as (H1 & H2 & H3).
  unfold bucket_of. destruct (bucket_range hash t) as [lo hi]; simpl in *.
  rewrite range_cells_length; lia.
Qed.

Lemma get_cell_range_ok hash t :
  wf t → get_cell_range hash t = Ok (bucket_range hash t) t.
Proof.
  intros Hwf. destruct (bucket_range_bounds hash t Hwf) as (H1 & H2 & H3).
  destruct Hwf as (? & Hb & Hm & Hl). simpl in *.
  unfold get_cell_range. rewrite bind_eq; simpl.
  rewrite (bool_decide_eq_true_2 (0 < _)) by done.
  rewrite (bool_decide_eq_true_2 (_ ≤ length _)) by done.
  reflexivity.
Qed.

Lemma get_extent_range_ok hash t :
  wf t → get_extent_range hash t = Ok (extent_range (extent_of hash t)) t.
Proof.
  intros Hwf.
  destruct (extent_range_bounds _ t Hwf (extent_of_lt hash t Hwf))
    as (H1 & H2 & H3).
  destruct Hwf as (? & Hb & Hm & Hl). simpl in *.
  unfold get_extent_range. rewrite bind_eq; simpl.
  rewrite (bool_decide_eq_true_2 (0 < _)) by done.
  rewrite (bool_decide_eq_true_2 (_ ≤ length _)) by done.
  reflexivity.
Qed.

Lemma extent_number_of_range e t :
  wf t → extent_number_of (extent_range e) = e.
Proof.
  intros Hwf. pose proof (wf_cells_per_extent t Hwf).
  unfold extent_number_of, extent_range; simpl.
  apply Nat.div_mul. lia.
Qed.

Lemma set_extent_dirty_ok hash t :
  wf t →
  set_extent_dirty hash t =
  Ok () (with_dirty ({[extent_of hash t]} ∪ m_buckets_dirty t) t).
Proof.
  intros Hwf. pose proof (extent_of_lt hash t Hwf).
  unfold set_extent_dirty. rewrite bind_eq; simpl.
  rewrite bind_eq, bool_decide_eq_true_2 by (destruct Hwf as (? & ? & ?); done).
  simpl. rewrite (bind_Ok _ _ _ _ _ (get_extent_range_ok hash t Hwf)).
  rewrite (extent_number_of_range _ t Hwf).
  rewrite bind_eq, bool_decide_eq_true_2 by done. simpl. done.
Qed.

(** ** Sets of extents *)

Lemma not_elem_of_remove (X : gset nat) e : e ∉ X ∖ {[e]}.
Proof. rewrite elem_of_difference, elem_of_singleton. tauto. Qed.

Lemma remove_not_elem_of (X : gset nat) e : e ∉ X → X ∖ {[e]} = X.
Proof.
  intros He. apply set_eq. intros x.
  rewrite elem_of_difference, elem_of_singleton.
  split; [tauto |]. intros Hx. split; [done |]. by intros ->.
Qed.

(** ** Well-formedness is kept *)

Lemma wf_with_cells cells t :
  wf t → length cells = length (m_cell_ptr t) → wf (with_cells cells t).
Proof. intros (? & ? & ? & Hl) Hc. unfold wf; simpl. rewrite Hc. done. Qed.

Lemma wf_with_dirty d t : wf t → wf (with_dirty d t).
Proof. done. Qed.

Lemma wf_with_missing m t : wf t → wf (with_missing m t).
Proof. done. Qed.

Lemma wf_with_stats s t : wf t → wf (with_stats s t).
Proof. done. Qed.

Lemma wf_with_fd f t : wf t → wf (with_fd f t).
Proof. done. Qed.

Lemma wf_store_bucket hash cells t :
  wf t → length cells = c_cells_per_bucket →
  wf (with_cells (store_range (bucket_range hash t) cells (m_cell_ptr t)) t).
Proof.
  intros Hwf Hc. apply wf_with_cells; [done |].
  destruct (bucket_range_bounds hash t Hwf) as (H1 & H2 & H3).
  destruct (bucket_range hash t) as [lo hi]; simpl in *.
  apply store_range_length; lia.
Qed.

Lemma bucket_of_store hash cells t :
  wf t → length cells = c_cells_per_bucket →
  bucket_of hash
    (with_cells (store_range (bucket_range hash t) cells (m_cell_ptr t)) t)
  = cells.
Proof.
  intros Hwf Hc. unfold bucket_of.
  change (bucket_range hash (with_cells _ t)) with (bucket_range hash t).
  simpl. destruct (bucket_range_bounds hash t Hwf) as (H1 & H2 & H3).
  destruct (bucket_range hash t) as [lo hi]; simpl in *.
  apply range_store; lia.
Qed.

Lemma wf_paged_in e cells t :
  wf t → e < m_extents t → length cells = cells_per_extent →
  wf (paged_in e cells t).
Proof.
  intros Hwf He Hc. unfold paged_in.
  apply wf_with_missing, wf_with_stats, wf_with_cells; [done |].
  destruct (extent_range_bounds e t Hwf He) as (H1 & H2 & H3).
  destruct (extent_range e) as [lo hi]; simpl in *.
  apply store_range_length; lia.
Qed.

(** ** Page-in *)

Lemma fetch_missing_extent_loaded hash t :
  wf t → extent_of hash t ∉ m_buckets_missing t →
  fetch_missing_extent hash t = Ok () t.
Proof.
  intros Hwf Hm. pose proof (extent_of_lt hash t Hwf).
  unfold fetch_missing_extent. rewrite bind_eq; simpl.
  rewrite bind_eq, bool_decide_eq_true_2
    by (destruct Hwf as (? & ? & ?); done).
  simpl. rewrite (bind_Ok _ _ _ _ _ (get_extent_range_ok hash t Hwf)).
  rewrite (extent_number_of_range _ t Hwf).
  rewrite bind_eq, bool_decide_eq_true_2 by done. simpl.
  rewrite bool_decide_eq_true_2 by done. done.
Qed.

Lemma fetch_missing_extent_missing hash t :
  wf t → extent_of hash t ∈ m_buckets_missing t →
  fetch_missing_extent hash t =
  match m_fd t !! extent_of hash t with
  | Some cells =>
      if decide (length cells = cells_per_extent)
      then Ok () (paged_in (extent_of hash t) cells t)
      else Throw t
  | None => Throw t
  end.
Proof.
  intros Hwf Hm. pose proof (extent_of_lt hash t Hwf).
  unfold fetch_missing_extent. rewrite bind_eq; simpl.
  rewrite bind_eq, bool_decide_eq_true_2
    by (destruct Hwf as (? & ? & ?); done).
  simpl. rewrite (bind_Ok _ _ _ _ _ (get_extent_range_ok hash t Hwf)).
  rewrite (extent_number_of_range _ t Hwf).
  rewrite bind_eq, bool_decide_eq_true_2 by done. simpl.
  rewrite bool_decide_eq_false_2 by (intros ?; done).
  rewrite bind_eq; simpl.
  rewrite bool_decide_eq_false_2 by (intros ?; done).
  rewrite bind_eq. unfold pread_or_die. rewrite bind_eq; simpl.
  destruct (m_fd t !! extent_of hash t) as [cells|]; [| done].
  destruct (decide (length cells = cells_per_extent)); done.
Qed.

(** What a page-in that returns has done. *)
Lemma fetch_missing_extent_Ok hash t t1 :
  wf t → fetch_missing_extent hash t = Ok () t1 →
  ((extent_of hash t ∉ m_buckets_missing t) ∧ t1 = t) ∨
  (extent_of hash t ∈ m_buckets_missing t ∧
   ∃ cells, m_fd t !! extent_of hash t = Some cells ∧
            length cells = cells_per_extent ∧
            t1 = paged_in (extent_of hash t) cells t).
Proof.
  intros Hwf Hf.
  destruct (decide (extent_of hash t ∈ m_buckets_missing t)) as [Hm|Hm].
  - right. split; [done |].
    rewrite (fetch_missing_extent_missing hash t Hwf Hm) in Hf.
    destruct (m_fd t !! extent_of hash t) as [cells|]; [| done].
    destruct (decide (length cells = cells_per_extent)); [| done].
    exists cells. by injection Hf as <-.
  - left. split; [done |].
    rewrite (fetch_missing_extent_loaded hash t Hwf Hm) in Hf.
    by injection Hf as <-.
Qed.

(** A page-in that throws has changed nothing. *)
Lemma fetch_missing_extent_Throw hash t t1 :
  wf t → fetch_missing_extent hash t = Throw t1 → t1 = t.
Proof.
  intros Hwf Hf.
  destruct (decide (extent_of hash t ∈ m_buckets_missing t)) as [Hm|Hm].
  - rewrite (fetch_missing_extent_missing hash t Hwf Hm) in Hf.
    destruct (m_fd t !! extent_of hash t) as [cells|];
      [destruct (decide (length cells = cells_per_extent)) |];
      congruence.
  - rewrite (fetch_missing_extent_loaded hash t Hwf Hm) in Hf. done.
Qed.

Lemma fetch_missing_extent_post hash t t1 :
  wf t → fetch_missing_extent hash t = Ok () t1 →
  wf t1 ∧
  m_buckets t1 = m_buckets t ∧
  m_buckets_dirty t1 = m_buckets_dirty t ∧
  m_toxic_hashes t1 = m_toxic_hashes t ∧
  m_buckets_missing t1 = m_buckets_missing t ∖ {[extent_of hash t]} ∧
  (extent_of hash t ∉ m_buckets_missing t → t1 = t).
Proof.
  intros Hwf Hf. pose proof (extent_of_lt hash t Hwf).
  destruct (fetch_missing_extent_Ok hash t t1 Hwf Hf)
    as [[Hm ->] | [Hm (cells & Hfd & Hlen & ->)]].
  - split_and!; try done. by rewrite remove_not_elem_of.
  - split_and!; try done. by apply wf_paged_in.
Qed.

(** ** Lookup *)

Lemma land_lor_same (a m : Z) : Z.land (Z.lor a m) m = m.
Proof.
  apply Z.bits_inj'. intros n Hn.
  rewrite Z.land_spec, Z.lor_spec. by destruct (Z.testbit a n), (Z.testbit m n).
Qed.

Lemma is_toxic_set_toxic addr : c_toxic_mask ≠ 0%Z → is_toxic (set_toxic addr) = true.
Proof.
  intros Hm. unfold is_toxic, set_toxic.
  rewrite land_lor_same. by apply bool_decide_eq_true_2.
Qed.

Lemma find_cell_run hash t t1 :
  wf t → hash ∉ m_toxic_hashes t →
  fetch_missing_extent hash t = Ok () t1 →
  find_cell hash t =
  Ok (filter (λ ip, e_hash ip = hash ∧ (0x1000 ≤ e_addr ip)%Z)
             (bucket_of hash t1))
     (with_stats (add_count "hash_lookup" (s_global t1)) t1).
Proof.
  intros Hwf Htox Hf.
  destruct (fetch_missing_extent_post hash t t1 Hwf Hf) as (Hwf1 & _).
  unfold find_cell. rewrite bind_eq; simpl.
  unfold is_toxic_hash. rewrite bool_decide_eq_false_2 by done.
  rewrite (bind_Ok _ _ _ _ _ Hf).
  rewrite (bind_Ok _ _ _ _ _ (get_cell_range_ok hash t1 Hwf1)).
  reflexivity.
Qed.

(** C6.  For a hash that is not toxic, [find_cell] returns exactly the
    cells of the hash's bucket (as it stands once the extent is paged in)
    whose stored hash is the one asked for and whose address is at least
    0x1000, in bucket order; it leaves the mapped region as the page-in
    left it, and as it was before the call when the extent was already
    loaded. *)
Theorem find_cell_returns_valid_matches hash t t1 :
  wf t → hash ∉ m_toxic_hashes t →
  fetch_missing_extent hash t = Ok () t1 →
  ∃ t', find_cell hash t =
          Ok (filter (λ ip, e_hash ip = hash ∧ (0x1000 ≤ e_addr ip)%Z)
                     (bucket_of hash t1)) t' ∧
        m_cell_ptr t' = m_cell_ptr t1 ∧
        bucket_of hash t' = bucket_of hash t1 ∧
        m_buckets_dirty t' = m_buckets_dirty t ∧
        (extent_of hash t ∉ m_buckets_missing t →
         m_cell_ptr t' = m_cell_ptr t).
Proof.
  intros Hwf Htox Hf.
  destruct (fetch_missing_extent_post hash t t1 Hwf Hf)
    as (Hwf1 & _ & Hd & _ & _ & Hsame).
  eexists. split; [by apply find_cell_run |].
  split_and!; try done. intros Hm. by rewrite (Hsame Hm).
Qed.

(** C7.  For a toxic hash, [find_cell] returns exactly one cell, whose
    address is 0x1000 with the toxic flag set; the result is the same
    whatever the mapped region holds, and the call leaves the region, the
    missing set, the dirty set and the backing file as they were. *)
Theorem find_cell_toxic hash t :
  c_toxic_mask ≠ 0%Z →
  hash ∈ m_toxic_hashes t →
  ∃ cell t',
    find_cell hash t = Ok [cell] t' ∧
    e_hash cell = hash ∧
    e_addr cell = set_toxic 0x1000 ∧
    is_toxic (e_addr cell) = true ∧
    m_cell_ptr t' = m_cell_ptr t ∧
    m_buckets_missing t' = m_buckets_missing t ∧
    m_buckets_dirty t' = m_buckets_dirty t ∧
    m_fd t' = m_fd t ∧
    (∀ mem, ∃ t'', find_cell hash (with_cells mem t) = Ok [cell] t'').
Proof.
  intros Hmask Htox.
  exists (mkCell hash (set_toxic 0x1000)),
         (with_stats (add_count "hash_toxic" (s_global t)) t).
  assert (∀ u, hash ∈ m_toxic_hashes u →
    find_cell hash u = Ok [mkCell hash (set_toxic 0x1000)]
                          (with_stats (add_count "hash_toxic" (s_global u)) u))
    as Hrun.
  { intros u Hu. unfold find_cell. rewrite bind_eq; simpl.
    unfold is_toxic_hash. rewrite bool_decide_eq_true_2 by done.
    reflexivity. }
  split_and!; try done.
  - by apply Hrun.
  - by apply is_toxic_set_toxic.
  - intros mem. eexists. by apply Hrun.
Qed.

(** ** Erase *)

Lemma erase_hash_addr_run hash addr t t1 :
  wf t → fetch_missing_extent hash t = Ok () t1 →
  erase_hash_addr hash addr t =
  Ok () (let cells := bucket_of hash t1 in
         let ip := std_find cells (mkCell hash addr) in
         if bool_decide (ip < length cells) then
           with_stats (add_count "hash_erase" (s_global t1))
             (with_dirty ({[extent_of hash t1]} ∪ m_buckets_dirty t1)
                (with_cells (store_range (bucket_range hash t1)
                               (<[ip := mkCell 0 0]> cells) (m_cell_ptr t1))
                            t1))
         else t1).
Proof.
  intros Hwf Hf.
  destruct (fetch_missing_extent_post hash t t1 Hwf Hf) as (Hwf1 & _).
  unfold erase_hash_addr.
  rewrite (bind_Ok _ _ _ _ _ Hf).
  rewrite (bind_Ok _ _ _ _ _ (get_cell_range_ok hash t1 Hwf1)).
  rewrite bind_eq; simpl. fold (bucket_of hash t1).
  destruct (bool_decide _) eqn:Hfound; [| done].
  rewrite bind_eq; simpl.
  rewrite bind_eq, set_extent_dirty_ok.
  - reflexivity.
  - apply wf_store_bucket; [done |].
    rewrite length_insert. by apply bucket_of_length.
Qed.

Lemma extent_of_same_buckets hash t t' :
  m_buckets t' = m_buckets t → extent_of hash t' = extent_of hash t.
Proof. intros H. unfold extent_of, bucket_index. by rewrite H. Qed.

(** C8, as amended.  [erase_hash_addr] overwrites the first cell equal to
    [(hash, addr)], if there is one, with the empty cell, leaves every other
    cell of the bucket in place and marks the extent dirty; with no such
    cell it changes nothing beyond the page-in.  When the hash is not toxic
    and at most one cell of the bucket equals [(hash, addr)], a [find_cell]
    after the erase returns no cell with address [addr]. *)
Theorem erase_hash_addr_clears_first_match hash addr t t1 :
  wf t → fetch_missing_extent hash t = Ok () t1 →
  let mv := mkCell hash addr in
  let cells := bucket_of hash t1 in
  ∃ t', erase_hash_addr hash addr t = Ok () t' ∧
    (mv ∈ cells →
       ∃ ip, cells !! ip = Some mv ∧
             (∀ j, j < ip → cells !! j ≠ Some mv) ∧
             bucket_of hash t' = <[ip := empty_cell]> cells ∧
             m_buckets_dirty t' = {[extent_of hash t]} ∪ m_buckets_dirty t) ∧
    (mv ∉ cells → t' = t1 ∧ m_buckets_dirty t' = m_buckets_dirty t) ∧
    (hash ∉ m_toxic_hashes t →
     (∀ i j, cells !! i = Some mv → cells !! j = Some mv → i = j) →
     ∃ rv t'', find_cell hash t' = Ok rv t'' ∧
               ∀ c, c ∈ rv → e_addr c ≠ addr).
Proof.
  intros Hwf Hf mv cells.
  destruct (fetch_missing_extent_post hash t t1 Hwf Hf)
    as (Hwf1 & Hb & Hd & Htox & Hmiss & _).
  pose proof (bucket_of_length hash t1 Hwf1) as Hlen. fold cells in Hlen.
  eexists. split; [by apply erase_hash_addr_run |].
  cbv zeta. fold mv cells.
  destruct (bool_decide (std_find cells mv < length cells)) eqn:Hfound.
  - apply bool_decide_eq_true_1 in Hfound.
    pose proof (std_find_lookup cells mv Hfound) as Hip.
    assert (bucket_of hash
              (with_stats (add_count "hash_erase" (s_global t1))
                 (with_dirty ({[extent_of hash t1]} ∪ m_buckets_dirty t1)
                    (with_cells (store_range (bucket_range hash t1)
                       (<[std_find cells mv := mkCell 0 0]> cells)
                       (m_cell_ptr t1)) t1)))
            = <[std_find cells mv := empty_cell]> cells) as Hbucket.
    { apply (bucket_of_store hash _ t1 Hwf1). by rewrite length_insert. }
    split_and!.
    + intros _. exists (std_find cells mv). split_and!; try done.
      * intros j Hj. by apply std_find_before.
      * simpl. by rewrite Hd, (extent_of_same_buckets hash t t1).
    + intros Hno. by apply std_find_elem in Hfound.
    + intros Hnt Huniq. eexists _, _. split.
      * apply find_cell_run.
        -- apply wf_with_stats, wf_with_dirty, wf_store_bucket; [done |].
           by rewrite length_insert.
        -- simpl. by rewrite Htox.
        -- apply fetch_missing_extent_loaded.
           ++ apply wf_with_stats, wf_with_dirty, wf_store_bucket; [done |].
              by rewrite length_insert.
           ++ simpl. rewrite Hmiss.
              change (extent_of hash (with_stats _ _))
                with (extent_of hash t1).
              rewrite (extent_of_same_buckets hash t t1 Hb).
              apply not_elem_of_remove.
      * rewrite Hbucket. intros c [[Hh Ha] Hin]%list_elem_of_filter Haddr.
        assert (c = mv) as -> by (destruct c; simpl in *; by subst).
        apply list_elem_of_lookup in Hin as [j Hj].
        rewrite list_lookup_insert in Hj. case_decide as Hc.
        -- assert (empty_cell = mv) as Hz by congruence.
           unfold mv, empty_cell in Hz.
           assert (addr = 0%Z) by congruence. simpl in Ha. lia.
        -- assert (j = std_find cells mv) by (by apply Huniq). lia.
  - apply bool_decide_eq_false_1 in Hfound.
    assert (mv ∉ cells) as Hno by (by rewrite <- std_find_elem).
    split_and!; try done.
    intros Hnt Huniq. eexists _, _. split.
    + apply find_cell_run; [done | by rewrite Htox |].
      apply fetch_missing_extent_loaded; [done |].
      rewrite Hmiss, (extent_of_same_buckets hash t t1 Hb).
      apply not_elem_of_remove.
    + intros c [[Hh Ha] Hin]%list_elem_of_filter Haddr.
      assert (c = mv) as -> by (destruct c; simpl in *; by subst).
      done.
Qed.

(** C10.  When the bucket of hash 0 holds an empty cell,
    [erase_hash_addr(0, 0)] matches the first empty cell, leaves every cell
    of the region as it was, and still adds extent 0, the extent of that
    bucket, to the dirty set and counts one [hash_erase]. *)
Theorem erase_zero_zero_dirties_without_change t t1 :
  wf t → fetch_missing_extent 0 t = Ok () t1 →
  empty_cell ∈ bucket_of 0 t1 →
  ∃ t' ip,
    erase_hash_addr 0 0 t = Ok () t' ∧
    std_find (bucket_of 0 t1) (mkCell 0 0) = ip ∧
    bucket_of 0 t1 !! ip = Some empty_cell ∧
    (∀ j, j < ip → bucket_of 0 t1 !! j ≠ Some empty_cell) ∧
    m_cell_ptr t' = m_cell_ptr t1 ∧
    extent_of 0 t = 0 ∧
    m_buckets_dirty t' = {[0]} ∪ m_buckets_dirty t ∧
    counter "hash_erase" (s_global t') =
      S (counter "hash_erase" (s_global t1)).
Proof.
  intros Hwf Hf Hempty.
  destruct (fetch_missing_extent_post 0 t t1 Hwf Hf)
    as (Hwf1 & Hb & Hd & Htox & Hmiss & _).
  apply std_find_elem in Hempty.
  pose proof (std_find_lookup _ _ Hempty) as Hip.
  assert (extent_of 0 t1 = 0) as He1.
  { unfold extent_of, bucket_index.
    rewrite Z.mod_0_l by (destruct Hwf1 as (? & ? & ?); lia).
    apply Nat.Div0.div_0_l. }
  eexists _, _. split; [by apply erase_hash_addr_run |].
  cbv zeta. change (mkCell 0 0) with empty_cell in *.
  rewrite bool_decide_eq_true_2 by done.
  split_and!; try done.
  - intros j Hj. by apply std_find_before.
  - simpl. rewrite list_insert_id by done.
    destruct (bucket_range_bounds 0 t1 Hwf1) as (H1 & _).
    unfold bucket_of. destruct (bucket_range 0 t1) as [lo hi]; simpl in *.
    by apply store_range_id.
  - simpl. by rewrite He1, Hd.
  - simpl. unfold counter, add_count. by rewrite lookup_insert_eq.
Qed.

(** ** Push front *)

(** The last step of push_front: write [mv] at the front unless it is
    there, marking the extent dirty. *)
Lemma push_front_write_run hash mv t2 :
  wf t2 →
  (if bool_decide (bucket_of hash t2 !!! 0 ≠ mv) then
     write_range (bucket_range hash t2) (<[0 := mv]> (bucket_of hash t2));;
     set_extent_dirty hash;;
     BEESCOUNT "hash_front"
   else mret ()) t2 =
  Ok () (if bool_decide (bucket_of hash t2 !!! 0 ≠ mv) then
           with_stats (add_count "hash_front" (s_global t2))
             (with_dirty ({[extent_of hash t2]} ∪ m_buckets_dirty t2)
                (with_cells (store_range (bucket_range hash t2)
                               (<[0 := mv]> (bucket_of hash t2))
                               (m_cell_ptr t2)) t2))
         else t2).
Proof.
  intros Hwf. destruct (bool_decide _); [| done].
  rewrite bind_eq; simpl. rewrite bind_eq, set_extent_dirty_ok.
  - reflexivity.
  - apply wf_store_bucket; [done |].
    rewrite length_insert. by apply bucket_of_length.
Qed.

(** The first step of push_front: shift the cells below the source up. *)
Lemma push_front_shift_run hash mv t1 :
  wf t1 →
  let cells := bucket_of hash t1 in
  ∃ t2,
    (let ip := std_find cells mv in
     let found := bool_decide (ip < length cells) in
     let ip := if found then ip else std_find cells (mkCell 0 0) in
     if bool_decide (0 < ip) then
       if bool_decide (ip = length cells) then
         BEESCOUNT "hash_evict";;
         write_range (bucket_range hash t1)
                     (copy_backward_loop 0 (ip - 1) cells)
       else
         write_range (bucket_range hash t1) (copy_backward_loop 0 ip cells)
     else mret ()) t1 = Ok () t2 ∧
    wf t2 ∧
    m_buckets t2 = m_buckets t1 ∧
    m_buckets_dirty t2 = m_buckets_dirty t1 ∧
    m_buckets_missing t2 = m_buckets_missing t1 ∧
    bucket_of hash t2 =
      copy_backward_loop 0 (push_front_source mv cells) cells ∧
    s_global t2 =
      (if decide ((mv ∉ cells) ∧ (empty_cell ∉ cells))
       then add_count "hash_evict" (s_global t1) else s_global t1).
Proof.
  intros Hwf cells.
  pose proof (bucket_of_length hash t1 Hwf) as Hlen. fold cells in Hlen.
  destruct Hwf as (HC & Hwf'). pose proof (conj HC Hwf') as Hwf.
  assert (∀ cs, length cs = c_cells_per_bucket →
            bucket_of hash (with_cells (store_range (bucket_range hash t1) cs
                                          (m_cell_ptr t1)) t1) = cs)
    as Hstore by (intros; by apply bucket_of_store).
  cbv zeta. change (mkCell 0 0) with empty_cell.
  unfold push_front_source.
  pose proof (std_find_le cells mv) as Hle1.
  pose proof (std_find_le cells empty_cell) as Hle2.
  destruct (decide (mv ∈ cells)) as [Hin|Hin].
  - (* the entry is there *)
    pose proof Hin as Hlt. apply std_find_elem in Hlt.
    rewrite (bool_decide_eq_true_2 (std_find cells mv < _)) by done.
    rewrite (bool_decide_eq_false_2 (std_find cells mv = _)) by lia.
    rewrite decide_False by tauto.
    destruct (bool_decide (0 < std_find cells mv)) eqn:Hpos.
    + eexists. split; [reflexivity |]. split_and!; try done.
      * apply wf_store_bucket; [done |].
        by rewrite copy_backward_loop_length.
      * apply Hstore. by rewrite copy_backward_loop_length.
    + apply bool_decide_eq_false_1 in Hpos.
      exists t1. split_and!; try done.
      replace (std_find cells mv) with 0 by lia. done.
  - rewrite (bool_decide_eq_false_2 (std_find cells mv < _))
      by (by rewrite std_find_elem).
    destruct (decide (empty_cell ∈ cells)) as [Hem|Hem].
    + (* an empty cell takes it *)
      pose proof Hem as Hlt. apply std_find_elem in Hlt.
      rewrite (bool_decide_eq_false_2 (std_find cells empty_cell = _)) by lia.
      rewrite decide_False by tauto.
      destruct (bool_decide (0 < std_find cells empty_cell)) eqn:Hpos.
      * eexists. split; [reflexivity |]. split_and!; try done.
        -- apply wf_store_bucket; [done |].
           by rewrite copy_backward_loop_length.
        -- apply Hstore. by rewrite copy_backward_loop_length.
      * apply bool_decide_eq_false_1 in Hpos.
        exists t1. split_and!; try done.
        replace (std_find cells empty_cell) with 0 by lia. done.
    + (* the last cell is evicted *)
      rewrite (std_find_absent cells empty_cell Hem).
      rewrite (bool_decide_eq_true_2 (0 < _)) by lia.
      rewrite (bool_decide_eq_true_2 (length cells = _)) by done.
      rewrite decide_True by done.
      eexists. split; [reflexivity |]. split_and!; try done.
      * apply wf_with_cells; [by apply wf_with_stats |]. simpl.
        destruct (bucket_range_bounds hash t1 Hwf) as (H1 & H2 & H3).
        destruct (bucket_range hash t1) as [lo hi]; simpl in *.
        apply store_range_length; try lia.
        rewrite copy_backward_loop_length. lia.
      * apply (bucket_of_store hash _
                 (with_stats (add_count "hash_evict" (s_global t1)) t1)).
        -- by apply wf_with_stats.
        -- by rewrite copy_backward_loop_length.
Qed.

Lemma push_front_source_lt mv (cells : list Cell) :
  0 < length cells → push_front_source mv cells < length cells.
Proof.
  intros Hlen. unfold push_front_source.
  repeat case_decide; try (by apply std_find_elem); lia.
Qed.

Lemma counter_add_count_ne name name' stats :
  name ≠ name' → counter name' (add_count name stats) = counter name' stats.
Proof. intros Hne. unfold counter, add_count. by rewrite lookup_insert_ne. Qed.

Lemma counter_add_count name stats :
  counter name (add_count name stats) = S (counter name stats).
Proof. unfold counter, add_count. by rewrite lookup_insert_eq. Qed.

Lemma bucket_range_same_buckets hash t t' :
  m_buckets t' = m_buckets t → bucket_range hash t' = bucket_range hash t.
Proof. intros H. unfold bucket_range, bucket_index. by rewrite H. Qed.

Lemma push_front_hash_addr_run hash addr t t1 :
  wf t → fetch_missing_extent hash t = Ok () t1 →
  let mv := mkCell hash addr in
  let cells := bucket_of hash t1 in
  ∃ t',
    push_front_hash_addr hash addr t = Ok (bool_decide (mv ∈ cells)) t' ∧
    bucket_of hash t' =
      <[0 := mv]> (copy_backward_loop 0 (push_front_source mv cells) cells) ∧
    counter "hash_evict" (s_global t') =
      counter "hash_evict" (s_global t1) +
      (if decide ((mv ∉ cells) ∧ (empty_cell ∉ cells)) then 1 else 0) ∧
    m_buckets_missing t' = m_buckets_missing t1 ∧
    (m_buckets_dirty t' = m_buckets_dirty t1 ∨
     m_buckets_dirty t' = {[extent_of hash t1]} ∪ m_buckets_dirty t1).
Proof.
  intros Hwf Hf mv cells.
  destruct (fetch_missing_extent_post hash t t1 Hwf Hf) as (Hwf1 & _).
  destruct (push_front_shift_run hash mv t1 Hwf1)
    as (t2 & Hshift & Hwf2 & Hb2 & Hd2 & Hm2 & Hcells2 & Hstats2).
  fold cells in Hshift, Hcells2, Hstats2.
  pose proof (bucket_of_length hash t2 Hwf2) as Hlen2.
  assert (0 < length (bucket_of hash t2)) as Hpos2
    by (destruct Hwf2 as (? & _); lia).
  pose proof (push_front_write_run hash mv t2 Hwf2) as Hwrite.
  set (t3 := if bool_decide (bucket_of hash t2 !!! 0 ≠ mv) then _ else t2)
    in Hwrite.
  exists t3. split_and!.
  - unfold push_front_hash_addr.
    rewrite (bind_Ok _ _ _ _ _ Hf).
    rewrite (bind_Ok _ _ _ _ _ (get_cell_range_ok hash t1 Hwf1)).
    rewrite bind_eq; simpl. fold (bucket_of hash t1). fold cells.
    rewrite (bind_Ok _ _ _ _ _ Hshift).
    rewrite bind_eq; simpl.
    rewrite <- (bucket_range_same_buckets hash t1 t2 Hb2).
    fold (bucket_of hash t2). fold mv.
    rewrite (bind_Ok _ _ _ _ _ Hwrite).
    unfold mret, M_ret. f_equal.
    apply bool_decide_ext, std_find_elem.
  - rewrite <- Hcells2. unfold t3. destruct (bool_decide _) eqn:Hd.
    + apply (bucket_of_store hash _ t2 Hwf2). by rewrite length_insert.
    + apply bool_decide_eq_false_1 in Hd.
      symmetry. apply list_insert_id.
      rewrite list_lookup_lookup_total_lt by done.
      f_equal. by destruct (decide (bucket_of hash t2 !!! 0 = mv)).
  - assert (counter "hash_evict" (s_global t3)
            = counter "hash_evict" (s_global t2)) as ->.
    { unfold t3. destruct (bool_decide _); [| done].
      simpl. by apply counter_add_count_ne. }
    rewrite Hstats2. case_decide.
    + rewrite counter_add_count. lia.
    + lia.
  - unfold t3. destruct (bool_decide _); simpl; by rewrite Hm2.
  - unfold t3. destruct (bool_decide _); simpl.
    + right. by rewrite Hd2, (extent_of_same_buckets hash t1 t2 Hb2).
    + by left.
Qed.

(** C2.  [push_front_hash_addr] leaves [(hash, addr)] at offset 0 of the
    bucket: the bucket becomes the old one with the prefix up to the source
    rotated right by one and [(hash, addr)] in front, the source being the
    first matching cell if there is one, else the first empty cell, else
    the last cell; an eviction is counted only in that last case, when the
    bucket is full and the entry new.  The call returns whether a matching
    cell was there. *)
Theorem push_front_hash_addr_rotates_prefix hash addr t t1 :
  wf t → fetch_missing_extent hash t = Ok () t1 →
  let mv := mkCell hash addr in
  let cells := bucket_of hash t1 in
  let source := push_front_source mv cells in
  ∃ t',
    push_front_hash_addr hash addr t = Ok (bool_decide (mv ∈ cells)) t' ∧
    bucket_of hash t' = <[0 := mv]> (rotate_right 0 source cells) ∧
    bucket_of hash t' !! 0 = Some mv ∧
    (mv ∈ cells → bucket_of hash t' = rotate_right 0 source cells) ∧
    counter "hash_evict" (s_global t') =
      counter "hash_evict" (s_global t1) +
      (if decide ((mv ∉ cells) ∧ (empty_cell ∉ cells)) then 1 else 0).
Proof.
  intros Hwf Hf mv cells source.
  destruct (fetch_missing_extent_post hash t t1 Hwf Hf) as (Hwf1 & _).
  pose proof (bucket_of_length hash t1 Hwf1) as Hlen. fold cells in Hlen.
  assert (0 < length cells) as Hpos by (destruct Hwf1 as (? & _); lia).
  pose proof (push_front_source_lt mv cells Hpos) as Hsrc. fold source in Hsrc.
  destruct (push_front_hash_addr_run hash addr t t1 Hwf Hf)
    as (t' & Hrun & Hcells & Hev & _).
  fold mv cells in Hrun, Hcells, Hev. fold source in Hcells.
  rewrite insert_copy_backward_rotate in Hcells by lia.
  exists t'. split_and!; try done.
  - rewrite Hcells. apply list_lookup_insert_eq.
    rewrite rotate_right_length by lia. lia.
  - intros Hin. rewrite Hcells.
    apply insert_rotate_right_id; [lia | done |].
    unfold source, push_front_source. rewrite decide_True by done.
    by apply std_find_lookup, std_find_elem.
Qed.

(** ** Push random *)

Lemma std_find_first (cells : list Cell) v i :
  cells !! i = Some v → (∀ j, j < i → cells !! j ≠ Some v) →
  std_find cells v = i.
Proof.
  intros Hi Hfirst.
  assert (v ∈ cells) as Hin by (apply list_elem_of_lookup; eauto).
  apply std_find_elem in Hin. pose proof (std_find_lookup cells v Hin) as Hl.
  destruct (decide (std_find cells v < i)) as [Hlt|Hge].
  - by destruct (Hfirst _ Hlt).
  - destruct (decide (i < std_find cells v)) as [Hlt|]; [| lia].
    by destruct (std_find_before cells v i Hlt).
Qed.

Lemma move_backward_length first (cells : list Cell) :
  first < length cells →
  length (move_backward first (length cells - 1) (length cells) cells)
  = length cells.
Proof.
  intros Hlt.
  replace (length cells) with (S (length cells - 1)) at 2 by lia.
  rewrite move_backward_copy_backward by lia.
  apply copy_backward_loop_length.
Qed.

Lemma inserted_wf hash cells counts t :
  wf t → length cells = c_cells_per_bucket → wf (inserted hash cells counts t).
Proof.
  intros Hwf Hc. unfold inserted.
  by apply wf_with_dirty, wf_with_stats, wf_store_bucket.
Qed.

Lemma inserted_bucket hash cells counts t :
  wf t → length cells = c_cells_per_bucket →
  bucket_of hash (inserted hash cells counts t) = cells.
Proof. intros Hwf Hc. by apply (bucket_of_store hash cells t). Qed.

(** The common exit of the dirty paths, [ret_dirty]. *)
Lemma ret_dirty_run hash (found : bool) t2 :
  wf t2 →
  (BEESCOUNT "hash_insert";; set_extent_dirty hash;; mret found) t2 =
  Ok found
     (with_dirty ({[extent_of hash t2]} ∪ m_buckets_dirty t2)
        (with_stats (add_count "hash_insert" (s_global t2)) t2)).
Proof.
  intros Hwf. rewrite bind_eq; simpl.
  rewrite bind_eq, set_extent_dirty_ok by (by apply wf_with_stats).
  reflexivity.
Qed.

Lemma push_random_hash_addr_run pos hash addr t t1 :
  wf t → fetch_missing_extent hash t = Ok () t1 →
  pos < c_cells_per_bucket →
  let mv := mkCell hash addr in
  let cells := bucket_of hash t1 in
  let ip := std_find cells mv in
  push_random_hash_addr pos hash addr t =
  if bool_decide (ip < length cells) then
    if bool_decide (pos < ip) then
      Ok true (inserted hash (<[pos := mv]> (copy_backward_loop pos ip cells))
                        ["hash_insert"; "hash_bump"] t1)
    else Ok true (with_stats (add_count "hash_already" (s_global t1)) t1)
  else
    match scan_up (drop pos cells) with
    | Some k => Ok false (inserted hash (<[pos + k := mv]> cells)
                                   ["hash_insert"] t1)
    | None =>
        match (if bool_decide (0 < pos) then scan_down pos cells else None) with
        | Some ip => Ok false (inserted hash (<[ip := mv]> cells)
                                        ["hash_insert"] t1)
        | None =>
            Ok false
               (inserted hash
                  (<[pos := mv]>
                     (move_backward pos (length cells - 1) (length cells) cells))
                  ["hash_insert"; "hash_evict"] t1)
        end
    end.
Proof.
  intros Hwf Hf Hpos mv cells ip.
  destruct (fetch_missing_extent_post hash t t1 Hwf Hf) as (Hwf1 & _).
  pose proof (bucket_of_length hash t1 Hwf1) as Hlen. fold cells in Hlen.
  unfold push_random_hash_addr.
  rewrite (bind_Ok _ _ _ _ _ Hf).
  rewrite (bind_Ok _ _ _ _ _ (get_cell_range_ok hash t1 Hwf1)).
  rewrite bind_eq; simpl. fold (bucket_of hash t1). fold cells mv ip.
  destruct (bool_decide (ip < length cells)) eqn:Hfound.
  - destruct (bool_decide (pos < ip)) eqn:Hlt; [| reflexivity].
    rewrite bind_eq; simpl. rewrite bind_eq; simpl.
    rewrite ret_dirty_run; [reflexivity |].
    apply wf_with_stats, wf_store_bucket; [done |].
    by rewrite length_insert, copy_backward_loop_length.
  - destruct (scan_up (drop pos cells)) as [k|].
    { rewrite bind_eq; simpl.
      rewrite ret_dirty_run; [reflexivity |].
      apply wf_store_bucket; [done |]. by rewrite length_insert. }
    destruct (if bool_decide (0 < pos) then scan_down pos cells else None)
      as [ip'|].
    { rewrite bind_eq; simpl.
      rewrite ret_dirty_run; [reflexivity |].
      apply wf_store_bucket; [done |]. by rewrite length_insert. }
    rewrite bind_eq; simpl. rewrite bind_eq; simpl.
    rewrite ret_dirty_run; [reflexivity |].
    apply wf_with_stats, wf_store_bucket; [done |].
    rewrite length_insert, move_backward_length; lia.
Qed.

Lemma lookup_total_Some (cells : list Cell) i c :
  i < length cells → cells !!! i = c → cells !! i = Some c.
Proof. intros Hi <-. by apply list_lookup_lookup_total_lt. Qed.

(** C3.  With no cell equal to [(hash, addr)] and [pos] within the bucket,
    [push_random_hash_addr] returns false and marks the extent dirty, and
    the bucket changes in one cell only: the first empty cell at or after
    [pos] takes [(hash, addr)]; failing that, the first empty cell met going
    down from [pos - 1]; with no empty cell at all the cells from [pos] to
    the last are rotated right by one, the last cell is lost, and
    [(hash, addr)] is written at [pos] (one eviction is counted). *)
Theorem push_random_hash_addr_inserts_new pos hash addr t t1 :
  wf t → fetch_missing_extent hash t = Ok () t1 →
  pos < c_cells_per_bucket →
  let mv := mkCell hash addr in
  let cells := bucket_of hash t1 in
  mv ∉ cells →
  ∃ t',
    push_random_hash_addr pos hash addr t = Ok false t' ∧
    m_buckets_dirty t' = {[extent_of hash t]} ∪ m_buckets_dirty t ∧
    (∀ i, pos ≤ i → cells !! i = Some empty_cell →
          (∀ j, pos ≤ j < i → cells !! j ≠ Some empty_cell) →
          bucket_of hash t' = <[i := mv]> cells) ∧
    (∀ i, i < pos → cells !! i = Some empty_cell →
          (∀ j, i < j < c_cells_per_bucket → cells !! j ≠ Some empty_cell) →
          bucket_of hash t' = <[i := mv]> cells) ∧
    (empty_cell ∉ cells →
       bucket_of hash t' =
         <[pos := mv]> (rotate_right pos (c_cells_per_bucket - 1) cells) ∧
       counter "hash_evict" (s_global t') =
         S (counter "hash_evict" (s_global t1))).
Proof.
  intros Hwf Hf Hpos mv cells Hnew.
  destruct (fetch_missing_extent_post hash t t1 Hwf Hf)
    as (Hwf1 & Hb & Hd & _).
  pose proof (bucket_of_length hash t1 Hwf1) as Hlen. fold cells in Hlen.
  rewrite (push_random_hash_addr_run pos hash addr t t1 Hwf Hf Hpos).
  cbv zeta. fold cells mv.
  rewrite bool_decide_eq_false_2 by (by rewrite std_find_elem).
  assert (∀ newcells counts, length newcells = c_cells_per_bucket →
            m_buckets_dirty (inserted hash newcells counts t1)
            = {[extent_of hash t]} ∪ m_buckets_dirty t) as Hdirty.
  { intros. simpl. by rewrite Hd, (extent_of_same_buckets hash t t1 Hb). }
  destruct (scan_up (drop pos cells)) as [k|] eqn:Hup.
  { (* an empty cell at or after pos *)
    apply scan_up_Some in Hup as [Hk Hfirst]. rewrite lookup_drop in Hk.
    eexists. split; [reflexivity |].
    rewrite inserted_bucket by (by rewrite ?length_insert).
    split_and!.
    - apply Hdirty. by rewrite length_insert.
    - intros i Hi Hempty Hnone. f_equal.
      destruct (decide (pos + k < i)) as [Hlt|Hge].
      { destruct (Hnone (pos + k)); [lia | done]. }
      destruct (decide (i < pos + k)) as [Hlt|]; [| lia].
      destruct (Hfirst (i - pos)); [lia |].
      rewrite lookup_drop. by replace (pos + (i - pos)) with i by lia.
    - intros i Hi Hempty Hnone.
      apply lookup_lt_Some in Hk as Hklt.
      destruct (Hnone (pos + k)); [lia | done].
    - intros Hfull. destruct Hfull. apply list_elem_of_lookup. eauto. }
  apply scan_up_None in Hup.
  assert (∀ i, pos ≤ i → cells !! i ≠ Some empty_cell) as Hnoup.
  { intros i Hi Hempty. apply Hup, list_elem_of_lookup. exists (i - pos).
    rewrite lookup_drop. by replace (pos + (i - pos)) with i by lia. }
  destruct (if bool_decide (0 < pos) then scan_down pos cells else None)
    as [ip|] eqn:Hdown.
  { (* an empty cell below pos *)
    destruct (bool_decide (0 < pos)); [| done].
    apply scan_down_Some in Hdown as (Hip & Hempty & Hnone).
    apply lookup_total_Some in Hempty; [| lia].
    eexists. split; [reflexivity |].
    rewrite inserted_bucket by (by rewrite ?length_insert).
    split_and!.
    - apply Hdirty. by rewrite length_insert.
    - intros i Hi Hi' _. by destruct (Hnoup i).
    - intros i Hi Hi' Hnone'. f_equal.
      destruct (decide (ip < i)) as [Hlt|Hge].
      { destruct (Hnone i); [lia |]. by apply list_lookup_total_correct. }
      destruct (decide (i < ip)) as [Hlt|]; [| lia].
      destruct (Hnone' ip); [lia | done].
    - intros Hfull. destruct Hfull. apply list_elem_of_lookup. eauto. }
  (* the bucket is full: evict *)
  assert (∀ i, i < pos → cells !! i ≠ Some empty_cell) as Hnodown.
  { intros i Hi Hempty.
    rewrite bool_decide_eq_true_2 in Hdown by lia.
    apply (scan_down_None _ _ Hdown i Hi).
    by apply list_lookup_total_correct. }
  eexists. split; [reflexivity |].
  rewrite inserted_bucket
    by (done || (rewrite length_insert, move_backward_length; lia)).
  split_and!.
  - apply Hdirty. rewrite length_insert, move_backward_length; lia.
  - intros i Hi Hi' _. by destruct (Hnoup i).
  - intros i Hi Hi' _. by destruct (Hnodown i).
  - intros _. split.
    + replace (length cells) with (S (length cells - 1)) at 2 by lia.
      rewrite move_backward_copy_backward by lia.
      rewrite Hlen. apply insert_copy_backward_rotate; lia.
    + simpl. rewrite counter_add_count_ne by done.
      apply counter_add_count.
Qed.

(** C4, as amended.  When the first cell equal to [(hash, addr)] is at an
    offset [i] above [pos], [push_random_hash_addr] rotates the cells from
    [pos] to [i] right by one, which brings [(hash, addr)] to [pos], leaves
    the cells outside that range alone, marks the extent dirty and returns
    true. *)
Theorem push_random_hash_addr_bumps_first_match pos hash addr t t1 i :
  wf t → fetch_missing_extent hash t = Ok () t1 →
  pos < c_cells_per_bucket →
  let mv := mkCell hash addr in
  let cells := bucket_of hash t1 in
  cells !! i = Some mv →
  (∀ j, j < i → cells !! j ≠ Some mv) →
  pos < i →
  ∃ t',
    push_random_hash_addr pos hash addr t = Ok true t' ∧
    bucket_of hash t' = <[pos := mv]> (rotate_right pos i cells) ∧
    bucket_of hash t' = rotate_right pos i cells ∧
    bucket_of hash t' !! pos = Some mv ∧
    (∀ j, j < pos ∨ i < j → bucket_of hash t' !! j = cells !! j) ∧
    m_buckets_dirty t' = {[extent_of hash t]} ∪ m_buckets_dirty t.
Proof.
  intros Hwf Hf Hpos mv cells Hi Hfirst Hlt.
  destruct (fetch_missing_extent_post hash t t1 Hwf Hf)
    as (Hwf1 & Hb & Hd & _).
  pose proof (bucket_of_length hash t1 Hwf1) as Hlen. fold cells in Hlen.
  pose proof (lookup_lt_Some _ _ _ Hi) as Hilt.
  rewrite (push_random_hash_addr_run pos hash addr t t1 Hwf Hf Hpos).
  cbv zeta. fold cells mv.
  rewrite (std_find_first cells mv i Hi Hfirst).
  rewrite !bool_decide_eq_true_2 by lia.
  eexists. split; [reflexivity |].
  rewrite inserted_bucket
    by (done || by rewrite length_insert, copy_backward_loop_length).
  rewrite insert_copy_backward_rotate by lia.
  rewrite insert_rotate_right_id by (done || lia).
  split_and!; try done.
  - rewrite rotate_right_lookup by lia. by rewrite decide_True.
  - intros j Hj. rewrite rotate_right_lookup by lia.
    rewrite decide_False by lia. by rewrite decide_False by lia.
  - simpl. by rewrite Hd, (extent_of_same_buckets hash t t1 Hb).
Qed.

(** C5.  When some cell at an offset [i] not above [pos] equals
    [(hash, addr)], [push_random_hash_addr] returns true, leaves every cell
    as it was and does not touch the dirty set. *)
Theorem push_random_hash_addr_already_there pos hash addr t t1 i :
  wf t → fetch_missing_extent hash t = Ok () t1 →
  pos < c_cells_per_bucket →
  bucket_of hash t1 !! i = Some (mkCell hash addr) →
  i ≤ pos →
  ∃ t',
    push_random_hash_addr pos hash addr t = Ok true t' ∧
    m_cell_ptr t' = m_cell_ptr t1 ∧
    bucket_of hash t' = bucket_of hash t1 ∧
    m_buckets_dirty t' = m_buckets_dirty t.
Proof.
  intros Hwf Hf Hpos Hi Hle.
  destruct (fetch_missing_extent_post hash t t1 Hwf Hf)
    as (Hwf1 & Hb & Hd & _).
  rewrite (push_random_hash_addr_run pos hash addr t t1 Hwf Hf Hpos).
  cbv zeta.
  set (cells := bucket_of hash t1) in *. set (mv := mkCell hash addr) in *.
  assert (mv ∈ cells) as Hin by (apply list_elem_of_lookup; eauto).
  assert (std_find cells mv ≤ i) as Hfirst.
  { destruct (decide (i < std_find cells mv)) as [Hlt|]; [| lia].
    by destruct (std_find_before cells mv i Hlt). }
  rewrite bool_decide_eq_true_2 by (by apply std_find_elem).
  rewrite bool_decide_eq_false_2 by lia.
  eexists. split; [reflexivity |]. done.
Qed.

(** ** The verifier and the prefetch pass *)

Lemma magic_addr_spec c :
  magic_addr c = true ↔ e_addr c ≠ 0%Z ∧ (e_addr c < 0x1000)%Z.
Proof.
  unfold magic_addr. rewrite andb_true_iff, !bool_decide_eq_true. done.
Qed.

Lemma let_triple_flag {A B C : Type} (v : A * B * C) (f : A → A) :
  (let '(a, b, c) := v in (f a, b, c)).1.2 = v.1.2.
Proof. by destruct v as [[??]?]. Qed.

(** Without [clear_bugs] the loop writes no cell. *)
Lemma verify_cells_read_only cells seen_it bugs_found stats :
  (verify_cells false cells seen_it bugs_found stats).1.1 = cells.
Proof.
  revert seen_it bugs_found stats.
  induction cells as [|c rest IH]; intros seen_it bugs_found stats; [done |].
  simpl. destruct (magic_addr c); destruct (bool_decide (e_addr c ≠ 0%Z));
    try destruct (bool_decide (c ∈ seen_it));
    match goal with
    | |- context [verify_cells false rest ?s ?b ?st] =>
        specialize (IH s b st); destruct (verify_cells false rest s b st)
          as [[rest' b'] st']
    end; simpl in *; by rewrite IH.
Qed.

(** What the flag of the loop says: a bug was flagged before, or some cell
    of the range is not empty and has a reserved address, or is in
    [seen_it], or equals an earlier cell of the range. *)
Lemma verify_cells_flag cells seen_it bugs_found stats :
  (verify_cells false cells seen_it bugs_found stats).1.2 = true ↔
  bugs_found = true ∨
  ∃ i c, cells !! i = Some c ∧ e_addr c ≠ 0%Z ∧
         ((e_addr c < 0x1000)%Z ∨ c ∈ seen_it ∨
          ∃ j, j < i ∧ cells !! j = Some c).
Proof.
  revert seen_it bugs_found stats.
  induction cells as [|c0 rest IH]; intros seen_it bugs_found stats.
  { simpl. split; [by left | intros [? | (i & c & Hi & _)]; done]. }
  assert (∀ s b st (flag : bool),
    flag = (verify_cells false rest s b st).1.2 →
    ((b = true ∨
      ∃ i c, rest !! i = Some c ∧ e_addr c ≠ 0%Z ∧
             ((e_addr c < 0x1000)%Z ∨ c ∈ s ∨
              ∃ j, j < i ∧ rest !! j = Some c)) ↔
     (bugs_found = true ∨
      ∃ i c, (c0 :: rest) !! i = Some c ∧ e_addr c ≠ 0%Z ∧
             ((e_addr c < 0x1000)%Z ∨ c ∈ seen_it ∨
              ∃ j, j < i ∧ (c0 :: rest) !! j = Some c))) →
    flag = true ↔
    bugs_found = true ∨
    ∃ i c, (c0 :: rest) !! i = Some c ∧ e_addr c ≠ 0%Z ∧
           ((e_addr c < 0x1000)%Z ∨ c ∈ seen_it ∨
            ∃ j, j < i ∧ (c0 :: rest) !! j = Some c)) as Hstep.
  { intros s b st flag -> <-. apply IH. }
  (* a later cell seen against the set after the head *)
  assert (∀ (P : Prop) i c,
    rest !! i = Some c → e_addr c ≠ 0%Z →
    (P ↔ c = c0) →
    ((e_addr c < 0x1000)%Z ∨ (P ∨ c ∈ seen_it) ∨
       (∃ j, j < i ∧ rest !! j = Some c)) ↔
    ((e_addr c < 0x1000)%Z ∨ c ∈ seen_it ∨
       (∃ j, j < S i ∧ (c0 :: rest) !! j = Some c))) as Hlater.
  { intros P i c Hi Hc HP. split.
    - intros [? | [[?%HP | ?] | (j & Hj & Hcj)]]; [tauto | | tauto |].
      + right; right. exists 0. split; [lia | by subst].
      + right; right. exists (S j). split; [lia | done].
    - intros [? | [? | (j & Hj & Hcj)]]; [tauto | tauto |].
      destruct j as [|j]; simpl in Hcj.
      + right; left; left. apply HP. congruence.
      + right; right. exists j. split; [lia | done]. }
  simpl verify_cells at 1.
  destruct (magic_addr c0) eqn:Hmagic.
  - (* reserved address: flagged *)
    apply magic_addr_spec in Hmagic as [Hnz Hlow].
    rewrite (bool_decide_eq_true_2 (e_addr c0 ≠ 0%Z)) by done.
    assert (bugs_found = true ∨
      ∃ i c, (c0 :: rest) !! i = Some c ∧ e_addr c ≠ 0%Z ∧
             ((e_addr c < 0x1000)%Z ∨ c ∈ seen_it ∨
              ∃ j, j < i ∧ (c0 :: rest) !! j = Some c)) as Hbug.
    { right. exists 0, c0. split_and!; [done | done | by left]. }
    destruct (bool_decide (c0 ∈ seen_it)).
    + eapply Hstep.
      * apply (let_triple_flag _ (cons c0)).
      * split; [done | by left].
    + eapply Hstep.
      * apply (let_triple_flag _ (cons c0)).
      * split; [done | by left].
  - assert (¬ (e_addr c0 ≠ 0%Z ∧ (e_addr c0 < 0x1000)%Z)) as Hok
      by (rewrite <- magic_addr_spec; congruence).
    destruct (bool_decide (e_addr c0 ≠ 0%Z)) eqn:Hnz.
    + apply bool_decide_eq_true_1 in Hnz.
      destruct (bool_decide (c0 ∈ seen_it)) eqn:Hseen.
      * (* seen before: flagged *)
        apply bool_decide_eq_true_1 in Hseen.
        eapply Hstep.
        -- apply (let_triple_flag _ (cons c0)).
        -- split; [| by left]. intros _. right. exists 0, c0.
           split_and!; [done | done | by right; left].
      * (* a new cell: remembered *)
        apply bool_decide_eq_false_1 in Hseen.
        eapply Hstep.
        -- apply (let_triple_flag _ (cons c0)).
        -- split.
           ++ intros [? | (i & c & Hi & Hc & Hv)]; [by left |].
              right. exists (S i), c. split_and!; [done | done |].
              apply (Hlater (c ∈ ({[c0]} : gset Cell)) i c Hi Hc);
                [by rewrite elem_of_singleton |].
              by rewrite <- elem_of_union.
           ++ intros [? | (i & c & Hi & Hc & Hv)]; [by left |].
              destruct i as [|i]; simpl in Hi.
              { injection Hi as <-.
                destruct Hv as [? | [? | (j & Hj & _)]];
                  [tauto | done | lia]. }
              right. exists i, c. split_and!; [done | done |].
              rewrite elem_of_union.
              apply (Hlater (c ∈ ({[c0]} : gset Cell)) i c Hi Hc);
                [by rewrite elem_of_singleton | done].
    + (* an empty address: skipped *)
      apply bool_decide_eq_false_1 in Hnz.
      eapply Hstep.
      * apply (let_triple_flag _ (cons c0)).
      * split.
        -- intros [? | (i & c & Hi & Hc & Hv)]; [by left |].
           right. exists (S i), c. split_and!; [done | done |].
           destruct Hv as [? | [? | (j & Hj & Hcj)]]; [tauto | tauto |].
           right; right. exists (S j). split; [lia | done].
        -- intros [? | (i & c & Hi & Hc & Hv)]; [by left |].
           destruct i as [|i]; simpl in Hi.
           { injection Hi as <-. by destruct Hnz. }
           right. exists i, c. split_and!; [done | done |].
           destruct Hv as [? | [? | (j & Hj & Hcj)]]; [tauto | tauto |].
           destruct j as [|j]; simpl in Hcj.
           ++ injection Hcj as <-. by destruct Hnz.
           ++ right; right. exists j. split; [lia | done].
Qed.

Lemma let_triple_cells {A B C : Type} (v : list A * B * C) (a0 : A) :
  (let '(a, b, c) := v in (a0 :: a, b, c)).1.1 = a0 :: v.1.1.
Proof. by destruct v as [[??]?]. Qed.

(** With [clear_bugs] the loop zeroes exactly the cells that break an
    invariant (or are in [seen_it] already) and leaves the others. *)
Lemma verify_cells_clear_lookup cells seen_it bugs_found stats i c :
  cells !! i = Some c →
  let bad := e_addr c ≠ 0%Z ∧
             ((e_addr c < 0x1000)%Z ∨ c ∈ seen_it ∨
              ∃ j, j < i ∧ cells !! j = Some c) in
  (bad → (verify_cells true cells seen_it bugs_found stats).1.1 !! i
         = Some (mkCell 0 0)) ∧
  (¬ bad → (verify_cells true cells seen_it bugs_found stats).1.1 !! i
           = Some c).
Proof.
  revert seen_it bugs_found stats i.
  induction cells as [|c0 rest IH]; intros seen_it bugs_found stats i Hi;
    [done |].
  (* a later cell, judged against the set the head leaves *)
  assert (∀ s b st i',
    i = S i' →
    (c = c0 → e_addr c ≠ 0%Z → (e_addr c < 0x1000)%Z ∨ c ∈ s) →
    (∀ x, x ∈ s ↔ x ∈ seen_it ∨ (x = c0 ∧ x ∈ s)) →
    let bad := e_addr c ≠ 0%Z ∧
               ((e_addr c < 0x1000)%Z ∨ c ∈ seen_it ∨
                ∃ j, j < i ∧ (c0 :: rest) !! j = Some c) in
    (bad → (verify_cells true rest s b st).1.1 !! i' = Some (mkCell 0 0)) ∧
    (¬ bad → (verify_cells true rest s b st).1.1 !! i' = Some c)) as Hlater.
  { intros s b st i' -> Hhead Hs. simpl in Hi.
    destruct (IH s b st i' Hi) as [Hbad Hgood]. cbv zeta in *. split.
    - intros (Hnz & Hv). apply Hbad. split; [done |].
      destruct Hv as [? | [? | (j & Hj & Hcj)]];
        [tauto | right; left; apply Hs; tauto |].
      destruct j as [|j]; simpl in Hcj.
      + injection Hcj as <-. destruct (Hhead eq_refl Hnz); tauto.
      + right; right. exists j. split; [lia | done].
    - intros Hnot. apply Hgood. intros (Hnz & Hv). apply Hnot.
      split; [done |].
      destruct Hv as [? | [[? | [-> _]]%Hs | (j & Hj & Hcj)]];
        [tauto | tauto | |].
      + right; right. exists 0. split; [lia | done].
      + right; right. exists (S j). split; [lia | done]. }
  cbv zeta in *. simpl verify_cells.
  destruct (magic_addr c0) eqn:Hmagic.
  - (* reserved address: cleared, not remembered *)
    apply magic_addr_spec in Hmagic as [Hnz Hlow].
    simpl. rewrite let_triple_cells.
    destruct i as [|i']; simpl in *.
    + injection Hi as <-. split; [done |]. intros Hnot. destruct Hnot. tauto.
    + apply (Hlater _ _ _ i' eq_refl).
      * intros -> _. by left.
      * intros x. tauto.
  - assert (¬ (e_addr c0 ≠ 0%Z ∧ (e_addr c0 < 0x1000)%Z)) as Hok
      by (rewrite <- magic_addr_spec; congruence).
    destruct (bool_decide (e_addr c0 ≠ 0%Z)) eqn:Hnz.
    + apply bool_decide_eq_true_1 in Hnz.
      destruct (bool_decide (c0 ∈ seen_it)) eqn:Hseen.
      * (* seen before: cleared *)
        apply bool_decide_eq_true_1 in Hseen.
        rewrite let_triple_cells.
        destruct i as [|i']; simpl in *.
        -- injection Hi as <-. split; [done |].
           intros Hnot. destruct Hnot. tauto.
        -- apply (Hlater _ _ _ i' eq_refl).
           ++ intros -> _. by right.
           ++ intros x. tauto.
      * (* a new cell: kept and remembered *)
        apply bool_decide_eq_false_1 in Hseen.
        rewrite let_triple_cells.
        destruct i as [|i']; simpl in *.
        -- injection Hi as <-. split; [| done].
           intros (_ & [? | [? | (j & Hj & _)]]); [tauto | done | lia].
        -- apply (Hlater _ _ _ i' eq_refl).
           ++ intros -> _. right. apply elem_of_union. left.
              by apply elem_of_singleton.
           ++ intros x. rewrite elem_of_union, elem_of_singleton. tauto.
    + (* an empty address: skipped *)
      apply bool_decide_eq_false_1 in Hnz.
      rewrite let_triple_cells.
      destruct i as [|i']; simpl in *.
      * injection Hi as <-. split; [| done]. intros (? & _). tauto.
      * apply (Hlater _ _ _ i' eq_refl).
        -- intros -> Hc. tauto.
        -- intros x. tauto.
Qed.

(** Run from the start of a bucket, [clear_bugs] zeroes the violating
    cells and no other. *)
Lemma verify_cells_clears_violations cells stats i c :
  cells !! i = Some c →
  (violates cells i →
   (verify_cells true cells ∅ false stats).1.1 !! i = Some (mkCell 0 0)) ∧
  (¬ violates cells i →
   (verify_cells true cells ∅ false stats).1.1 !! i = Some c).
Proof.
  intros Hi.
  destruct (verify_cells_clear_lookup cells ∅ false stats i c Hi)
    as [Hbad Hgood].
  cbv zeta in *. split.
  - intros (c' & Hi' & Hnz & Hv). rewrite Hi in Hi'. injection Hi' as <-.
    apply Hbad. tauto.
  - intros Hnot. apply Hgood.
    intros (Hnz & [? | [?%not_elem_of_empty | ?]]); [| done |];
      apply Hnot; exists c; tauto.
Qed.

Lemma with_cells_same t : with_cells (m_cell_ptr t) t = t.
Proof. by destruct t. Qed.

Lemma same_but_stats_refl t : same_but_stats t t.
Proof. done. Qed.

Lemma same_but_stats_trans t1 t2 t3 :
  same_but_stats t1 t2 → same_but_stats t2 t3 → same_but_stats t1 t3.
Proof. unfold same_but_stats. congruence. Qed.

Lemma same_but_stats_with_stats s t : same_but_stats t (with_stats s t).
Proof. done. Qed.

Lemma same_but_stats_cells t t' :
  same_but_stats t t' → m_cell_ptr t' = m_cell_ptr t.
Proof.
  unfold same_but_stats. intros H.
  change (m_cell_ptr (with_stats ∅ t') = m_cell_ptr (with_stats ∅ t)).
  by rewrite H.
Qed.

(** Read-only verification of one range: the flag, and nothing but the
    counters changes. *)
Lemma verify_cell_range_read_only er t :
  er.1 ≤ er.2 →
  ∃ t', verify_cell_range er false t =
          Ok (verify_cells false (range_cells er (m_cell_ptr t)) ∅ false
                           (s_global t)).1.2 t' ∧
        same_but_stats t t'.
Proof.
  intros Hle. unfold verify_cell_range.
  rewrite bind_eq; simpl. rewrite bind_eq; simpl.
  pose proof (verify_cells_read_only (range_cells er (m_cell_ptr t)) ∅ false
                (s_global t)) as Hcells.
  destruct (verify_cells false _ _ _ _) as [[cells' flag] stats'].
  simpl in Hcells. subst cells'.
  eexists. split; [reflexivity |].
  destruct er as [lo hi]; simpl in *.
  rewrite store_range_id by done. by rewrite with_cells_same.
Qed.

Lemma verify_cells_flag_violates cells stats :
  (verify_cells false cells ∅ false stats).1.2 = true ↔
  ∃ i, violates cells i.
Proof.
  rewrite verify_cells_flag. unfold violates. split.
  - intros [? | (i & c & Hi & Hc & [? | [?%not_elem_of_empty | ?]])];
      try done; exists i, c; tauto.
  - intros (i & c & Hi & Hc & Hv). right. exists i, c. tauto.
Qed.

(** The bucket loop of the prefetch pass: it flags a bug exactly when a
    cell of one of its buckets breaks an invariant, and changes nothing
    but the counters. *)
Lemma analyze_buckets_read_only n bucket duplicate_bugs_found t :
  ∃ bugs t',
    analyze_buckets n bucket duplicate_bugs_found t = Ok bugs t' ∧
    same_but_stats t t' ∧
    (bugs = true ↔
     duplicate_bugs_found = true ∨
     ∃ k i, bucket ≤ k < bucket + n ∧
            violates (range_cells (k * c_cells_per_bucket,
                                   (k + 1) * c_cells_per_bucket)
                                  (m_cell_ptr t)) i).
Proof.
  revert bucket duplicate_bugs_found t.
  induction n as [|n IH]; intros bucket dup t.
  { exists dup, t. split_and!; [done | done |].
    split; [by left | intros [? | (k & i & Hk & _)]; [done | lia]]. }
  simpl. unfold VERIFY_CLEARS_BUGS.
  destruct (verify_cell_range_read_only
              (bucket * c_cells_per_bucket, (bucket + 1) * c_cells_per_bucket) t)
    as (t1 & Hv & Hsame1); [simpl; lia |].
  rewrite (bind_Ok _ _ _ _ _ Hv).
  destruct (IH (bucket + 1)
              (if (verify_cells false
                     (range_cells (bucket * c_cells_per_bucket,
                                   (bucket + 1) * c_cells_per_bucket)
                                  (m_cell_ptr t)) ∅ false (s_global t)).1.2
               then true else dup) t1)
    as (bugs & t' & Hrun & Hsame2 & Hflag).
  exists bugs, t'. split_and!; [done | by eapply same_but_stats_trans |].
  rewrite Hflag, (same_but_stats_cells t t1 Hsame1). clear Hflag Hrun.
  pose proof (verify_cells_flag_violates
                (range_cells (bucket * c_cells_per_bucket,
                              (bucket + 1) * c_cells_per_bucket)
                             (m_cell_ptr t)) (s_global t)) as Hhere.
  destruct (verify_cells false _ _ _ _).1.2.
  - split; [| by left]. intros _. right.
    destruct Hhere as [(i & Hi) _]; [done |].
    exists bucket, i. split; [lia | done].
  - split.
    + intros [? | (k & i & Hk & Hi)]; [by left |].
      right. exists k, i. split; [lia | done].
    + intros [? | (k & i & Hk & Hi)]; [by left |].
      destruct (decide (k = bucket)) as [->|Hne].
      * destruct Hhere as [_ Hhere].
        assert (false = true) by (apply Hhere; by exists i). done.
      * right. exists k, i. split; [lia | done].
Qed.

(** [set_extent_dirty] writes the dirty set only. *)
Lemma set_extent_dirty_frame hash t :
  (∃ d, set_extent_dirty hash t = Ok () (with_dirty d t)) ∨
  set_extent_dirty hash t = Throw t.
Proof.
  cbv [set_extent_dirty get_extent_range mbind M_bind mret M_ret get modify
       THROW_CHECK throw].
  destruct (decide (0 < m_buckets t)) as [Hb|Hb];
    [rewrite !(bool_decide_eq_true_2 (0 < m_buckets t)) by done
    |rewrite !(bool_decide_eq_false_2 (0 < m_buckets t)) by done;
     right; reflexivity].
  rewrite (bool_decide_eq_true_2 (0 ≤ _)) by lia.
  match goal with
  | |- context [bool_decide (?a ≤ length ?l)] =>
      destruct (bool_decide (a ≤ length l)); [| right; reflexivity]
  end.
  match goal with
  | |- context [bool_decide (?a < m_extents ?u)] =>
      destruct (bool_decide (a < m_extents u)); [| right; reflexivity]
  end.
  left. eexists. reflexivity.
Qed.

(** C1, as amended.  The prefetch pass runs the verifier read-only
    ([VERIFY_CLEARS_BUGS] is false): over the buckets of an extent it has
    paged in, the scan flags a bug exactly when some cell breaks a
    structural invariant (not empty, and its address below 0x1000 or equal
    to an earlier cell of its bucket), and the pass leaves every cell of
    the region, the broken ones included, as the page-in left it. *)
Theorem prefetch_extent_flags_without_clearing ext t t1 :
  fetch_missing_extent (Z.of_nat (ext * c_buckets_per_extent)) t = Ok () t1 →
  ∃ bugs t2 t',
    analyze_buckets c_buckets_per_extent (ext * c_buckets_per_extent) false t1
      = Ok bugs t2 ∧
    (bugs = true ↔
     ∃ k i, ext * c_buckets_per_extent ≤ k
              < ext * c_buckets_per_extent + c_buckets_per_extent ∧
            violates (range_cells (k * c_cells_per_bucket,
                                   (k + 1) * c_cells_per_bucket)
                                  (m_cell_ptr t1)) i) ∧
    m_cell_ptr t2 = m_cell_ptr t1 ∧
    prefetch_extent ext t = Ok () t' ∧
    m_cell_ptr t' = m_cell_ptr t1.
Proof.
  intros Hf.
  destruct (analyze_buckets_read_only c_buckets_per_extent
              (ext * c_buckets_per_extent) false t1)
    as (bugs & t2 & Hrun & Hsame & Hflag).
  pose proof (same_but_stats_cells t1 t2 Hsame) as Hcells.
  assert (∃ t', prefetch_extent ext t = Ok () t' ∧
                m_cell_ptr t' = m_cell_ptr t2) as (t' & Hp & Hc).
  { unfold prefetch_extent, catch_all.
    rewrite (bind_Ok _ _ _ _ _ Hf), (bind_Ok _ _ _ _ _ Hrun).
    destruct bugs.
    - destruct (set_extent_dirty_frame (Z.of_nat ext) t2) as [[d ->] | ->];
        by eexists.
    - by eexists. }
  exists bugs, t2, t'. split_and!; try done.
  - rewrite Hflag. split; [intros [? | ?]; done | by right].
  - by rewrite Hc.
Qed.

(** ** Dirty extents are loaded extents

    The index operations page the extent in before they mark it dirty, and
    write-back empties the dirty set: each keeps the dirty and the missing
    extents apart. *)

Lemma dirty_loaded_mark (D Mi : gset nat) e :
  D ∩ Mi = ∅ → ({[e]} ∪ D) ∩ (Mi ∖ {[e]}) = ∅.
Proof.
  intros H. apply set_eq. intros x.
  rewrite elem_of_intersection, elem_of_union, elem_of_difference,
    elem_of_singleton.
  split; [| by intros ?%not_elem_of_empty].
  intros [[-> | Hx] [Hm Hne]]; [done |].
  exfalso. eapply (not_elem_of_empty (C := gset nat)). rewrite <- H.
  apply elem_of_intersection. eauto.
Qed.

Lemma dirty_loaded_remove (D Mi : gset nat) e :
  D ∩ Mi = ∅ → D ∩ (Mi ∖ {[e]}) = ∅.
Proof.
  intros H. apply set_eq. intros x.
  rewrite elem_of_intersection, elem_of_difference.
  split; [| by intros ?%not_elem_of_empty].
  intros [Hx [Hm Hne]].
  exfalso. eapply (not_elem_of_empty (C := gset nat)). rewrite <- H.
  apply elem_of_intersection. eauto.
Qed.

Lemma dirty_loaded_after_fetch hash t t1 t' :
  wf t → dirty_loaded t → fetch_missing_extent hash t = Ok () t1 →
  m_buckets_missing t' = m_buckets_missing t1 →
  (m_buckets_dirty t' = m_buckets_dirty t1 ∨
   m_buckets_dirty t' = {[extent_of hash t1]} ∪ m_buckets_dirty t1) →
  dirty_loaded t'.
Proof.
  intros Hwf Hinv Hf Hm Hd.
  destruct (fetch_missing_extent_post hash t t1 Hwf Hf)
    as (Hwf1 & Hb & Hd1 & _ & Hm1 & _).
  unfold dirty_loaded in *. rewrite Hm, Hm1.
  destruct Hd as [-> | ->]; rewrite Hd1.
  - by apply dirty_loaded_remove.
  - rewrite (extent_of_same_buckets hash t t1 Hb). by apply dirty_loaded_mark.
Qed.

Lemma find_cell_keeps_dirty_loaded hash t :
  wf t → dirty_loaded t → dirty_loaded (state_of (find_cell hash t)).
Proof.
  intros Hwf Hinv.
  destruct (decide (hash ∈ m_toxic_hashes t)) as [Htox|Htox].
  { unfold find_cell. rewrite bind_eq; simpl.
    unfold is_toxic_hash. by rewrite bool_decide_eq_true_2 by done. }
  destruct (fetch_missing_extent hash t) as [[] t1|t1] eqn:Hf.
  - rewrite (find_cell_run hash t t1 Hwf Htox Hf). simpl.
    eapply (dirty_loaded_after_fetch hash t t1); eauto.
  - unfold find_cell. rewrite bind_eq; simpl.
    unfold is_toxic_hash. rewrite bool_decide_eq_false_2 by done.
    rewrite (bind_Throw _ _ _ _ Hf). simpl.
    by rewrite (fetch_missing_extent_Throw hash t t1 Hwf Hf).
Qed.

Lemma erase_hash_addr_keeps_dirty_loaded hash addr t :
  wf t → dirty_loaded t → dirty_loaded (state_of (erase_hash_addr hash addr t)).
Proof.
  intros Hwf Hinv.
  destruct (fetch_missing_extent hash t) as [[] t1|t1] eqn:Hf.
  - rewrite (erase_hash_addr_run hash addr t t1 Hwf Hf). cbv zeta. simpl.
    eapply (dirty_loaded_after_fetch hash t t1); eauto;
      destruct (bool_decide _); simpl; eauto.
  - unfold erase_hash_addr. rewrite (bind_Throw _ _ _ _ Hf). simpl.
    by rewrite (fetch_missing_extent_Throw hash t t1 Hwf Hf).
Qed.

Lemma push_front_hash_addr_keeps_dirty_loaded hash addr t :
  wf t → dirty_loaded t →
  dirty_loaded (state_of (push_front_hash_addr hash addr t)).
Proof.
  intros Hwf Hinv.
  destruct (fetch_missing_extent hash t) as [[] t1|t1] eqn:Hf.
  - destruct (push_front_hash_addr_run hash addr t t1 Hwf Hf)
      as (t' & -> & _ & _ & Hm & Hd). simpl.
    by eapply (dirty_loaded_after_fetch hash t t1).
  - unfold push_front_hash_addr. rewrite (bind_Throw _ _ _ _ Hf). simpl.
    by rewrite (fetch_missing_extent_Throw hash t t1 Hwf Hf).
Qed.

Lemma push_random_hash_addr_keeps_dirty_loaded pos hash addr t :
  wf t → pos < c_cells_per_bucket → dirty_loaded t →
  dirty_loaded (state_of (push_random_hash_addr pos hash addr t)).
Proof.
  intros Hwf Hpos Hinv.
  destruct (fetch_missing_extent hash t) as [[] t1|t1] eqn:Hf.
  - rewrite (push_random_hash_addr_run pos hash addr t t1 Hwf Hf Hpos).
    cbv zeta.
    repeat match goal with
           | |- context [if ?b then _ else _] => destruct b
           | |- context [match ?o with Some _ => _ | None => _ end] =>
               destruct o
           end; simpl;
      eapply (dirty_loaded_after_fetch hash t t1); eauto.
  - unfold push_random_hash_addr. rewrite (bind_Throw _ _ _ _ Hf). simpl.
    by rewrite (fetch_missing_extent_Throw hash t t1 Hwf Hf).
Qed.

(** One extent written back: the sets and the region stay. *)
Lemma flush_extent_frame extent_number t :
  ∃ t',
    catch_all (
      t ← get;
      let dirty_extent := extent_number * cells_per_extent in
      let dirty_extent_end := (extent_number + 1) * cells_per_extent in
      THROW_CHECK (bool_decide (0 ≤ dirty_extent));;
      THROW_CHECK (bool_decide (dirty_extent_end ≤ length (m_cell_ptr t)));;
      extent_copy ← read_range (dirty_extent, dirty_extent_end);
      pwrite_or_die extent_number extent_copy;;
      BEESCOUNT "hash_extent_out") t = Ok () t' ∧
    m_buckets_dirty t' = m_buckets_dirty t ∧
    m_buckets_missing t' = m_buckets_missing t ∧
    m_cell_ptr t' = m_cell_ptr t.
Proof.
  cbv [catch_all mbind M_bind mret M_ret get modify THROW_CHECK throw
       read_range pwrite_or_die BEESCOUNT].
  rewrite (bool_decide_eq_true_2 (0 ≤ _)) by lia.
  match goal with
  | |- context [bool_decide (?a ≤ length ?l)] =>
      destruct (bool_decide (a ≤ length l))
  end; by eexists.
Qed.

Lemma flush_loop_frame (l : list nat) t :
  ∃ t',
    for_each l (λ extent_number,
      catch_all (
        t ← get;
        let dirty_extent := extent_number * cells_per_extent in
        let dirty_extent_end := (extent_number + 1) * cells_per_extent in
        THROW_CHECK (bool_decide (0 ≤ dirty_extent));;
        THROW_CHECK (bool_decide (dirty_extent_end ≤ length (m_cell_ptr t)));;
        extent_copy ← read_range (dirty_extent, dirty_extent_end);
        pwrite_or_die extent_number extent_copy;;
        BEESCOUNT "hash_extent_out")) t = Ok () t' ∧
    m_buckets_dirty t' = m_buckets_dirty t ∧
    m_buckets_missing t' = m_buckets_missing t ∧
    m_cell_ptr t' = m_cell_ptr t.
Proof.
  revert t. induction l as [|e l IH]; intros t; [by exists t |].
  simpl. destruct (flush_extent_frame e t) as (t1 & H1 & Hd1 & Hm1 & Hc1).
  rewrite (bind_Ok _ _ _ _ _ H1).
  destruct (IH t1) as (t' & H' & Hd & Hm & Hc).
  exists t'. split_and!;
    [exact H' | by rewrite Hd | by rewrite Hm | by rewrite Hc].
Qed.

(** Write-back returns with an empty dirty set; it writes neither the
    missing set nor the region. *)
Lemma flush_dirty_extents_clears t :
  0 < m_buckets t →
  ∃ t', flush_dirty_extents t = Ok () t' ∧
        m_buckets_dirty t' = ∅ ∧
        m_buckets_missing t' = m_buckets_missing t ∧
        m_cell_ptr t' = m_cell_ptr t.
Proof.
  intros Hb. unfold flush_dirty_extents.
  rewrite bind_eq; simpl.
  rewrite bind_eq, bool_decide_eq_true_2 by done. simpl.
  rewrite bind_eq; simpl.
  destruct (flush_loop_frame (elements (m_buckets_dirty t)) (with_dirty ∅ t))
    as (t' & H' & Hd & Hm & Hc).
  exists t'. split_and!; done.
Qed.

Lemma flush_dirty_extents_keeps_dirty_loaded t :
  0 < m_buckets t → dirty_loaded (state_of (flush_dirty_extents t)).
Proof.
  intros Hb. destruct (flush_dirty_extents_clears t Hb) as (t' & -> & Hd & _).
  unfold dirty_loaded; simpl. rewrite Hd. apply intersection_empty_l_L.
Qed.

Lemma BeesHashTable_ctor_dirty_loaded extents fd toxic :
  dirty_loaded (BeesHashTable_ctor extents fd toxic).
Proof. unfold dirty_loaded; simpl. apply intersection_empty_l_L. Qed.

(** ** Which extent the prefetch pass marks

    The pass pages in the extent of hash [ext * c_buckets_per_extent], which
    is extent [ext], but hands [ext] itself to [set_extent_dirty], which
    takes a hash: the extent marked is [ext / c_buckets_per_extent]. *)

Lemma same_but_stats_wf t t' : same_but_stats t t' → wf t → wf t'.
Proof.
  unfold same_but_stats, wf. intros H.
  change (m_buckets t) with (m_buckets (with_stats ∅ t)).
  change (m_extents t) with (m_extents (with_stats ∅ t)).
  change (m_cell_ptr t) with (m_cell_ptr (with_stats ∅ t)).
  rewrite H. done.
Qed.

Lemma same_but_stats_dirty t t' :
  same_but_stats t t' → m_buckets_dirty t' = m_buckets_dirty t.
Proof.
  unfold same_but_stats. intros H.
  change (m_buckets_dirty (with_stats ∅ t') = m_buckets_dirty (with_stats ∅ t)).
  by rewrite H.
Qed.

Lemma same_but_stats_buckets t t' :
  same_but_stats t t' → m_buckets t' = m_buckets t.
Proof.
  unfold same_but_stats. intros H.
  change (m_buckets (with_stats ∅ t') = m_buckets (with_stats ∅ t)).
  by rewrite H.
Qed.

Lemma extent_of_bucket_hash ext t :
  wf t → ext < m_extents t →
  extent_of (Z.of_nat (ext * c_buckets_per_extent)) t = ext.
Proof.
  intros Hwf He. pose proof (wf_buckets_per_extent t Hwf).
  destruct Hwf as (? & Hb & Hm & ?). unfold extent_of, bucket_index.
  rewrite Z.mod_small.
  - rewrite Nat2Z.id. apply Nat.div_mul. lia.
  - split; [lia |]. rewrite Hm. apply inj_lt.
    apply Nat.mul_lt_mono_pos_r; lia.
Qed.

Lemma extent_of_extent_number ext t :
  wf t → ext < m_extents t →
  extent_of (Z.of_nat ext) t = ext / c_buckets_per_extent.
Proof.
  intros Hwf He. pose proof (wf_buckets_per_extent t Hwf).
  destruct Hwf as (? & Hb & Hm & ?). unfold extent_of, bucket_index.
  rewrite Z.mod_small.
  - by rewrite Nat2Z.id.
  - split; [lia |]. rewrite Hm. apply inj_lt.
    destruct c_buckets_per_extent; [lia |]. nia.
Qed.

Lemma prefetch_extent_marks ext t t1 k i :
  wf t → ext < m_extents t →
  fetch_missing_extent (Z.of_nat (ext * c_buckets_per_extent)) t = Ok () t1 →
  ext * c_buckets_per_extent ≤ k
    < ext * c_buckets_per_extent + c_buckets_per_extent →
  violates (range_cells (k * c_cells_per_bucket, (k + 1) * c_cells_per_bucket)
                        (m_cell_ptr t1)) i →
  (ext ∉ m_buckets_missing (state_of (prefetch_extent ext t))) ∧
  m_buckets_dirty (state_of (prefetch_extent ext t)) =
    {[ext / c_buckets_per_extent]} ∪ m_buckets_dirty t.
Proof.
  intros Hwf He Hf Hk Hv.
  destruct (fetch_missing_extent_post _ t t1 Hwf Hf)
    as (Hwf1 & Hb1 & Hd1 & _ & Hm1 & _).
  rewrite (extent_of_bucket_hash ext t Hwf He) in Hm1.
  destruct (analyze_buckets_read_only c_buckets_per_extent
              (ext * c_buckets_per_extent) false t1)
    as (bugs & t2 & Hrun & Hsame & Hflag).
  assert (bugs = true) as -> by (apply Hflag; right; eauto).
  pose proof (same_but_stats_wf t1 t2 Hsame Hwf1) as Hwf2.
  unfold prefetch_extent, catch_all.
  rewrite (bind_Ok _ _ _ _ _ Hf), (bind_Ok _ _ _ _ _ Hrun).
  rewrite (set_extent_dirty_ok (Z.of_nat ext) t2 Hwf2). simpl.
  assert (m_extents t2 = m_extents t) as He2.
  { destruct Hwf as (_ & _ & Hm & _), Hwf2 as (_ & _ & Hm2 & _).
    pose proof (wf_buckets_per_extent t1 Hwf1).
    rewrite (same_but_stats_buckets t1 t2 Hsame), Hb1, Hm in Hm2.
    apply Nat.mul_cancel_r in Hm2; lia. }
  rewrite (extent_of_extent_number ext t2 Hwf2) by lia.
  rewrite (same_but_stats_dirty t1 t2 Hsame), Hd1. split; [| done].
  assert (m_buckets_missing t2 = m_buckets_missing t1) as ->.
  { unfold same_but_stats in Hsame.
    change (m_buckets_missing (with_stats ∅ t2)
            = m_buckets_missing (with_stats ∅ t1)).
    by rewrite Hsame. }
  rewrite Hm1. apply not_elem_of_remove.
Qed.

(** ** Buckets that verify clean *)

Lemma clean_cons c cells :
  clean (c :: cells) ↔
  accepted_addr (e_addr c) ∧ (e_addr c ≠ 0%Z → c ∉ cells) ∧ clean cells.
Proof.
  unfold clean, violates, accepted_addr. split.
  - intros Hclean. split_and!.
    + destruct (decide (e_addr c = 0%Z)) as [|Hnz]; [by left |].
      destruct (decide (e_addr c < 0x1000)%Z) as [Hlow|]; [| right; lia].
      destruct (Hclean 0). exists c. split_and!; [done | done | by left].
    + intros Hnz [j Hj]%list_elem_of_lookup.
      apply (Hclean (S j)). exists c. split_and!; [done | done |].
      right. exists 0. split; [lia | done].
    + intros i (c' & Hi & Hnz & Hv). apply (Hclean (S i)).
      exists c'. split_and!; [done | done |].
      destruct Hv as [? | (j & Hj & Hcj)]; [by left |].
      right. exists (S j). split; [lia | done].
  - intros (Hok & Hnew & Hclean) [|i] (c' & Hi & Hnz & Hv); simpl in Hi.
    + injection Hi as <-. destruct Hv as [? | (j & Hj & _)]; [| lia].
      destruct Hok; lia.
    + apply (Hclean i). exists c'. split_and!; [done | done |].
      destruct Hv as [? | (j & Hj & Hcj)]; [by left |].
      destruct j as [|j]; simpl in Hcj.
      * injection Hcj as ->. destruct (Hnew Hnz).
        apply list_elem_of_lookup. eauto.
      * right. exists j. split; [lia | done].
Qed.

(** The same, without offsets: every address is accepted and the cells
    with a non-zero address are pairwise different. *)
Lemma clean_alt cells :
  clean cells ↔
  Forall (λ c, accepted_addr (e_addr c)) cells ∧
  NoDup (filter (λ c, e_addr c ≠ 0%Z) cells).
Proof.
  induction cells as [|c cells IH].
  - split; [intros _; split; constructor |].
    intros _ i (c & Hi & _). done.
  - rewrite clean_cons, IH, Forall_cons.
    destruct (decide (e_addr c ≠ 0%Z)) as [Hnz|Hz].
    + rewrite filter_cons_True by done.
      rewrite NoDup_cons, list_elem_of_filter. tauto.
    + rewrite filter_cons_False by done. tauto.
Qed.

Lemma clean_Permutation cells cells' :
  cells ≡ₚ cells' → clean cells → clean cells'.
Proof. rewrite !clean_alt. by intros ->. Qed.

Lemma elem_of_delete_inv (cells : list Cell) i x :
  x ∈ delete i cells → x ∈ cells.
Proof. intros Hx. eapply elem_of_sublist; [done | apply sublist_delete]. Qed.

Lemma clean_delete cells i : clean cells → clean (delete i cells).
Proof.
  intros Hclean. destruct (cells !! i) as [x|] eqn:Hi.
  - apply (clean_Permutation _ _ (delete_Permutation _ _ _ Hi)) in Hclean.
    by apply clean_cons in Hclean as (_ & _ & ?).
  - apply lookup_ge_None in Hi.
    rewrite delete_take_drop, drop_ge, app_nil_r, take_ge by lia. done.
Qed.

(** A new accepted cell in front of what is left after one cell goes. *)
Lemma clean_cons_delete cells i mv :
  clean cells → accepted_addr (e_addr mv) →
  (cells !! i = Some mv ∨ mv ∉ cells) →
  clean (mv :: delete i cells).
Proof.
  intros Hclean Hok Hmv. apply clean_cons. split_and!; [done | |].
  - intros Hnz. destruct Hmv as [Hi | Hnew].
    + apply (clean_Permutation _ _ (delete_Permutation _ _ _ Hi)) in Hclean.
      apply clean_cons in Hclean as (_ & Hnot & _). by apply Hnot.
    + intros Hin. by apply Hnew, (elem_of_delete_inv _ i).
  - by apply clean_delete.
Qed.

(** A range is clean exactly when the read-only verifier flags nothing. *)
Lemma clean_verify cells stats :
  clean cells ↔ (verify_cells false cells ∅ false stats).1.2 = false.
Proof.
  pose proof (verify_cells_flag_violates cells stats) as Hflag.
  unfold clean. destruct (verify_cells false cells ∅ false stats).1.2.
  - split; [| done]. intros Hclean.
    destruct Hflag as [(i & Hi) _]; [done |]. by destruct (Hclean i).
  - split; [done |]. intros _ i Hi.
    destruct Hflag as [_ Hflag]. by assert (false = true) by eauto.
Qed.

(** The write at [lo] after the rotation of [lo .. hi], cell by cell. *)
Lemma insert_rotate_right_take_drop lo hi (cells : list Cell) x :
  lo ≤ hi → hi < length cells →
  <[lo := x]> (rotate_right lo hi cells) =
  take lo cells ++ x :: take (hi - lo) (drop lo cells) ++ drop (S hi) cells.
Proof.
  intros Hle Hhi. unfold rotate_right.
  rewrite insert_app_r_alt by (rewrite length_take; lia).
  rewrite length_take. replace (lo - lo `min` length cells) with 0 by lia.
  done.
Qed.

(** As a bag of cells, it is [x] and the old cells but the one at [hi]. *)
Lemma insert_rotate_right_Permutation lo hi (cells : list Cell) x :
  lo ≤ hi → hi < length cells →
  <[lo := x]> (rotate_right lo hi cells) ≡ₚ x :: delete hi cells.
Proof.
  intros Hle Hhi. rewrite insert_rotate_right_take_drop by done.
  rewrite <- Permutation_middle. constructor.
  rewrite app_assoc, take_take_drop, delete_take_drop.
  by replace (lo + (hi - lo)) with hi by lia.
Qed.

Lemma insert_Permutation (cells : list Cell) i x :
  i < length cells → <[i := x]> cells ≡ₚ x :: delete i cells.
Proof.
  intros Hi. rewrite insert_take_drop, delete_take_drop by done.
  by rewrite <- Permutation_middle.
Qed.

(** ** The verifier with [clear_bugs] *)

Lemma verify_cells_length clear_bugs cells seen_it bugs_found stats :
  length (verify_cells clear_bugs cells seen_it bugs_found stats).1.1
  = length cells.
Proof.
  revert seen_it bugs_found stats.
  induction cells as [|c rest IH]; intros seen_it bugs_found stats; [done |].
  simpl. destruct (magic_addr c), clear_bugs; simpl;
    repeat (destruct (bool_decide _); simpl);
    rewrite let_triple_cells; simpl; by rewrite IH.
Qed.

(** X1.  Called with [clear_bugs], the verifier keeps the length of the
    range, sets to [Cell(0, 0)] every cell that breaks an invariant (not
    empty, and its address below 0x1000 or equal to an earlier cell of the
    range) and leaves every other cell as it is. *)
Theorem verify_cells_clear_bugs_zeroes_violations cells stats :
  length (verify_cells true cells ∅ false stats).1.1 = length cells ∧
  ∀ i c, cells !! i = Some c →
    (violates cells i →
     (verify_cells true cells ∅ false stats).1.1 !! i = Some (mkCell 0 0)) ∧
    (¬ violates cells i →
     (verify_cells true cells ∅ false stats).1.1 !! i = Some c).
Proof.
  split; [apply verify_cells_length |].
  intros i c Hi. by apply verify_cells_clears_violations.
Qed.

(** X2.  What the verifier leaves when called with [clear_bugs] verifies
    clean: no cell of the result breaks an invariant, so a read-only
    verification of it flags nothing. *)
Theorem verify_cells_clear_bugs_leaves_clean cells stats stats' :
  clean (verify_cells true cells ∅ false stats).1.1 ∧
  (verify_cells false (verify_cells true cells ∅ false stats).1.1
                ∅ false stats').1.2 = false.
Proof.
  assert (clean (verify_cells true cells ∅ false stats).1.1) as Hclean.
  { set (out := (verify_cells true cells ∅ false stats).1.1).
    assert (∀ j c, out !! j = Some c → e_addr c ≠ 0%Z →
                   cells !! j = Some c ∧ ¬ violates cells j) as Hkept.
    { intros j c Hj Hnz.
      assert (j < length cells) as Hlt.
      { apply lookup_lt_Some in Hj. unfold out in Hj.
        by rewrite verify_cells_length in Hj. }
      destruct (lookup_lt_is_Some_2 cells j Hlt) as [c0 Hc0].
      destruct (verify_cells_clears_violations cells stats j c0 Hc0)
        as [Hbad Hgood].
      assert (¬ violates cells j) as Hnot.
      { intros Hv. apply Hbad in Hv. fold out in Hv.
        rewrite Hj in Hv. injection Hv as ->. by destruct Hnz. }
      split; [| done]. apply Hgood in Hnot. fold out in Hnot. congruence. }
    intros i (c & Hi & Hnz & Hv).
    destruct (Hkept i c Hi Hnz) as [Hci Hnot]. apply Hnot.
    exists c. split_and!; [done | done |].
    destruct Hv as [? | (j & Hj & Hcj)]; [by left |].
    right. exists j. split; [done |]. by apply (Hkept j c Hcj Hnz). }
  split; [done | by apply clean_verify].
Qed.

Lemma verify_cells_flag_stays clear_bugs cells seen_it stats :
  (verify_cells clear_bugs cells seen_it true stats).1.2 = true.
Proof.
  revert seen_it stats.
  induction cells as [|c rest IH]; intros seen_it stats; [done |].
  simpl. destruct (magic_addr c), clear_bugs; simpl;
    repeat (destruct (bool_decide _); simpl);
    rewrite let_triple_flag; apply IH.
Qed.

Lemma verify_cells_flag_clear_bugs cells seenT seenF bugs_found statsT statsF :
  (∀ x, magic_addr x = false → e_addr x ≠ 0%Z → x ∈ seenT ↔ x ∈ seenF) →
  (verify_cells true cells seenT bugs_found statsT).1.2 =
  (verify_cells false cells seenF bugs_found statsF).1.2.
Proof.
  revert seenT seenF bugs_found statsT statsF.
  induction cells as [|c rest IH];
    intros seenT seenF bugs_found statsT statsF Hseen; [done |].
  simpl. destruct (magic_addr c) eqn:Hmagic.
  - (* reserved address: both flag it *)
    apply magic_addr_spec in Hmagic as [Hnz Hlow]. simpl.
    rewrite (bool_decide_eq_true_2 (e_addr c ≠ 0%Z)) by done.
    rewrite !let_triple_flag, verify_cells_flag_stays.
    destruct (bool_decide (c ∈ seenF));
      by rewrite let_triple_flag, verify_cells_flag_stays.
  - destruct (bool_decide (e_addr c ≠ 0%Z)) eqn:Hnz.
    + apply bool_decide_eq_true_1 in Hnz.
      rewrite (bool_decide_ext (c ∈ seenT) (c ∈ seenF)) by (by apply Hseen).
      destruct (bool_decide (c ∈ seenF)).
      * by rewrite !let_triple_flag, !verify_cells_flag_stays.
      * rewrite !let_triple_flag. apply IH.
        intros x Hx Hxnz. rewrite !elem_of_union, (Hseen x Hx Hxnz). done.
    + rewrite !let_triple_flag. by apply IH.
Qed.

(** X3.  [clear_bugs] changes what the verifier writes, not what it
    returns: on the same range both modes return the same flag. *)
Theorem verify_cells_same_flag_in_both_modes cells statsT statsF :
  (verify_cells true cells ∅ false statsT).1.2 =
  (verify_cells false cells ∅ false statsF).1.2.
Proof. by apply verify_cells_flag_clear_bugs. Qed.

(** ** What an index operation touches *)

Lemma range_store_disjoint lo hi (cells mem : list Cell) a b :
  lo ≤ hi → hi ≤ length mem → length cells = hi - lo →
  b ≤ lo ∨ hi ≤ a →
  range_cells (a, b) (store_range (lo, hi) cells mem) = range_cells (a, b) mem.
Proof.
  intros Hle Hhi Hlen Hab. unfold range_cells; simpl.
  apply list_eq. intros i. rewrite !lookup_take, !lookup_drop.
  case_decide; [| done].
  apply store_range_lookup_outside; lia.
Qed.

Lemma bucket_ranges_disjoint hash hash' t :
  bucket_index hash' t ≠ bucket_index hash t →
  (bucket_range hash' t).2 ≤ (bucket_range hash t).1 ∨
  (bucket_range hash t).2 ≤ (bucket_range hash' t).1.
Proof.
  intros Hne. unfold bucket_range; simpl.
  destruct (decide (bucket_index hash' t < bucket_index hash t)).
  - left. apply Nat.mul_le_mono_r. lia.
  - right. apply Nat.mul_le_mono_r. lia.
Qed.

Lemma touches_only_bucket_wf hash t1 t' :
  wf t1 → touches_only_bucket hash t1 t' → wf t'.
Proof.
  intros Hwf ((cells & Hlen & Hmem) & Hb & He & _).
  destruct (bucket_range_bounds hash t1 Hwf) as (H1 & H2 & H3).
  destruct Hwf as (HC & Hpos & Hgeo & Hl). unfold wf.
  rewrite Hb, He, Hmem. split_and!; try done.
  destruct (bucket_range hash t1) as [lo hi]; simpl in *.
  rewrite store_range_length; lia.
Qed.

(** The consequences of [touches_only_bucket] a caller sees. *)
Lemma touches_only_bucket_seen hash t1 t' :
  wf t1 → touches_only_bucket hash t1 t' →
  (∀ hash', bucket_index hash' t1 ≠ bucket_index hash t1 →
            bucket_of hash' t' = bucket_of hash' t1) ∧
  length (m_cell_ptr t') = length (m_cell_ptr t1) ∧
  m_buckets_missing t' = m_buckets_missing t1 ∧
  m_fd t' = m_fd t1 ∧
  m_toxic_hashes t' = m_toxic_hashes t1 ∧
  m_buckets_dirty t1 ⊆ m_buckets_dirty t' ∧
  m_buckets_dirty t' ⊆ {[extent_of hash t1]} ∪ m_buckets_dirty t1 ∧
  (m_cell_ptr t' ≠ m_cell_ptr t1 → extent_of hash t1 ∈ m_buckets_dirty t').
Proof.
  intros Hwf Ht. pose proof Ht as
    ((cells & Hlen & Hmem) & Hb & He & Hm & Hfd & Htox & Hd & Hch).
  destruct (bucket_range_bounds hash t1 Hwf) as (H1 & H2 & H3).
  split_and!; try done.
  - intros hash' Hne. unfold bucket_of.
    rewrite (bucket_range_same_buckets hash' t1 t' Hb), Hmem.
    pose proof (bucket_ranges_disjoint hash hash' t1 Hne) as Hdis.
    destruct (bucket_range hash t1) as [lo hi],
             (bucket_range hash' t1) as [a b]; simpl in *.
    apply range_store_disjoint; lia.
  - rewrite Hmem. destruct (bucket_range hash t1) as [lo hi]; simpl in *.
    apply store_range_length; lia.
  - intros x Hx. destruct Hd as [-> | ->]; [done |].
    apply elem_of_union. by right.
  - intros x Hx. destruct Hd as [Hd | Hd]; rewrite Hd in Hx; [| done].
    apply elem_of_union. by right.
Qed.

Lemma touches_only_bucket_refl hash t1 : wf t1 → touches_only_bucket hash t1 t1.
Proof.
  intros Hwf. destruct (bucket_range_bounds hash t1 Hwf) as (H1 & H2 & H3).
  unfold touches_only_bucket. split_and!; try done; [| by left].
  exists (bucket_of hash t1). split; [by apply bucket_of_length |].
  unfold bucket_of. destruct (bucket_range hash t1) as [lo hi]; simpl in *.
  by rewrite store_range_id.
Qed.

Lemma touches_only_bucket_stats hash t1 stats :
  wf t1 → touches_only_bucket hash t1 (with_stats stats t1).
Proof.
  intros Hwf. destruct (touches_only_bucket_refl hash t1 Hwf)
    as (Hc & ? & ? & ? & ? & ? & ? & ?).
  unfold touches_only_bucket. split_and!; done.
Qed.

(** A bucket stored, counters bumped and the extent marked. *)
Lemma touches_only_bucket_marked hash cells stats t1 :
  wf t1 → length cells = c_cells_per_bucket →
  touches_only_bucket hash t1
    (with_stats stats
       (with_dirty ({[extent_of hash t1]} ∪ m_buckets_dirty t1)
          (with_cells (store_range (bucket_range hash t1) cells
                                   (m_cell_ptr t1)) t1))).
Proof.
  intros Hwf Hlen. unfold touches_only_bucket; simpl.
  split_and!; try done; [by exists cells | by right |].
  intros _. apply elem_of_union. left. by apply elem_of_singleton.
Qed.

Lemma inserted_touches hash cells counts t1 :
  wf t1 → length cells = c_cells_per_bucket →
  touches_only_bucket hash t1 (inserted hash cells counts t1).
Proof.
  intros Hwf Hlen. unfold touches_only_bucket, inserted; simpl.
  split_and!; try done; [by exists cells | by right |].
  intros _. apply elem_of_union. left. by apply elem_of_singleton.
Qed.

Lemma erase_hash_addr_touches hash addr t t1 :
  wf t → fetch_missing_extent hash t = Ok () t1 →
  ∃ t', erase_hash_addr hash addr t = Ok () t' ∧
        touches_only_bucket hash t1 t'.
Proof.
  intros Hwf Hf.
  destruct (fetch_missing_extent_post hash t t1 Hwf Hf) as (Hwf1 & _).
  eexists. split; [by apply erase_hash_addr_run |]. cbv zeta.
  destruct (bool_decide _).
  - apply touches_only_bucket_marked; [done |].
    rewrite length_insert. by apply bucket_of_length.
  - by apply touches_only_bucket_refl.
Qed.

Lemma push_random_hash_addr_touches pos hash addr t t1 :
  wf t → fetch_missing_extent hash t = Ok () t1 →
  pos < c_cells_per_bucket →
  ∃ found t', push_random_hash_addr pos hash addr t = Ok found t' ∧
              touches_only_bucket hash t1 t'.
Proof.
  intros Hwf Hf Hpos.
  destruct (fetch_missing_extent_post hash t t1 Hwf Hf) as (Hwf1 & _).
  pose proof (bucket_of_length hash t1 Hwf1) as Hlen.
  rewrite (push_random_hash_addr_run pos hash addr t t1 Hwf Hf Hpos).
  cbv zeta.
  repeat match goal with
         | |- context [if ?b then _ else _] => destruct b
         | |- context [match ?o with Some _ => _ | None => _ end] =>
             destruct o
         end;
    eexists _, _; (split; [reflexivity |]);
    try (by apply touches_only_bucket_stats);
    apply inserted_touches; try done;
    rewrite ?length_insert, ?copy_backward_loop_length,
      ?move_backward_length; lia.
Qed.

Lemma push_front_shift_frame hash (b1 b2 : bool) X1 X2 t1 :
  wf t1 → length X1 = c_cells_per_bucket → length X2 = c_cells_per_bucket →
  ∃ t2,
    (if b1 then
       if b2 then
         BEESCOUNT "hash_evict";;
         write_range (bucket_range hash t1) X1
       else write_range (bucket_range hash t1) X2
     else mret ()) t1 = Ok () t2 ∧
    m_cell_ptr t2 =
      store_range (bucket_range hash t1) (bucket_of hash t2) (m_cell_ptr t1) ∧
    m_extents t2 = m_extents t1 ∧
    m_fd t2 = m_fd t1 ∧
    m_toxic_hashes t2 = m_toxic_hashes t1.
Proof.
  intros Hwf H1 H2.
  destruct (bucket_range_bounds hash t1 Hwf) as (Hle & Hhi & Hsz).
  destruct b1; [destruct b2 |].
  - eexists. split; [reflexivity |]. split_and!; try done.
    simpl. f_equal. symmetry.
    by apply (bucket_of_store hash X1
                (with_stats (add_count "hash_evict" (s_global t1)) t1)).
  - eexists. split; [reflexivity |]. split_and!; try done.
    simpl. f_equal. symmetry. by apply (bucket_of_store hash X2 t1).
  - exists t1. split; [reflexivity |]. split_and!; try done.
    unfold bucket_of. destruct (bucket_range hash t1) as [lo hi]; simpl in *.
    by rewrite store_range_id.
Qed.

Lemma push_front_hash_addr_touches hash addr t t1 :
  wf t → fetch_missing_extent hash t = Ok () t1 →
  ∃ t', push_front_hash_addr hash addr t
          = Ok (bool_decide (mkCell hash addr ∈ bucket_of hash t1)) t' ∧
        touches_only_bucket hash t1 t'.
Proof.
  intros Hwf Hf. set (mv := mkCell hash addr). set (cells := bucket_of hash t1).
  destruct (fetch_missing_extent_post hash t t1 Hwf Hf) as (Hwf1 & _).
  pose proof (bucket_of_length hash t1 Hwf1) as Hlen. fold cells in Hlen.
  assert (0 < length cells) as Hpos by (destruct Hwf1 as (? & _); lia).
  destruct (bucket_range_bounds hash t1 Hwf1) as (Hle & Hhi & Hsz).
  destruct (push_front_shift_run hash mv t1 Hwf1)
    as (t2 & Hshift & Hwf2 & Hb2 & Hd2 & Hm2 & Hcells2 & _).
  fold cells in Hshift, Hcells2. cbv zeta in Hshift.
  assert (m_cell_ptr t2 =
            store_range (bucket_range hash t1) (bucket_of hash t2)
                        (m_cell_ptr t1) ∧
          m_extents t2 = m_extents t1 ∧ m_fd t2 = m_fd t1 ∧
          m_toxic_hashes t2 = m_toxic_hashes t1) as (Hmem2 & He2 & Hfd2 & Htox2).
  { match type of Hshift with
    | (if ?b1 then if ?b2 then _ ≫= (λ _, write_range _ ?X1)
                   else write_range _ ?X2 else _) _ = _ =>
        destruct (push_front_shift_frame hash b1 b2 X1 X2 t1 Hwf1)
          as (t2' & Hshift' & Hframe);
          [by rewrite copy_backward_loop_length
          |by rewrite copy_backward_loop_length |]
    end.
    rewrite Hshift in Hshift'. by injection Hshift' as <-. }
  pose proof (bucket_of_length hash t2 Hwf2) as Hlen2.
  pose proof (push_front_write_run hash mv t2 Hwf2) as Hwrite.
  set (t3 := if bool_decide (bucket_of hash t2 !!! 0 ≠ mv) then _ else t2)
    in Hwrite.
  exists t3. split.
  { unfold push_front_hash_addr.
    rewrite (bind_Ok _ _ _ _ _ Hf).
    rewrite (bind_Ok _ _ _ _ _ (get_cell_range_ok hash t1 Hwf1)).
    rewrite bind_eq; simpl. fold (bucket_of hash t1). fold cells mv.
    rewrite (bind_Ok _ _ _ _ _ Hshift).
    rewrite bind_eq; simpl.
    rewrite <- (bucket_range_same_buckets hash t1 t2 Hb2).
    fold (bucket_of hash t2).
    rewrite (bind_Ok _ _ _ _ _ Hwrite).
    unfold mret, M_ret. f_equal.
    apply bool_decide_ext, std_find_elem. }
  assert (bucket_of hash t2 !! 0 = cells !! 0) as Hfront.
  { rewrite Hcells2, copy_backward_loop_lookup
      by (apply push_front_source_lt; lia).
    by rewrite decide_False by lia. }
  unfold t3, touches_only_bucket.
  destruct (bool_decide (bucket_of hash t2 !!! 0 ≠ mv)) eqn:Hne; simpl.
  - split_and!; try done.
    + exists (<[0 := mv]> (bucket_of hash t2)).
      split; [by rewrite length_insert |].
      rewrite (bucket_range_same_buckets hash t1 t2 Hb2), Hmem2.
      destruct (bucket_range hash t1) as [lo hi]; simpl in *.
      apply store_store; lia.
    + right. by rewrite Hd2, (extent_of_same_buckets hash t1 t2 Hb2).
    + intros _. rewrite (extent_of_same_buckets hash t1 t2 Hb2).
      apply elem_of_union. left. by apply elem_of_singleton.
  - apply bool_decide_eq_false_1 in Hne.
    assert (bucket_of hash t2 !!! 0 = mv) as Hmv
      by (by destruct (decide (bucket_of hash t2 !!! 0 = mv))).
    assert (cells !! 0 = Some mv) as H0.
    { rewrite <- Hfront. apply lookup_total_Some; [lia | done]. }
    assert (bucket_of hash t2 = cells) as Hsame.
    { rewrite Hcells2. unfold push_front_source.
      assert (mv ∈ cells) as Hin by (apply list_elem_of_lookup; eauto).
      rewrite decide_True by done.
      rewrite (std_find_first cells mv 0 H0) by lia. done. }
    split_and!; try done.
    + exists (bucket_of hash t2). split; done.
    + by left.
    + intros Hch. destruct Hch. rewrite Hmem2, Hsame.
      unfold cells, bucket_of.
      destruct (bucket_range hash t1) as [lo hi]; simpl in *.
      by rewrite store_range_id.
Qed.

(** With the entry already in front, push_front changes nothing at all. *)
Lemma push_front_hash_addr_at_front hash addr t :
  wf t → extent_of hash t ∉ m_buckets_missing t →
  bucket_of hash t !! 0 = Some (mkCell hash addr) →
  push_front_hash_addr hash addr t = Ok true t.
Proof.
  intros Hwf Hm H0.
  pose proof (bucket_of_length hash t Hwf) as Hlen.
  unfold push_front_hash_addr.
  rewrite (bind_Ok _ _ _ _ _ (fetch_missing_extent_loaded hash t Hwf Hm)).
  rewrite (bind_Ok _ _ _ _ _ (get_cell_range_ok hash t Hwf)).
  rewrite bind_eq; simpl. fold (bucket_of hash t).
  rewrite (std_find_first (bucket_of hash t) _ 0 H0) by lia.
  apply lookup_lt_Some in H0 as Hlt.
  rewrite (bool_decide_eq_true_2 (0 < length _)) by done.
  rewrite (bool_decide_eq_false_2 (0 < 0)) by lia.
  rewrite bind_eq; simpl. rewrite bind_eq; simpl. fold (bucket_of hash t).
  rewrite (list_lookup_total_correct _ _ _ H0).
  rewrite bool_decide_eq_false_2 by (intros Hne; by apply Hne).
  reflexivity.
Qed.

(** ** The bucket as a bag of cells *)

(** What a push does to the bag of cells of the bucket: the new entry
    comes in and the cell at [k] goes, where that cell is the entry
    itself, or (the entry being new) an empty cell, or (the bucket being
    full as well) the last cell. *)
Lemma push_front_bag hash addr t t1 :
  wf t → fetch_missing_extent hash t = Ok () t1 →
  let mv := mkCell hash addr in
  let cells := bucket_of hash t1 in
  ∃ t' k,
    push_front_hash_addr hash addr t = Ok (bool_decide (mv ∈ cells)) t' ∧
    bucket_of hash t' ≡ₚ mv :: delete k cells ∧
    k < length cells ∧
    (cells !! k = Some mv ∨
     (mv ∉ cells) ∧
     (cells !! k = Some empty_cell ∨
      (empty_cell ∉ cells) ∧ k = length cells - 1)).
Proof.
  intros Hwf Hf mv cells.
  destruct (fetch_missing_extent_post hash t t1 Hwf Hf) as (Hwf1 & _).
  pose proof (bucket_of_length hash t1 Hwf1) as Hlen. fold cells in Hlen.
  assert (0 < length cells) as Hpos by (destruct Hwf1 as (? & _); lia).
  pose proof (push_front_source_lt mv cells Hpos) as Hsrc.
  destruct (push_front_hash_addr_run hash addr t t1 Hwf Hf)
    as (t' & Hrun & Hcells & _).
  fold mv cells in Hrun, Hcells.
  exists t', (push_front_source mv cells). split_and!; try done.
  - rewrite Hcells, insert_copy_backward_rotate by lia.
    apply insert_rotate_right_Permutation; lia.
  - unfold push_front_source.
    destruct (decide (mv ∈ cells)) as [Hin|Hin].
    { left. by apply std_find_lookup, std_find_elem. }
    right. split; [done |].
    destruct (decide (empty_cell ∈ cells)) as [Hem|Hem].
    + left. by apply std_find_lookup, std_find_elem.
    + by right.
Qed.

Lemma push_random_bag pos hash addr t t1 :
  wf t → fetch_missing_extent hash t = Ok () t1 →
  pos < c_cells_per_bucket →
  let mv := mkCell hash addr in
  let cells := bucket_of hash t1 in
  ∃ t',
    push_random_hash_addr pos hash addr t = Ok (bool_decide (mv ∈ cells)) t' ∧
    ((mv ∈ cells ∧ bucket_of hash t' = cells) ∨
     ∃ k, bucket_of hash t' ≡ₚ mv :: delete k cells ∧
          k < length cells ∧
          (cells !! k = Some mv ∨
           (mv ∉ cells) ∧
           (cells !! k = Some empty_cell ∨
            (empty_cell ∉ cells) ∧ k = length cells - 1))).
Proof.
  intros Hwf Hf Hpos mv cells.
  destruct (fetch_missing_extent_post hash t t1 Hwf Hf) as (Hwf1 & _).
  pose proof (bucket_of_length hash t1 Hwf1) as Hlen. fold cells in Hlen.
  rewrite (push_random_hash_addr_run pos hash addr t t1 Hwf Hf Hpos).
  cbv zeta. fold cells mv.
  rewrite (bool_decide_ext (mv ∈ cells) (std_find cells mv < length cells))
    by (symmetry; apply std_find_elem).
  destruct (bool_decide (std_find cells mv < length cells)) eqn:Hfound.
  - apply bool_decide_eq_true_1 in Hfound.
    pose proof (std_find_lookup cells mv Hfound) as Hip.
    destruct (bool_decide (pos < std_find cells mv)) eqn:Hlt.
    + apply bool_decide_eq_true_1 in Hlt.
      eexists. split; [reflexivity |]. right. exists (std_find cells mv).
      rewrite inserted_bucket
        by (done || by rewrite length_insert, copy_backward_loop_length).
      split_and!; [| done | by left].
      rewrite insert_copy_backward_rotate by lia.
      apply insert_rotate_right_Permutation; lia.
    + eexists. split; [reflexivity |]. left.
      split; [by apply std_find_elem | done].
  - apply bool_decide_eq_false_1 in Hfound.
    assert (mv ∉ cells) as Hnew by (by rewrite <- std_find_elem).
    destruct (scan_up (drop pos cells)) as [k|] eqn:Hup.
    { apply scan_up_Some in Hup as [Hk _]. rewrite lookup_drop in Hk.
      apply lookup_lt_Some in Hk as Hklt.
      eexists. split; [reflexivity |]. right. exists (pos + k).
      rewrite inserted_bucket by (done || by rewrite length_insert).
      split_and!; [by apply insert_Permutation | done | tauto]. }
    apply scan_up_None in Hup.
    destruct (if bool_decide (0 < pos) then scan_down pos cells else None)
      as [ip|] eqn:Hdown.
    { destruct (bool_decide (0 < pos)); [| done].
      apply scan_down_Some in Hdown as (Hip & Hempty & _).
      apply lookup_total_Some in Hempty; [| lia].
      eexists. split; [reflexivity |]. right. exists ip.
      rewrite inserted_bucket by (done || by rewrite length_insert).
      split_and!; [apply insert_Permutation; lia | lia | tauto]. }
    assert (empty_cell ∉ cells) as Hfull.
    { intros [i Hi]%list_elem_of_lookup.
      destruct (decide (pos ≤ i)) as [Hge|Hlt].
      - apply Hup, list_elem_of_lookup. exists (i - pos).
        rewrite lookup_drop. by replace (pos + (i - pos)) with i by lia.
      - rewrite bool_decide_eq_true_2 in Hdown by lia.
        apply (scan_down_None _ _ Hdown i); [lia |].
        by apply list_lookup_total_correct. }
    eexists. split; [reflexivity |]. right. exists (length cells - 1).
    rewrite inserted_bucket
      by (done || (rewrite length_insert, move_backward_length; lia)).
    split_and!; [| lia | tauto].
    replace (length cells) with (S (length cells - 1)) at 2 by lia.
    rewrite move_backward_copy_backward by lia.
    rewrite insert_copy_backward_rotate by lia.
    apply insert_rotate_right_Permutation; lia.
Qed.

Lemma bag_clean (cells R : list Cell) mv k :
  clean cells → accepted_addr (e_addr mv) →
  R ≡ₚ mv :: delete k cells →
  (cells !! k = Some mv ∨
   (mv ∉ cells) ∧
   (cells !! k = Some empty_cell ∨
    (empty_cell ∉ cells) ∧ k = length cells - 1)) →
  clean R.
Proof.
  intros Hclean Hok HR Hk. symmetry in HR.
  apply (clean_Permutation _ _ HR), clean_cons_delete; [done | done |].
  destruct Hk as [? | [? _]]; tauto.
Qed.

Lemma bag_keeps (cells R : list Cell) mv k c :
  R ≡ₚ mv :: delete k cells →
  (cells !! k = Some mv ∨ cells !! k = Some empty_cell) →
  c ∈ cells → c ≠ empty_cell → c ∈ R.
Proof.
  intros HR Hk Hc Hne. rewrite HR.
  assert (∃ x, cells !! k = Some x ∧ (x = mv ∨ x = empty_cell))
    as (x & Hx & Hcase) by (destruct Hk; eauto).
  rewrite (delete_Permutation _ _ _ Hx) in Hc.
  apply elem_of_cons in Hc as [-> | Hc]; [| apply elem_of_cons; by right].
  destruct Hcase as [-> | ->]; [apply list_elem_of_here | done].
Qed.

Lemma bag_from_old (cells R : list Cell) mv k c :
  R ≡ₚ mv :: delete k cells → c ∈ R → c = mv ∨ c ∈ cells.
Proof.
  intros HR Hc. rewrite HR in Hc.
  apply elem_of_cons in Hc as [? | Hc]; [by left | right].
  by apply (elem_of_delete_inv _ k).
Qed.

(** ** Footprints *)

(** X4.  After the page-in, [erase_hash_addr] writes no cell outside the
    bucket of its hash, leaves the missing set, the backing file and the
    toxic set alone, adds at most the extent of its hash to the dirty set,
    and adds it whenever it changed a cell. *)
Theorem erase_hash_addr_footprint hash addr t t1 :
  wf t → fetch_missing_extent hash t = Ok () t1 →
  ∃ t',
    erase_hash_addr hash addr t = Ok () t' ∧
    (∀ hash', bucket_index hash' t1 ≠ bucket_index hash t1 →
              bucket_of hash' t' = bucket_of hash' t1) ∧
    length (m_cell_ptr t') = length (m_cell_ptr t1) ∧
    m_buckets_missing t' = m_buckets_missing t1 ∧
    m_fd t' = m_fd t1 ∧
    m_toxic_hashes t' = m_toxic_hashes t1 ∧
    m_buckets_dirty t1 ⊆ m_buckets_dirty t' ∧
    m_buckets_dirty t' ⊆ {[extent_of hash t1]} ∪ m_buckets_dirty t1 ∧
    (m_cell_ptr t' ≠ m_cell_ptr t1 → extent_of hash t1 ∈ m_buckets_dirty t').
Proof.
  intros Hwf Hf.
  destruct (fetch_missing_extent_post hash t t1 Hwf Hf) as (Hwf1 & _).
  destruct (erase_hash_addr_touches hash addr t t1 Hwf Hf) as (t' & Hrun & Ht).
  exists t'. split; [done |]. by apply touches_only_bucket_seen.
Qed.

(** X5.  After the page-in, [push_front_hash_addr] writes no cell outside
    the bucket of its hash, leaves the missing set, the backing file and
    the toxic set alone, adds at most the extent of its hash to the dirty
    set, and adds it whenever it changed a cell. *)
Theorem push_front_hash_addr_footprint hash addr t t1 :
  wf t → fetch_missing_extent hash t = Ok () t1 →
  ∃ found t',
    push_front_hash_addr hash addr t = Ok found t' ∧
    (∀ hash', bucket_index hash' t1 ≠ bucket_index hash t1 →
              bucket_of hash' t' = bucket_of hash' t1) ∧
    length (m_cell_ptr t') = length (m_cell_ptr t1) ∧
    m_buckets_missing t' = m_buckets_missing t1 ∧
    m_fd t' = m_fd t1 ∧
    m_toxic_hashes t' = m_toxic_hashes t1 ∧
    m_buckets_dirty t1 ⊆ m_buckets_dirty t' ∧
    m_buckets_dirty t' ⊆ {[extent_of hash t1]} ∪ m_buckets_dirty t1 ∧
    (m_cell_ptr t' ≠ m_cell_ptr t1 → extent_of hash t1 ∈ m_buckets_dirty t').
Proof.
  intros Hwf Hf.
  destruct (fetch_missing_extent_post hash t t1 Hwf Hf) as (Hwf1 & _).
  destruct (push_front_hash_addr_touches hash addr t t1 Hwf Hf)
    as (t' & Hrun & Ht).
  eexists _, t'. split; [done |]. by apply touches_only_bucket_seen.
Qed.

(** X6.  After the page-in, [push_random_hash_addr], whatever position is
    drawn, writes no cell outside the bucket of its hash, leaves the
    missing set, the backing file and the toxic set alone, adds at most the
    extent of its hash to the dirty set, and adds it whenever it changed a
    cell. *)
Theorem push_random_hash_addr_footprint pos hash addr t t1 :
  wf t → fetch_missing_extent hash t = Ok () t1 →
  pos < c_cells_per_bucket →
  ∃ found t',
    push_random_hash_addr pos hash addr t = Ok found t' ∧
    (∀ hash', bucket_index hash' t1 ≠ bucket_index hash t1 →
              bucket_of hash' t' = bucket_of hash' t1) ∧
    length (m_cell_ptr t') = length (m_cell_ptr t1) ∧
    m_buckets_missing t' = m_buckets_missing t1 ∧
    m_fd t' = m_fd t1 ∧
    m_toxic_hashes t' = m_toxic_hashes t1 ∧
    m_buckets_dirty t1 ⊆ m_buckets_dirty t' ∧
    m_buckets_dirty t' ⊆ {[extent_of hash t1]} ∪ m_buckets_dirty t1 ∧
    (m_cell_ptr t' ≠ m_cell_ptr t1 → extent_of hash t1 ∈ m_buckets_dirty t').
Proof.
  intros Hwf Hf Hpos.
  destruct (fetch_missing_extent_post hash t t1 Hwf Hf) as (Hwf1 & _).
  destruct (push_random_hash_addr_touches pos hash addr t t1 Hwf Hf Hpos)
    as (found & t' & Hrun & Ht).
  exists found, t'. split; [done |]. by apply touches_only_bucket_seen.
Qed.

(** ** Clean buckets stay clean *)

(** X7.  [erase_hash_addr] keeps a bucket clean: if no cell of the bucket
    breaks an invariant before the call, none does after it. *)
Theorem erase_hash_addr_keeps_clean hash addr t t1 :
  wf t → fetch_missing_extent hash t = Ok () t1 →
  clean (bucket_of hash t1) →
  ∃ t', erase_hash_addr hash addr t = Ok () t' ∧ clean (bucket_of hash t').
Proof.
  intros Hwf Hf Hclean.
  destruct (fetch_missing_extent_post hash t t1 Hwf Hf) as (Hwf1 & _).
  pose proof (bucket_of_length hash t1 Hwf1) as Hlen.
  eexists. split; [by apply erase_hash_addr_run |]. cbv zeta.
  destruct (bool_decide _) eqn:Hfound; [| done].
  apply bool_decide_eq_true_1 in Hfound.
  match goal with
  | |- clean ?b =>
      replace b with (<[std_find (bucket_of hash t1) (mkCell hash addr)
                          := mkCell 0 0]> (bucket_of hash t1))
        by (symmetry; apply (bucket_of_store hash _ t1 Hwf1);
            by rewrite length_insert)
  end.
  eapply clean_Permutation.
  { symmetry. apply insert_Permutation. exact Hfound. }
  apply clean_cons. split_and!; [by left | done | by apply clean_delete].
Qed.

(** X8.  [push_front_hash_addr] keeps a bucket clean when the address
    pushed is zero or at least 0x1000. *)
Theorem push_front_hash_addr_keeps_clean hash addr t t1 :
  wf t → fetch_missing_extent hash t = Ok () t1 →
  accepted_addr addr →
  clean (bucket_of hash t1) →
  ∃ found t', push_front_hash_addr hash addr t = Ok found t' ∧
              clean (bucket_of hash t').
Proof.
  intros Hwf Hf Hok Hclean.
  destruct (push_front_bag hash addr t t1 Hwf Hf)
    as (t' & k & Hrun & Hbag & Hk & Hcase).
  cbv zeta in *. eexists _, t'. split; [exact Hrun |].
  by apply (bag_clean (bucket_of hash t1) _ (mkCell hash addr) k).
Qed.

(** X9.  [push_random_hash_addr] keeps a bucket clean when the address
    pushed is zero or at least 0x1000, whatever position is drawn. *)
Theorem push_random_hash_addr_keeps_clean pos hash addr t t1 :
  wf t → fetch_missing_extent hash t = Ok () t1 →
  pos < c_cells_per_bucket →
  accepted_addr addr →
  clean (bucket_of hash t1) →
  ∃ found t', push_random_hash_addr pos hash addr t = Ok found t' ∧
              clean (bucket_of hash t').
Proof.
  intros Hwf Hf Hpos Hok Hclean.
  destruct (push_random_bag pos hash addr t t1 Hwf Hf Hpos)
    as (t' & Hrun & [[_ Hsame] | (k & Hbag & Hk & Hcase)]);
    cbv zeta in *; eexists _, t'; (split; [exact Hrun |]).
  - by rewrite Hsame.
  - by apply (bag_clean (bucket_of hash t1) _ (mkCell hash addr) k).
Qed.

(** ** Entries are lost only to eviction *)

(** X10.  [push_front_hash_addr] invents no cell: every cell of the new
    bucket is the entry or a cell of the old bucket.  When the entry was
    present or the bucket had an empty cell, every cell of the old bucket
    but the empty one is still there; otherwise the new bucket is, as a
    bag, the entry and the old cells without the last. *)
Theorem push_front_hash_addr_keeps_entries hash addr t t1 :
  wf t → fetch_missing_extent hash t = Ok () t1 →
  let mv := mkCell hash addr in
  let cells := bucket_of hash t1 in
  ∃ found t',
    push_front_hash_addr hash addr t = Ok found t' ∧
    (∀ c, c ∈ bucket_of hash t' → c = mv ∨ c ∈ cells) ∧
    (mv ∈ cells ∨ empty_cell ∈ cells →
     ∀ c, c ∈ cells → c ≠ empty_cell → c ∈ bucket_of hash t') ∧
    ((mv ∉ cells) ∧ (empty_cell ∉ cells) →
     bucket_of hash t' ≡ₚ mv :: take (length cells - 1) cells).
Proof.
  intros Hwf Hf mv cells.
  destruct (push_front_bag hash addr t t1 Hwf Hf)
    as (t' & k & Hrun & Hbag & Hk & Hcase).
  fold mv cells in Hrun, Hbag, Hk, Hcase.
  eexists _, t'. split_and!; [done | | |].
  - intros c Hc. by eapply bag_from_old.
  - intros Hroom c Hc Hne. eapply bag_keeps; [done | | done | done].
    destruct Hcase as [? | [Hnew [? | [Hfull _]]]]; [tauto | tauto |].
    destruct Hroom; done.
  - intros [Hnew Hfull]. rewrite Hbag.
    destruct Hcase as [Hmv | [_ [Hem | [_ ->]]]].
    + destruct Hnew. apply list_elem_of_lookup. eauto.
    + destruct Hfull. apply list_elem_of_lookup. eauto.
    + rewrite delete_take_drop, drop_ge, app_nil_r by lia. done.
Qed.

(** X11.  [push_random_hash_addr], whatever position is drawn, invents
    no cell: every cell of the new bucket is the entry or a cell of the old
    bucket.  When the entry was present or the bucket had an empty cell,
    every cell of the old bucket but the empty one is still there;
    otherwise the new bucket is, as a bag, the entry and the old cells
    without the last. *)
Theorem push_random_hash_addr_keeps_entries pos hash addr t t1 :
  wf t → fetch_missing_extent hash t = Ok () t1 →
  pos < c_cells_per_bucket →
  let mv := mkCell hash addr in
  let cells := bucket_of hash t1 in
  ∃ found t',
    push_random_hash_addr pos hash addr t = Ok found t' ∧
    (∀ c, c ∈ bucket_of hash t' → c = mv ∨ c ∈ cells) ∧
    (mv ∈ cells ∨ empty_cell ∈ cells →
     ∀ c, c ∈ cells → c ≠ empty_cell → c ∈ bucket_of hash t') ∧
    ((mv ∉ cells) ∧ (empty_cell ∉ cells) →
     bucket_of hash t' ≡ₚ mv :: take (length cells - 1) cells).
Proof.
  intros Hwf Hf Hpos mv cells.
  destruct (push_random_bag pos hash addr t t1 Hwf Hf Hpos)
    as (t' & Hrun & [[Hin Hsame] | (k & Hbag & Hk & Hcase)]);
    fold mv cells in Hrun |- *.
  { fold cells in Hsame. eexists _, t'. rewrite Hsame.
    split_and!; [done | by right | done | by intros [? _]]. }
  fold mv cells in Hbag, Hk, Hcase.
  eexists _, t'. split_and!; [done | | |].
  - intros c Hc. by eapply bag_from_old.
  - intros Hroom c Hc Hne. eapply bag_keeps; [done | | done | done].
    destruct Hcase as [? | [Hnew [? | [Hfull _]]]]; [tauto | tauto |].
    destruct Hroom; done.
  - intros [Hnew Hfull]. rewrite Hbag.
    destruct Hcase as [Hmv | [_ [Hem | [_ ->]]]].
    + destruct Hnew. apply list_elem_of_lookup. eauto.
    + destruct Hfull. apply list_elem_of_lookup. eauto.
    + rewrite delete_take_drop, drop_ge, app_nil_r by lia. done.
Qed.

(** ** Pushing, then pushing or looking up *)

Lemma Ok_inj {A : Type} (a b : A) t u : Ok a t = Ok b u → a = b ∧ t = u.
Proof. by intros [= -> ->]. Qed.

(** The state after a push: well formed, the extent loaded. *)
Lemma touches_only_bucket_loaded hash t t1 t' :
  wf t → fetch_missing_extent hash t = Ok () t1 →
  touches_only_bucket hash t1 t' →
  wf t' ∧ (extent_of hash t' ∉ m_buckets_missing t') ∧
  m_toxic_hashes t' = m_toxic_hashes t.
Proof.
  intros Hwf Hf Ht.
  destruct (fetch_missing_extent_post hash t t1 Hwf Hf)
    as (Hwf1 & Hb & _ & Htox & Hm & _).
  pose proof Ht as (_ & Hb' & _ & Hm' & _ & Htox' & _).
  split_and!.
  - by eapply touches_only_bucket_wf.
  - rewrite Hm', Hm, (extent_of_same_buckets hash t1 t' Hb'),
      (extent_of_same_buckets hash t t1 Hb).
    apply not_elem_of_remove.
  - by rewrite Htox'.
Qed.

(** X12.  [push_front_hash_addr] is idempotent: a second call with the
    same pair right after the first returns true and leaves the table
    exactly as the first call left it (cells, dirty set and counters). *)
Theorem push_front_hash_addr_twice hash addr t t1 :
  wf t → fetch_missing_extent hash t = Ok () t1 →
  ∃ found t',
    push_front_hash_addr hash addr t = Ok found t' ∧
    push_front_hash_addr hash addr t' = Ok true t'.
Proof.
  intros Hwf Hf.
  destruct (fetch_missing_extent_post hash t t1 Hwf Hf) as (Hwf1 & _).
  destruct (push_front_hash_addr_touches hash addr t t1 Hwf Hf)
    as (t' & Hrun & Ht).
  destruct (push_front_hash_addr_run hash addr t t1 Hwf Hf)
    as (t'' & Hrun' & Hcells & _).
  rewrite Hrun in Hrun'. apply Ok_inj in Hrun' as [_ <-].
  destruct (touches_only_bucket_loaded hash t t1 t' Hwf Hf Ht)
    as (Hwf' & Hm' & _).
  eexists _, t'. split; [exact Hrun |].
  apply push_front_hash_addr_at_front; [done | done |].
  rewrite Hcells. apply list_lookup_insert_eq.
  rewrite copy_backward_loop_length, bucket_of_length by done.
  by destruct Hwf1 as (? & _).
Qed.

(** X13.  After [push_front_hash_addr(hash, addr)] with a hash that is not
    toxic and an address of at least 0x1000, [find_cell(hash)] returns a
    list whose first cell is [(hash, addr)]. *)
Theorem push_front_hash_addr_then_find_cell hash addr t t1 :
  wf t → fetch_missing_extent hash t = Ok () t1 →
  hash ∉ m_toxic_hashes t →
  (0x1000 ≤ addr)%Z →
  ∃ found t' rv t'',
    push_front_hash_addr hash addr t = Ok found t' ∧
    find_cell hash t' = Ok (mkCell hash addr :: rv) t''.
Proof.
  intros Hwf Hf Htox Haddr.
  destruct (fetch_missing_extent_post hash t t1 Hwf Hf) as (Hwf1 & _).
  destruct (push_front_hash_addr_touches hash addr t t1 Hwf Hf)
    as (t' & Hrun & Ht).
  destruct (push_front_hash_addr_run hash addr t t1 Hwf Hf)
    as (t'' & Hrun' & Hcells & _).
  rewrite Hrun in Hrun'. apply Ok_inj in Hrun' as [_ <-].
  destruct (touches_only_bucket_loaded hash t t1 t' Hwf Hf Ht)
    as (Hwf' & Hm' & Htox').
  assert (bucket_of hash t' !! 0 = Some (mkCell hash addr)) as H0.
  { rewrite Hcells. apply list_lookup_insert_eq.
    rewrite copy_backward_loop_length, bucket_of_length by done.
    by destruct Hwf1 as (? & _). }
  destruct (bucket_of hash t') as [|c rest] eqn:Hb; [done |].
  simpl in H0. injection H0 as ->.
  eexists _, t', _, _. split; [exact Hrun |].
  rewrite (find_cell_run hash t' t' Hwf');
    [| by rewrite Htox' | by apply fetch_missing_extent_loaded].
  rewrite Hb, filter_cons_True by done. reflexivity.
Qed.

(** X14.  After [push_random_hash_addr(hash, addr)] with a hash that is
    not toxic and an address of at least 0x1000, whatever position is
    drawn, [find_cell(hash)] returns a list that holds [(hash, addr)]. *)
Theorem push_random_hash_addr_then_find_cell pos hash addr t t1 :
  wf t → fetch_missing_extent hash t = Ok () t1 →
  pos < c_cells_per_bucket →
  hash ∉ m_toxic_hashes t →
  (0x1000 ≤ addr)%Z →
  ∃ found t' rv t'',
    push_random_hash_addr pos hash addr t = Ok found t' ∧
    find_cell hash t' = Ok rv t'' ∧
    mkCell hash addr ∈ rv.
Proof.
  intros Hwf Hf Hpos Htox Haddr.
  destruct (fetch_missing_extent_post hash t t1 Hwf Hf) as (Hwf1 & _).
  destruct (push_random_hash_addr_touches pos hash addr t t1 Hwf Hf Hpos)
    as (found & t' & Hrun & Ht).
  destruct (push_random_bag pos hash addr t t1 Hwf Hf Hpos)
    as (t'' & Hrun' & Hbag).
  rewrite Hrun in Hrun'. apply Ok_inj in Hrun' as [_ <-].
  destruct (touches_only_bucket_loaded hash t t1 t' Hwf Hf Ht)
    as (Hwf' & Hm' & Htox').
  assert (mkCell hash addr ∈ bucket_of hash t') as Hin.
  { destruct Hbag as [[Hin ->] | (k & -> & _)]; [done |].
    apply list_elem_of_here. }
  eexists _, t', _, _. split_and!; [exact Hrun | |].
  - apply (find_cell_run hash t' t' Hwf');
      [by rewrite Htox' | by apply fetch_missing_extent_loaded].
  - apply list_elem_of_filter. done.
Qed.

Lemma filter_all (P : Cell → Prop) `{!∀ x, Decision (P x)} (l : list Cell) :
  (∀ x, x ∈ l → P x) → filter P l = l.
Proof.
  induction l as [|x l IH]; intros Hl; [done |].
  rewrite filter_cons_True by (apply Hl, list_elem_of_here).
  f_equal. apply IH. intros y Hy. apply Hl, elem_of_cons. by right.
Qed.

Lemma filter_insert_erased (P : Cell → Prop) `{!∀ x, Decision (P x)}
    (cells : list Cell) i mv :
  cells !! i = Some mv → ¬ P (mkCell 0 0) →
  (P mv → mv ∉ take i cells ++ drop (S i) cells) →
  filter P (<[i := mkCell 0 0]> cells) = filter (λ c, c ≠ mv) (filter P cells).
Proof.
  intros Hi HP0 Hnot.
  rewrite insert_take_drop by (by eapply lookup_lt_Some).
  assert (cells = take i cells ++ mv :: drop (S i) cells) as Hsplit
    by (symmetry; by apply take_drop_middle).
  revert Hnot Hsplit.
  generalize (take i cells) (drop (S i) cells). intros l1 l2 Hnot ->.
  rewrite !filter_app, !filter_cons, (decide_False (P := P (mkCell 0 0)))
    by done.
  assert (∀ l : list Cell, (∀ x, x ∈ l → P x → x ≠ mv) →
            filter P l = filter (λ c, c ≠ mv) (filter P l)) as Hid.
  { intros l Hl. symmetry. apply filter_all.
    intros x [HPx Hx]%list_elem_of_filter. by apply Hl. }
  destruct (decide (P mv)) as [HPmv|HPmv].
  - rewrite filter_cons.
    rewrite (decide_False (P := mv ≠ mv)) by (intros Hne; by apply Hne).
    specialize (Hnot HPmv).
    f_equal; apply Hid; intros x Hx _ ->; apply Hnot, elem_of_app; eauto.
  - f_equal; apply Hid; by intros x _ HPx ->.
Qed.

(** X15.  After [erase_hash_addr(hash, addr)] on a clean bucket, with a
    hash that is not toxic, [find_cell(hash)] returns what it returned
    before without the cell [(hash, addr)]. *)
Theorem erase_hash_addr_then_find_cell hash addr t t1 :
  wf t → fetch_missing_extent hash t = Ok () t1 →
  hash ∉ m_toxic_hashes t →
  clean (bucket_of hash t1) →
  ∃ rv0 t0 t' rv t'',
    find_cell hash t = Ok rv0 t0 ∧
    erase_hash_addr hash addr t = Ok () t' ∧
    find_cell hash t' = Ok rv t'' ∧
    rv = filter (λ c, c ≠ mkCell hash addr) rv0.
Proof.
  intros Hwf Hf Htox Hclean.
  destruct (fetch_missing_extent_post hash t t1 Hwf Hf) as (Hwf1 & _).
  pose proof (bucket_of_length hash t1 Hwf1) as Hlen.
  destruct (erase_hash_addr_touches hash addr t t1 Hwf Hf) as (t' & Hrun & Ht).
  destruct (touches_only_bucket_loaded hash t t1 t' Hwf Hf Ht)
    as (Hwf' & Hm' & Htox').
  set (mv := mkCell hash addr). set (cells := bucket_of hash t1).
  set (P := λ ip : Cell, e_hash ip = hash ∧ (0x1000 ≤ e_addr ip)%Z).
  assert (filter P (bucket_of hash t') = filter (λ c, c ≠ mv) (filter P cells))
    as Hfilter.
  { pose proof (erase_hash_addr_run hash addr t t1 Hwf Hf) as Hrun'.
    rewrite Hrun in Hrun'. apply Ok_inj in Hrun' as [_ ->].
    cbv zeta. fold mv cells.
    destruct (bool_decide (std_find cells mv < length cells)) eqn:Hfound.
    - apply bool_decide_eq_true_1 in Hfound.
      pose proof (std_find_lookup cells mv Hfound) as Hip.
      match goal with
      | |- filter P ?b = _ =>
          replace b with (<[std_find cells mv := mkCell 0 0]> cells)
            by (symmetry; apply (bucket_of_store hash _ t1 Hwf1);
                by rewrite length_insert)
      end.
      apply filter_insert_erased; [done | |].
      + intros [_ ?]; simpl in *; lia.
      + intros [_ HPmv].
        pose proof Hclean as Hc. fold cells in Hc.
        apply (clean_Permutation _ _ (delete_Permutation _ _ _ Hip)) in Hc.
        apply clean_cons in Hc as (_ & Hnot & _).
        rewrite <- delete_take_drop. apply Hnot. simpl in *. lia.
    - apply bool_decide_eq_false_1 in Hfound.
      assert (mv ∉ cells) as Hno by (by rewrite <- std_find_elem).
      symmetry. apply filter_all.
      intros x [_ Hx]%list_elem_of_filter ->. done. }
  eexists _, _, t', _, _. split_and!.
  - by apply find_cell_run.
  - exact Hrun.
  - apply (find_cell_run hash t' t' Hwf');
      [by rewrite Htox' | by apply fetch_missing_extent_loaded].
  - exact Hfilter.
Qed.

(** ** Page-in *)

Lemma range_range lo hi a b (mem : list Cell) :
  lo ≤ a → a ≤ b → b ≤ hi →
  range_cells (a - lo, b - lo) (range_cells (lo, hi) mem) = range_cells (a, b) mem.
Proof.
  intros Hlo Hab Hhi. unfold range_cells; simpl.
  apply list_eq. intros i.
  rewrite !lookup_take, !lookup_drop, lookup_take, lookup_drop.
  case_decide; [| by rewrite decide_False by lia].
  rewrite (decide_True (P := i < b - a)) by lia.
  rewrite decide_True by lia. f_equal. lia.
Qed.

Lemma bucket_in_extent hash t :
  wf t →
  (extent_range (extent_of hash t)).1 ≤ (bucket_range hash t).1 ∧
  (bucket_range hash t).2 ≤ (extent_range (extent_of hash t)).2.
Proof.
  intros Hwf. pose proof (wf_buckets_per_extent t Hwf) as Hbpe. split.
  - unfold extent_range, bucket_range, extent_of, cells_per_extent; simpl.
    rewrite Nat.mul_assoc. apply Nat.mul_le_mono_r.
    rewrite Nat.mul_comm. apply Nat.Div0.mul_div_le.
  - unfold extent_range, bucket_range, extent_of, cells_per_extent; simpl.
    rewrite Nat.mul_assoc. apply Nat.mul_le_mono_r.
    pose proof (Nat.mul_succ_div_gt (bucket_index hash t)
                  c_buckets_per_extent). lia.
Qed.

(** X16.  The bucket [get_cell_range] computes for a hash lies inside the
    extent [get_extent_range] computes for it, and that extent is one of
    the table's: paging in or marking dirty the extent of a hash covers the
    bucket of the hash. *)
Theorem bucket_range_within_extent hash t :
  wf t →
  get_cell_range hash t = Ok (bucket_range hash t) t ∧
  get_extent_range hash t = Ok (extent_range (extent_of hash t)) t ∧
  extent_of hash t < m_extents t ∧
  (extent_range (extent_of hash t)).1 ≤ (bucket_range hash t).1 ∧
  (bucket_range hash t).2 ≤ (extent_range (extent_of hash t)).2 ∧
  (extent_range (extent_of hash t)).2 ≤ length (m_cell_ptr t).
Proof.
  intros Hwf.
  pose proof (extent_of_lt hash t Hwf) as He.
  destruct (extent_range_bounds _ t Hwf He) as (_ & Hhi & _).
  destruct (bucket_in_extent hash t Hwf) as (Hl & Hu).
  split_and!; [by apply get_cell_range_ok | by apply get_extent_range_ok
              | done | done | done | done].
Qed.

(** The page-in of a missing extent whose read delivers a whole extent. *)
Lemma fetch_missing_extent_reads hash t cells :
  wf t →
  extent_of hash t ∈ m_buckets_missing t →
  m_fd t !! extent_of hash t = Some cells →
  length cells = cells_per_extent →
  fetch_missing_extent hash t = Ok () (paged_in (extent_of hash t) cells t).
Proof.
  intros Hwf Hm Hfd Hlen.
  rewrite (fetch_missing_extent_missing hash t Hwf Hm).
  rewrite Hfd. by rewrite decide_True.
Qed.

(** The bucket of a hash after the page-in of its extent: a slice of what
    the read delivered. *)
Lemma paged_in_bucket hash t cells :
  wf t → length cells = cells_per_extent →
  bucket_of hash (paged_in (extent_of hash t) cells t) =
    range_cells ((bucket_range hash t).1 - (extent_range (extent_of hash t)).1,
                 (bucket_range hash t).2 - (extent_range (extent_of hash t)).1)
                cells.
Proof.
  intros Hwf Hlen.
  pose proof (extent_of_lt hash t Hwf) as He.
  destruct (bucket_in_extent hash t Hwf) as (Hlo & Hhi).
  destruct (bucket_range_bounds hash t Hwf) as (Hb1 & Hb2 & Hb3).
  destruct (extent_range_bounds _ t Hwf He) as (He1 & He2 & He3).
  unfold bucket_of.
  change (bucket_range hash (paged_in _ _ t)) with (bucket_range hash t).
  unfold extent_range, bucket_range in *; simpl in *.
  apply range_store_inside; lia.
Qed.

(** X17.  A page-in of a missing extent whose read delivers [cells] puts
    exactly [cells] over the extent, so that the bucket of the hash holds
    its slice of [cells]; it writes no cell of another extent, takes the
    extent out of the missing set, leaves the dirty set alone, counts one
    [hash_extent_in], and a second page-in does nothing. *)
Theorem fetch_missing_extent_loads_file hash t cells :
  wf t →
  extent_of hash t ∈ m_buckets_missing t →
  m_fd t !! extent_of hash t = Some cells →
  length cells = cells_per_extent →
  let e := extent_of hash t in
  ∃ t1,
    fetch_missing_extent hash t = Ok () t1 ∧
    range_cells (extent_range e) (m_cell_ptr t1) = cells ∧
    bucket_of hash t1 =
      range_cells ((bucket_range hash t).1 - (extent_range e).1,
                   (bucket_range hash t).2 - (extent_range e).1) cells ∧
    (∀ i, i < (extent_range e).1 ∨ (extent_range e).2 ≤ i →
          m_cell_ptr t1 !! i = m_cell_ptr t !! i) ∧
    m_buckets_missing t1 = m_buckets_missing t ∖ {[e]} ∧
    m_buckets_dirty t1 = m_buckets_dirty t ∧
    counter "hash_extent_in" (s_global t1)
      = S (counter "hash_extent_in" (s_global t)) ∧
    fetch_missing_extent hash t1 = Ok () t1.
Proof.
  intros Hwf Hm Hfd Hlen e. subst e.
  pose proof (extent_of_lt hash t Hwf) as He.
  destruct (extent_range_bounds _ t Hwf He) as (He1 & He2 & He3).
  exists (paged_in (extent_of hash t) cells t).
  pose proof (fetch_missing_extent_reads hash t cells Hwf Hm Hfd Hlen) as Hf.
  destruct (fetch_missing_extent_post hash t _ Hwf Hf)
    as (Hwf1 & Hbk & _ & _ & Hmiss & _).
  split_and!; try done.
  - unfold extent_range in *; simpl in *. apply range_store; lia.
  - by apply paged_in_bucket.
  - intros i Hi. unfold extent_range in *; simpl in *.
    apply store_range_lookup_outside; lia.
  - simpl. apply counter_add_count.
  - apply fetch_missing_extent_loaded; [done |].
    rewrite Hmiss, (extent_of_same_buckets hash t _ Hbk).
    apply not_elem_of_remove.
Qed.


(** X19.  On a table with no bucket every check [m_buckets > 0] fires:
    the range functions, [set_extent_dirty], the page-in, write-back and
    every index operation throw and leave the table as it was. *)
Theorem no_buckets_throws hash addr pos t :
  m_buckets t = 0 →
  get_cell_range hash t = Throw t ∧
  get_extent_range hash t = Throw t ∧
  set_extent_dirty hash t = Throw t ∧
  fetch_missing_extent hash t = Throw t ∧
  flush_dirty_extents t = Throw t ∧
  (hash ∉ m_toxic_hashes t → find_cell hash t = Throw t) ∧
  erase_hash_addr hash addr t = Throw t ∧
  push_front_hash_addr hash addr t = Throw t ∧
  push_random_hash_addr pos hash addr t = Throw t.
Proof.
  intros Hb.
  assert (bool_decide (0 < m_buckets t) = false) as Hcheck
    by (apply bool_decide_eq_false_2; lia).
  assert (fetch_missing_extent hash t = Throw t) as Hf.
  { unfold fetch_missing_extent. rewrite bind_eq; simpl.
    by rewrite bind_eq, Hcheck. }
  split_and!.
  - unfold get_cell_range. rewrite bind_eq; simpl. by rewrite bind_eq, Hcheck.
  - unfold get_extent_range. rewrite bind_eq; simpl.
    by rewrite bind_eq, Hcheck.
  - unfold set_extent_dirty. rewrite bind_eq; simpl.
    by rewrite bind_eq, Hcheck.
  - done.
  - unfold flush_dirty_extents. rewrite bind_eq; simpl.
    by rewrite bind_eq, Hcheck.
  - intros Htox. unfold find_cell. rewrite bind_eq; simpl.
    unfold is_toxic_hash. rewrite bool_decide_eq_false_2 by done.
    by rewrite (bind_Throw _ _ _ _ Hf).
  - unfold erase_hash_addr. by rewrite (bind_Throw _ _ _ _ Hf).
  - unfold push_front_hash_addr. by rewrite (bind_Throw _ _ _ _ Hf).
  - unfold push_random_hash_addr. by rewrite (bind_Throw _ _ _ _ Hf).
Qed.

(** ** Write-back and reopening *)

Lemma flush_extent_fd extent_number t :
  ∃ t',
    catch_all (
      t ← get;
      let dirty_extent := extent_number * cells_per_extent in
      let dirty_extent_end := (extent_number + 1) * cells_per_extent in
      THROW_CHECK (bool_decide (0 ≤ dirty_extent));;
      THROW_CHECK (bool_decide (dirty_extent_end ≤ length (m_cell_ptr t)));;
      extent_copy ← read_range (dirty_extent, dirty_extent_end);
      pwrite_or_die extent_number extent_copy;;
      BEESCOUNT "hash_extent_out") t = Ok () t' ∧
    (m_buckets t' = m_buckets t ∧ m_extents t' = m_extents t ∧
     m_toxic_hashes t' = m_toxic_hashes t) ∧
    m_buckets_dirty t' = m_buckets_dirty t ∧
    m_buckets_missing t' = m_buckets_missing t ∧
    m_cell_ptr t' = m_cell_ptr t ∧
    m_fd t' =
      (if decide ((extent_number + 1) * cells_per_extent
                  ≤ length (m_cell_ptr t))
       then <[extent_number := range_cells (extent_range extent_number)
                                           (m_cell_ptr t)]> (m_fd t)
       else m_fd t).
Proof.
  cbv [catch_all mbind M_bind mret M_ret get modify THROW_CHECK throw
       read_range pwrite_or_die BEESCOUNT].
  rewrite (bool_decide_eq_true_2 (0 ≤ _)) by lia.
  destruct (decide ((extent_number + 1) * cells_per_extent
                    ≤ length (m_cell_ptr t))) as [Hin|Hout].
  - rewrite (bool_decide_eq_true_2 (_ ≤ length (m_cell_ptr t))) by done.
    by eexists.
  - rewrite (bool_decide_eq_false_2 (_ ≤ length (m_cell_ptr t))) by done.
    by eexists.
Qed.

Lemma flush_loop_fd (l : list nat) t :
  ∃ t',
    for_each l (λ extent_number,
      catch_all (
        t ← get;
        let dirty_extent := extent_number * cells_per_extent in
        let dirty_extent_end := (extent_number + 1) * cells_per_extent in
        THROW_CHECK (bool_decide (0 ≤ dirty_extent));;
        THROW_CHECK (bool_decide (dirty_extent_end ≤ length (m_cell_ptr t)));;
        extent_copy ← read_range (dirty_extent, dirty_extent_end);
        pwrite_or_die extent_number extent_copy;;
        BEESCOUNT "hash_extent_out")) t = Ok () t' ∧
    (m_buckets t' = m_buckets t ∧ m_extents t' = m_extents t ∧
     m_toxic_hashes t' = m_toxic_hashes t) ∧
    m_buckets_dirty t' = m_buckets_dirty t ∧
    m_buckets_missing t' = m_buckets_missing t ∧
    m_cell_ptr t' = m_cell_ptr t ∧
    ∀ e, m_fd t' !! e =
           if decide (e ∈ l ∧
                      (e + 1) * cells_per_extent ≤ length (m_cell_ptr t))
           then Some (range_cells (extent_range e) (m_cell_ptr t))
           else m_fd t !! e.
Proof.
  revert t. induction l as [|x l IH]; intros t.
  { exists t. by split_and!. }
  simpl. destruct (flush_extent_fd x t)
    as (t1 & H1 & (Hg1 & He1 & Ht1) & Hd1 & Hm1 & Hc1 & Hfd1).
  rewrite (bind_Ok _ _ _ _ _ H1).
  destruct (IH t1) as (t' & H' & (Hg & He & Ht) & Hd & Hm & Hc & Hfd).
  exists t'. split_and!;
    [exact H' | congruence | congruence | congruence
    | by rewrite Hd | by rewrite Hm | by rewrite Hc |].
  intros e. rewrite Hfd, Hc1, Hfd1.
  destruct (decide (e ∈ l ∧ (e + 1) * cells_per_extent
                            ≤ length (m_cell_ptr t))) as [[Hin Hb]|Hno].
  { rewrite decide_True; [done |]. split; [| done].
    apply elem_of_cons. by right. }
  destruct (decide (e = x)) as [->|Hne].
  - destruct (decide ((x + 1) * cells_per_extent ≤ length (m_cell_ptr t)))
      as [Hb|Hb].
    + rewrite lookup_insert_eq. rewrite decide_True; [done |].
      split; [apply list_elem_of_here | done].
    + rewrite decide_False; [done |]. tauto.
  - rewrite (decide_False (P := e ∈ x :: l ∧ _)).
    + destruct (decide (_ ≤ _)); [by rewrite lookup_insert_ne | done].
    + intros [[? | ?]%elem_of_cons ?]; tauto.
Qed.

(** What write-back leaves in the backing file. *)
Lemma flush_dirty_extents_fd t :
  wf t →
  ∃ t',
    flush_dirty_extents t = Ok () t' ∧
    (m_buckets t' = m_buckets t ∧ m_extents t' = m_extents t ∧
     m_toxic_hashes t' = m_toxic_hashes t) ∧
    m_buckets_dirty t' = ∅ ∧
    m_cell_ptr t' = m_cell_ptr t ∧
    m_buckets_missing t' = m_buckets_missing t ∧
    ∀ e, m_fd t' !! e =
           if decide (e ∈ elements (m_buckets_dirty t) ∧
                      (e + 1) * cells_per_extent ≤ length (m_cell_ptr t))
           then Some (range_cells (extent_range e) (m_cell_ptr t))
           else m_fd t !! e.
Proof.
  intros Hwf. unfold flush_dirty_extents.
  rewrite bind_eq; simpl.
  rewrite bind_eq, bool_decide_eq_true_2 by (by destruct Hwf as (_ & ? & _)).
  simpl. rewrite bind_eq; simpl.
  destruct (flush_loop_fd (elements (m_buckets_dirty t)) (with_dirty ∅ t))
    as (t' & H' & (Hb & He & Ht) & Hd & Hm & Hc & Hfd).
  exists t'. split_and!; done.
Qed.


Lemma BeesHashTable_ctor_wf extents fd toxic :
  0 < c_cells_per_bucket → 0 < c_buckets_per_extent → 0 < extents →
  wf (BeesHashTable_ctor extents fd toxic).
Proof.
  intros HC Hbpe He. unfold wf; simpl. split_and!; try done.
  - apply Nat.mul_pos_pos; lia.
  - rewrite length_replicate. unfold cells_per_extent.
    by rewrite Nat.mul_assoc.
Qed.

(** X21.  Persistence: after write-back, a table constructed anew on the
    backing file answers [find_cell(hash)] as the old table does, for
    every hash that is not toxic and whose extent was loaded and dirty. *)
Theorem flush_then_reopen_find_cell hash t :
  wf t →
  hash ∉ m_toxic_hashes t →
  extent_of hash t ∉ m_buckets_missing t →
  extent_of hash t ∈ m_buckets_dirty t →
  ∃ t' rv t0 u1,
    flush_dirty_extents t = Ok () t' ∧
    find_cell hash t = Ok rv t0 ∧
    find_cell hash
      (BeesHashTable_ctor (m_extents t) (m_fd t') (m_toxic_hashes t))
      = Ok rv u1.
Proof.
  intros Hwf Htox Hloaded Hdirty.
  destruct (flush_dirty_extents_fd t Hwf)
    as (t' & Hflush & _ & _ & _ & _ & Hfd).
  pose proof (extent_of_lt hash t Hwf) as He.
  destruct (bucket_in_extent hash t Hwf) as (Hlo & Hhi).
  destruct (bucket_range_bounds hash t Hwf) as (Hb1 & Hb2 & Hb3).
  destruct (extent_range_bounds _ t Hwf He) as (He1 & He2 & He3).
  pose proof (wf_buckets_per_extent t Hwf) as Hbpe.
  set (u := BeesHashTable_ctor (m_extents t) (m_fd t') (m_toxic_hashes t)).
  assert (wf u) as Hwfu.
  { apply BeesHashTable_ctor_wf; [by destruct Hwf as (? & _) | done | lia]. }
  assert (m_buckets u = m_buckets t) as Hbu
    by (by destruct Hwf as (_ & _ & -> & _)).
  pose proof (extent_of_same_buckets hash t u Hbu) as Heu.
  set (cells := range_cells (extent_range (extent_of hash t)) (m_cell_ptr t)).
  assert (length cells = cells_per_extent) as Hlen.
  { unfold cells. destruct (extent_range (extent_of hash t)) as [lo hi].
    simpl in *. rewrite range_cells_length; lia. }
  assert (fetch_missing_extent hash u
          = Ok () (paged_in (extent_of hash u) cells u)) as Hfu.
  { apply fetch_missing_extent_reads; [done | | | done].
    - rewrite Heu. simpl. apply elem_of_list_to_set, elem_of_seq. lia.
    - rewrite Heu. simpl. rewrite Hfd. rewrite decide_True; [done |].
      split; [by apply elem_of_elements | done]. }
  pose proof (paged_in_bucket hash u cells Hwfu Hlen) as Hbucket.
  rewrite Heu, (bucket_range_same_buckets hash t u Hbu) in Hbucket.
  assert (bucket_of hash (paged_in (extent_of hash t) cells u)
          = bucket_of hash t) as Hsame.
  { rewrite Hbucket. unfold cells, bucket_of.
    destruct (extent_range (extent_of hash t)) as [lo hi],
             (bucket_range hash t) as [a b]; simpl in *.
    apply range_range; lia. }
  rewrite Heu in Hfu.
  eexists t', _, _, _. split_and!; [done | |].
  - apply (find_cell_run hash t t Hwf Htox).
    by apply fetch_missing_extent_loaded.
  - fold u. rewrite (find_cell_run hash u _ Hwfu Htox Hfu).
    by rewrite Hsame.
Qed.

(** ** The prefetch pass *)

Lemma same_but_stats_eq t t' :
  same_but_stats t t' → t' = with_stats (s_global t') t.
Proof.
  destruct t, t'. unfold same_but_stats, with_stats; simpl.
  by intros [= -> -> -> -> -> -> ->].
Qed.


(** One turn of the extent loop: it returns; it loads the extent when it is
    missing and its read delivers a whole extent, and otherwise leaves the
    region and the missing set alone. *)
Lemma prefetch_extent_effect ext t :
  wf t → ext < m_extents t →
  ∃ t',
    prefetch_extent ext t = Ok () t' ∧
    wf t' ∧ m_extents t' = m_extents t ∧ m_fd t' = m_fd t ∧
    m_buckets_dirty t ⊆ m_buckets_dirty t' ∧
    ((ext ∈ m_buckets_missing t ∧
      ∃ cells, m_fd t !! ext = Some cells ∧
               length cells = cells_per_extent ∧
               m_cell_ptr t' =
                 store_range (extent_range ext) cells (m_cell_ptr t) ∧
               m_buckets_missing t' = m_buckets_missing t ∖ {[ext]}) ∨
     ((ext ∉ m_buckets_missing t ∨ ¬ readable ext t) ∧
      m_cell_ptr t' = m_cell_ptr t ∧
      m_buckets_missing t' = m_buckets_missing t)).
Proof.
  intros Hwf He.
  pose proof (extent_of_bucket_hash ext t Hwf He) as Hext.
  destruct (fetch_missing_extent (Z.of_nat (ext * c_buckets_per_extent)) t)
    as [[] t1|t1] eqn:Hf.
  - destruct (fetch_missing_extent_post _ t t1 Hwf Hf)
      as (Hwf1 & Hb1 & Hd1 & _ & Hm1 & _).
    destruct (analyze_buckets_read_only c_buckets_per_extent
                (ext * c_buckets_per_extent) false t1)
      as (bugs & t2 & Hrun & Hsame & _).
    pose proof (same_but_stats_wf t1 t2 Hsame Hwf1) as Hwf2.
    pose proof (same_but_stats_eq t1 t2 Hsame) as Ht2.
    assert (∃ t', prefetch_extent ext t = Ok () t' ∧
                  (t' = t2 ∨ ∃ d, t' = with_dirty (d ∪ m_buckets_dirty t2) t2))
      as (t' & Hp & Ht').
    { unfold prefetch_extent, catch_all.
      rewrite (bind_Ok _ _ _ _ _ Hf), (bind_Ok _ _ _ _ _ Hrun).
      destruct bugs.
      - rewrite (set_extent_dirty_ok (Z.of_nat ext) t2 Hwf2).
        eexists. split; [done |]. right. by eexists.
      - eexists. split; [done |]. by left. }
    exists t'. split; [done |].
    assert (wf t' ∧ m_extents t' = m_extents t1 ∧ m_fd t' = m_fd t1 ∧
            m_buckets_dirty t1 ⊆ m_buckets_dirty t' ∧
            m_cell_ptr t' = m_cell_ptr t1 ∧
            m_buckets_missing t' = m_buckets_missing t1)
      as (Hwf' & He' & Hfd' & Hd' & Hc' & Hm').
    { destruct Ht' as [-> | [d ->]]; rewrite Ht2 in *; simpl;
        split_and!; try done.
      apply union_subseteq_r. }
    rewrite He', Hfd', Hc', Hm'. rewrite <- Hd1.
    destruct (fetch_missing_extent_Ok _ t t1 Hwf Hf)
      as [[Hm ->] | [Hm (cells & Hfd & Hlen & ->)]]; rewrite Hext in *.
    + split_and!; try done. right. split_and!; try done. by left.
    + split_and!; try done. left. split; [done |].
      exists cells. by split_and!.
  - pose proof (fetch_missing_extent_Throw _ t t1 Hwf Hf) as ->.
    exists t. split.
    { unfold prefetch_extent, catch_all. by rewrite (bind_Throw _ _ _ _ Hf). }
    split_and!; try done. right. split_and!; try done.
    destruct (decide (ext ∈ m_buckets_missing t)) as [Hm|Hm]; [| by left].
    right. intros (cells & Hfd & Hlen).
    rewrite <- Hext in Hm, Hfd.
    by rewrite (fetch_missing_extent_reads _ t cells Hwf Hm Hfd Hlen) in Hf.
Qed.




(** ** The occupancy histogram *)

Lemma this_bucket_occupied_count_spec cells count :
  this_bucket_occupied_count cells count =
  count + length (filter (λ cell, e_addr cell ≠ 0%Z) cells).
Proof.
  revert count. induction cells as [|cell rest IH]; intros count; simpl.
  { lia. }
  rewrite IH, filter_cons. destruct (decide (e_addr cell ≠ 0%Z)).
  - rewrite bool_decide_eq_true_2 by done. simpl. lia.
  - rewrite bool_decide_eq_false_2 by done. lia.
Qed.

(** X23.  The count the prefetch pass takes of a bucket is the number of
    its cells with a non-zero address, and the slot of the occupancy
    histogram computed from it is below [width]: [occupancy.at] never
    throws, a full bucket included. *)
Theorem occupancy_slot_in_range cells :
  length cells = c_cells_per_bucket →
  this_bucket_occupied_count cells 0 =
    length (filter (λ cell, e_addr cell ≠ 0%Z) cells) ∧
  this_bucket_occupied_count cells 0 ≤ c_cells_per_bucket ∧
  occupancy_slot cells < width.
Proof.
  intros Hlen.
  pose proof (this_bucket_occupied_count_spec cells 0) as Hcount.
  pose proof (length_filter (λ cell, e_addr cell ≠ 0%Z) cells) as Hle.
  simpl in Hcount.
  split_and!; [done | lia |].
  unfold occupancy_slot. apply Nat.Div0.div_lt_upper_bound.
  unfold width. lia.
Qed.

(** ** The invariant of the index operations *)

Lemma after_call_wf t c : wf t → in_distribution c → wf (after_call t c).
Proof.
  intros Hwf Hc. destruct c as [hash|hash addr|hash addr|pos hash addr|]; simpl.
  - destruct (decide (hash ∈ m_toxic_hashes t)) as [Htox|Htox].
    { unfold find_cell. rewrite bind_eq; simpl.
      unfold is_toxic_hash. by rewrite bool_decide_eq_true_2 by done. }
    destruct (fetch_missing_extent hash t) as [[] t1|t1] eqn:Hf.
    + rewrite (find_cell_run hash t t1 Hwf Htox Hf). simpl.
      by destruct (fetch_missing_extent_post hash t t1 Hwf Hf) as (? & _).
    + unfold find_cell. rewrite bind_eq; simpl.
      unfold is_toxic_hash. rewrite bool_decide_eq_false_2 by done.
      rewrite (bind_Throw _ _ _ _ Hf). simpl.
      by rewrite (fetch_missing_extent_Throw hash t t1 Hwf Hf).
  - destruct (fetch_missing_extent hash t) as [[] t1|t1] eqn:Hf.
    + destruct (fetch_missing_extent_post hash t t1 Hwf Hf) as (Hwf1 & _).
      destruct (erase_hash_addr_touches hash addr t t1 Hwf Hf)
        as (t' & -> & Ht). simpl. by eapply touches_only_bucket_wf.
    + unfold erase_hash_addr. rewrite (bind_Throw _ _ _ _ Hf). simpl.
      by rewrite (fetch_missing_extent_Throw hash t t1 Hwf Hf).
  - destruct (fetch_missing_extent hash t) as [[] t1|t1] eqn:Hf.
    + destruct (fetch_missing_extent_post hash t t1 Hwf Hf) as (Hwf1 & _).
      destruct (push_front_hash_addr_touches hash addr t t1 Hwf Hf)
        as (t' & -> & Ht). simpl. by eapply touches_only_bucket_wf.
    + unfold push_front_hash_addr. rewrite (bind_Throw _ _ _ _ Hf). simpl.
      by rewrite (fetch_missing_extent_Throw hash t t1 Hwf Hf).
  - destruct (fetch_missing_extent hash t) as [[] t1|t1] eqn:Hf.
    + destruct (fetch_missing_extent_post hash t t1 Hwf Hf) as (Hwf1 & _).
      destruct (push_random_hash_addr_touches pos hash addr t t1 Hwf Hf Hc)
        as (found & t' & -> & Ht). simpl. by eapply touches_only_bucket_wf.
    + unfold push_random_hash_addr. rewrite (bind_Throw _ _ _ _ Hf). simpl.
      by rewrite (fetch_missing_extent_Throw hash t t1 Hwf Hf).
  - destruct (flush_dirty_extents_fd t Hwf)
      as (t' & -> & (Hb & He & _) & _ & Hcells & _).
    simpl. unfold wf. by rewrite Hb, He, Hcells.
Qed.

Lemma after_call_dirty_loaded t c :
  wf t → in_distribution c → dirty_loaded t → dirty_loaded (after_call t c).
Proof.
  intros Hwf Hc Hinv.
  destruct c as [hash|hash addr|hash addr|pos hash addr|]; simpl.
  - by apply find_cell_keeps_dirty_loaded.
  - by apply erase_hash_addr_keeps_dirty_loaded.
  - by apply push_front_hash_addr_keeps_dirty_loaded.
  - by apply push_random_hash_addr_keeps_dirty_loaded.
  - apply flush_dirty_extents_keeps_dirty_loaded. by destruct Hwf as (_ & ? & _).
Qed.

Lemma calls_keep_invariant calls t :
  wf t → dirty_loaded t → Forall in_distribution calls →
  wf (foldl after_call t calls) ∧ dirty_loaded (foldl after_call t calls).
Proof.
  revert t. induction calls as [|c calls IH]; intros t Hwf Hinv Hcalls; [done |].
  apply Forall_cons in Hcalls as [Hc Hcalls]. simpl.
  apply IH; [by apply after_call_wf | by apply after_call_dirty_loaded | done].
Qed.

(** X24.  The invariant of the index: on a table constructed over a backing
    file of at least one extent, after any sequence of calls of [find_cell],
    [erase_hash_addr], [push_front_hash_addr], [push_random_hash_addr] and
    [flush_dirty_extents], each returning or throwing, the geometry is the
    one the constructor set up and no extent is both dirty and missing. *)
Theorem calls_keep_dirty_extents_loaded extents fd toxic calls :
  0 < c_cells_per_bucket → 0 < c_buckets_per_extent → 0 < extents →
  Forall in_distribution calls →
  let t := foldl after_call (BeesHashTable_ctor extents fd toxic) calls in
  wf t ∧ dirty_loaded t.
Proof.
  intros HC Hbpe He Hcalls. apply calls_keep_invariant; [| | done].
  - by apply BeesHashTable_ctor_wf.
  - apply BeesHashTable_ctor_dirty_loaded.
Qed.

(** ** The extent a prefetch turn marks dirty *)

(** X25.  Which extent a turn of the extent loop marks: when the page-in
    of extent [ext] returns, the turn returns; if a cell of one of the
    buckets of [ext] breaks an invariant, the dirty set gains the extent
    [ext / c_buckets_per_extent], because [set_extent_dirty] takes [ext]
    for a hash, and otherwise the dirty set is as before.  With more than
    one bucket in an extent that is a lower extent than [ext], for every
    [ext] but 0. *)
Theorem prefetch_extent_marks_quotient ext t t1 :
  wf t → ext < m_extents t →
  fetch_missing_extent (Z.of_nat (ext * c_buckets_per_extent)) t = Ok () t1 →
  let broken :=
    ∃ k i, ext * c_buckets_per_extent ≤ k
             < ext * c_buckets_per_extent + c_buckets_per_extent ∧
           violates (range_cells (k * c_cells_per_bucket,
                                  (k + 1) * c_cells_per_bucket)
                                 (m_cell_ptr t1)) i in
  ∃ t',
    prefetch_extent ext t = Ok () t' ∧
    (broken →
     m_buckets_dirty t' = {[ext / c_buckets_per_extent]} ∪ m_buckets_dirty t) ∧
    (¬ broken → m_buckets_dirty t' = m_buckets_dirty t) ∧
    (1 < c_buckets_per_extent → 0 < ext → ext / c_buckets_per_extent < ext).
Proof.
  intros Hwf He Hf broken.
  destruct (prefetch_extent_effect ext t Hwf He) as (t' & Hrun & _).
  exists t'. split; [exact Hrun |]. split_and!.
  - intros (k & i & Hk & Hv).
    destruct (prefetch_extent_marks ext t t1 k i Hwf He Hf Hk Hv) as [_ Hd].
    by rewrite Hrun in Hd.
  - intros Hnot.
    destruct (fetch_missing_extent_post _ t t1 Hwf Hf) as (_ & _ & Hd1 & _).
    destruct (analyze_buckets_read_only c_buckets_per_extent
                (ext * c_buckets_per_extent) false t1)
      as (bugs & t2 & Hrun2 & Hsame & Hflag).
    assert (bugs = false) as ->.
    { destruct bugs; [| done]. destruct Hflag as [[? | ?] _]; done. }
    unfold prefetch_extent, catch_all in Hrun.
    rewrite (bind_Ok _ _ _ _ _ Hf), (bind_Ok _ _ _ _ _ Hrun2) in Hrun.
    simpl in Hrun. injection Hrun as <-.
    by rewrite (same_but_stats_dirty t1 t2 Hsame).
  - intros Hbpe Hext. by apply Nat.div_lt.
Qed.

End Geometry.

(** * The statements on the sample tables *)

Lemma sample_table_wf cells : length cells = 4 → wf 4 1 (sample_table cells).
Proof. intros H. unfold wf; simpl. lia. Qed.

Lemma sample_table_not_toxic cells (hash : Z) :
  hash ≠ 77%Z → hash ∉ m_toxic_hashes (sample_table cells).
Proof. intros Hne. simpl. by rewrite elem_of_singleton. Qed.

Lemma sample_table_toxic cells : 77%Z ∈ m_toxic_hashes (sample_table cells).
Proof. simpl. by rewrite elem_of_singleton. Qed.

(** The fresh sample tables are what the constructor builds. *)
Lemma duplicate_file_table_ctor :
  duplicate_file_table =
  BeesHashTable_ctor 4 1 1 {[0 := [cell_D; cell_B; cell_C; cell_D]]} ∅.
Proof. reflexivity. Qed.

Lemma broken_file_table_ctor :
  broken_file_table =
  BeesHashTable_ctor 4 1 1 {[0 := [mkCell 1 0x10; cell_B; cell_C; cell_C]]} ∅.
Proof. reflexivity. Qed.

Lemma unreadable_extent_table_ctor :
  unreadable_extent_table =
  BeesHashTable_ctor 2 2 2
    {[1 := [mkCell 1 0x10; empty_cell; cell_C; empty_cell]]} ∅.
Proof. reflexivity. Qed.

(** C1, the claim as stated fails: after a full prefetch pass over a file
    whose bucket holds a cell with a reserved address (offset 0) and a
    duplicate (offset 3), both cells still break the invariants and still
    hold what the file held. *)
Lemma prefetch_pass_keeps_broken_cells :
  ∃ t', prefetch_pass 4 1 broken_file_table = Ok () t' ∧
        violates (bucket_of 4 0 t') 0 ∧
        violates (bucket_of 4 0 t') 3 ∧
        bucket_of 4 0 t' !! 0 = Some (mkCell 1 0x10) ∧
        bucket_of 4 0 t' !! 3 = Some cell_C.
Proof.
  exists (state_of (prefetch_pass 4 1 broken_file_table)).
  split; [reflexivity |]. split_and!; try reflexivity.
  - exists (mkCell 1 0x10). split_and!; [reflexivity | done | left; done].
  - exists cell_C. split_and!; [reflexivity | done |].
    right. exists 2. split; [lia | reflexivity].
Qed.

(** C1 on the same file: the pass over extent 0 returns and the region
    holds the cells of the file. *)
Lemma prefetch_extent_flags_without_clearing_witness :
  ∃ t', prefetch_extent 4 1 0 broken_file_table = Ok () t' ∧
        m_cell_ptr t' = [mkCell 1 0x10; cell_B; cell_C; cell_C].
Proof.
  destruct (prefetch_extent_flags_without_clearing 4 1 0 broken_file_table
              (state_of (fetch_missing_extent 4 1 0 broken_file_table)))
    as (bugs & t2 & t' & _ & _ & _ & Hrun & Hcells).
  - reflexivity.
  - exists t'. split; [exact Hrun | exact Hcells].
Defined.

(** C2 on scenario 2 of the specification (MRU promotion). *)
Lemma push_front_hash_addr_rotates_prefix_witness :
  ∃ t', push_front_hash_addr 4 1 12 0x100c roomy_table = Ok true t' ∧
        bucket_of 4 12 t' = [cell_C; cell_A; cell_B; empty_cell].
Proof.
  destruct (push_front_hash_addr_rotates_prefix 4 1 12 0x100c
              roomy_table roomy_table)
    as (t' & Hrun & Hcells & _).
  - by apply sample_table_wf.
  - reflexivity.
  - exists t'. split; [exact Hrun | exact Hcells].
Defined.

(** C3 on scenario 4 of the specification (full bucket, eviction). *)
Lemma push_random_hash_addr_inserts_new_witness :
  ∃ t', push_random_hash_addr 4 1 1 14 0x100e full_table = Ok false t' ∧
        m_buckets_dirty t' = {[0]} ∪ ∅ ∧
        bucket_of 4 14 t' = [cell_A; cell_E; cell_B; cell_C].
Proof.
  destruct (push_random_hash_addr_inserts_new 4 1 1 14 0x100e
              full_table full_table)
    as (t' & Hrun & Hdirty & _ & _ & Hevict).
  - by apply sample_table_wf.
  - reflexivity.
  - lia.
  - apply (bool_decide_unpack _). vm_compute. exact I.
  - exists t'. split_and!; [exact Hrun | exact Hdirty |].
    apply Hevict. apply (bool_decide_unpack _). vm_compute. exact I.
Defined.

(** C4, the claim as stated fails.  First, on a bucket paged in from a file
    that holds the cell D at offsets 0 and 3, with [pos = 1]: D is at
    offset 3, above [pos], yet the call leaves the bucket alone and does
    not mark the extent dirty.  Second, on a bucket without duplicates and
    the pair (0, 0), with [pos = 2]: the empty cell at offset 3 equals the
    pair, yet the call finds the one at offset 1 and changes nothing. *)
Lemma push_random_hash_addr_ignores_later_match :
  (∃ t1 t',
     fetch_missing_extent 4 1 13 duplicate_file_table = Ok () t1 ∧
     bucket_of 4 13 t1 !! 3 = Some (mkCell 13 0x100d) ∧ 1 < 3 ∧
     push_random_hash_addr 4 1 1 13 0x100d duplicate_file_table = Ok true t' ∧
     bucket_of 4 13 t' = bucket_of 4 13 t1 ∧
     bucket_of 4 13 t' ≠ rotate_right 1 3 (bucket_of 4 13 t1) ∧
     bucket_of 4 13 t' ≠
       <[1 := mkCell 13 0x100d]> (rotate_right 1 3 (bucket_of 4 13 t1)) ∧
     m_buckets_dirty t' = ∅) ∧
  (∃ t',
     bucket_of 4 0 holey_table !! 3 = Some (mkCell 0 0) ∧ 2 < 3 ∧
     push_random_hash_addr 4 1 2 0 0 holey_table = Ok true t' ∧
     bucket_of 4 0 t' = bucket_of 4 0 holey_table ∧
     bucket_of 4 0 t' ≠
       <[2 := mkCell 0 0]> (rotate_right 2 3 (bucket_of 4 0 holey_table)) ∧
     m_buckets_dirty t' = ∅).
Proof.
  split.
  - exists (state_of (fetch_missing_extent 4 1 13 duplicate_file_table)),
           (state_of (push_random_hash_addr 4 1 1 13 0x100d
                        duplicate_file_table)).
    split_and!; try reflexivity; [lia | | ]; by vm_compute.
  - exists (state_of (push_random_hash_addr 4 1 2 0 0 holey_table)).
    split_and!; try reflexivity; [lia |]; by vm_compute.
Qed.

(** C4 on scenario 5 of the specification (hash bump). *)
Lemma push_random_hash_addr_bumps_first_match_witness :
  ∃ t', push_random_hash_addr 4 1 1 13 0x100d full_table = Ok true t' ∧
        bucket_of 4 13 t' = [cell_A; cell_D; cell_B; cell_C] ∧
        m_buckets_dirty t' = {[0]} ∪ ∅.
Proof.
  destruct (push_random_hash_addr_bumps_first_match 4 1 1 13 0x100d
              full_table full_table 3)
    as (t' & Hrun & _ & Hcells & _ & _ & Hdirty).
  - by apply sample_table_wf.
  - reflexivity.
  - lia.
  - reflexivity.
  - intros [|[|[|j]]] Hj; [by vm_compute .. | lia].
  - lia.
  - exists t'. split_and!; [exact Hrun | exact Hcells | exact Hdirty].
Defined.

(** C5 on a full bucket: B sits at offset 1, [pos] is 3. *)
Lemma push_random_hash_addr_already_there_witness :
  ∃ t', push_random_hash_addr 4 1 3 11 0x100b full_table = Ok true t' ∧
        m_cell_ptr t' = [cell_A; cell_B; cell_C; cell_D] ∧
        m_buckets_dirty t' = ∅.
Proof.
  destruct (push_random_hash_addr_already_there 4 1 3 11 0x100b
              full_table full_table 1)
    as (t' & Hrun & Hcells & _ & Hdirty).
  - by apply sample_table_wf.
  - reflexivity.
  - lia.
  - reflexivity.
  - lia.
  - exists t'. split_and!; [exact Hrun | exact Hcells | exact Hdirty].
Defined.

(** C6 on a bucket where hash 10 has two valid cells and one with a
    reserved address. *)
Lemma find_cell_returns_valid_matches_witness :
  ∃ t', find_cell 4 1 512 10 lookup_table
          = Ok [cell_A; mkCell 10 0x2000] t' ∧
        m_cell_ptr t' = m_cell_ptr lookup_table.
Proof.
  destruct (find_cell_returns_valid_matches 4 1 512 10
              lookup_table lookup_table)
    as (t' & Hrun & Hcells & _).
  - by apply sample_table_wf.
  - by apply sample_table_not_toxic.
  - reflexivity.
  - exists t'. split; [exact Hrun | exact Hcells].
Defined.

(** C7 on scenario 6 of the specification, with the toxic flag at bit 9. *)
Lemma find_cell_toxic_witness :
  ∃ t', find_cell 4 1 512 77 full_table = Ok [mkCell 77 0x1200] t' ∧
        m_cell_ptr t' = m_cell_ptr full_table ∧
        m_buckets_missing t' = ∅.
Proof.
  destruct (find_cell_toxic 4 1 512 77 full_table)
    as (cell & t' & Hrun & Hhash & Haddr & _ & Hcells & Hmissing & _).
  - discriminate.
  - apply sample_table_toxic.
  - exists t'. destruct cell as [h a]. simpl in Hhash, Haddr. subst h a.
    split_and!; [exact Hrun | exact Hcells | exact Hmissing].
Defined.

(** C8, the claim as stated fails.  First, on a bucket paged in from a file
    that holds the cell D twice, erasing D clears the first copy only, and
    the lookup that follows still returns a cell with the erased address.
    Second, for the toxic hash 77 (toxic flag at bit 9) and the address
    0x1200, the erase finds nothing to clear and the lookup that follows
    returns the synthetic toxic cell, whose address is 0x1200. *)
Lemma erase_hash_addr_leaves_duplicate :
  (∃ t' t'',
     erase_hash_addr 4 1 13 0x100d duplicate_file_table = Ok () t' ∧
     bucket_of 4 13 t' = [empty_cell; cell_B; cell_C; cell_D] ∧
     find_cell 4 1 512 13 t' = Ok [cell_D] t'' ∧
     e_addr cell_D = 0x100d%Z) ∧
  (∃ t' t'',
     erase_hash_addr 4 1 77 0x1200 full_table = Ok () t' ∧
     find_cell 4 1 512 77 t' = Ok [mkCell 77 0x1200] t'' ∧
     e_addr (mkCell 77 0x1200) = 0x1200%Z).
Proof.
  split.
  - exists (state_of (erase_hash_addr 4 1 13 0x100d duplicate_file_table)).
    exists (state_of (find_cell 4 1 512 13
              (state_of (erase_hash_addr 4 1 13 0x100d
                           duplicate_file_table)))).
    split_and!; reflexivity.
  - exists (state_of (erase_hash_addr 4 1 77 0x1200 full_table)).
    exists (state_of (find_cell 4 1 512 77
              (state_of (erase_hash_addr 4 1 77 0x1200 full_table)))).
    split_and!; reflexivity.
Qed.

(** C8 on scenario 3 of the specification. *)
Lemma erase_hash_addr_clears_first_match_witness :
  ∃ t', erase_hash_addr 4 1 11 0x100b half_table = Ok () t' ∧
        ∃ rv t'', find_cell 4 1 512 11 t' = Ok rv t'' ∧
                  ∀ c, c ∈ rv → e_addr c ≠ 0x100b%Z.
Proof.
  destruct (erase_hash_addr_clears_first_match 4 1 512 11 0x100b
              half_table half_table)
    as (t' & Hrun & _ & _ & Hfind).
  - by apply sample_table_wf.
  - reflexivity.
  - exists t'. split; [exact Hrun |]. apply Hfind.
    + by apply sample_table_not_toxic.
    + intros [|[|[|[|i]]]] [|[|[|[|j]]]] Hi Hj;
        vm_compute in Hi, Hj; congruence.
Defined.

(** C9, the failing run: on a fresh table of two extents whose extent 0
    cannot be read and whose extent 1 holds a cell with a reserved address,
    one prefetch pass returns with extent 0 both dirty and still missing. *)
Theorem prefetch_pass_dirties_missing_extent :
  ∃ t', prefetch_pass 2 2 unreadable_extent_table = Ok () t' ∧
        0 ∈ m_buckets_dirty t' ∧
        0 ∈ m_buckets_missing t' ∧
        ¬ dirty_loaded t'.
Proof.
  exists (state_of (prefetch_pass 2 2 unreadable_extent_table)).
  assert (0 ∈ m_buckets_dirty
                (state_of (prefetch_pass 2 2 unreadable_extent_table))) as Hd
    by (apply (bool_decide_unpack _); vm_compute; exact I).
  assert (0 ∈ m_buckets_missing
                (state_of (prefetch_pass 2 2 unreadable_extent_table))) as Hm
    by (apply (bool_decide_unpack _); vm_compute; exact I).
  split_and!; [reflexivity | done | done |].
  unfold dirty_loaded. intros Hempty.
  apply (not_elem_of_empty (C := gset nat) 0). rewrite <- Hempty.
  by apply elem_of_intersection.
Qed.

(** C10 on a bucket with holes. *)
Lemma erase_zero_zero_dirties_without_change_witness :
  ∃ t', erase_hash_addr 4 1 0 0 holey_table = Ok () t' ∧
        m_cell_ptr t' = m_cell_ptr holey_table ∧
        m_buckets_dirty t' = {[0]} ∪ ∅ ∧
        counter "hash_erase" (s_global t') = 1.
Proof.
  destruct (erase_zero_zero_dirties_without_change 4 1 holey_table holey_table)
    as (t' & ip & Hrun & _ & _ & _ & Hcells & _ & Hdirty & Hcount).
  - by apply sample_table_wf.
  - reflexivity.
  - apply (bool_decide_unpack _). vm_compute. exact I.
  - exists t'. split_and!; [exact Hrun | exact Hcells | exact Hdirty
                           | exact Hcount].
Defined.
(** * The further properties on the sample tables *)

(** X4 on scenario 3 of the specification: the erase marks extent 0 and
    leaves the backing file alone. *)
Lemma erase_hash_addr_footprint_witness :
  ∃ t', erase_hash_addr 4 1 11 0x100b half_table = Ok () t' ∧
        m_fd t' = m_fd half_table ∧
        m_buckets_dirty t' ⊆ {[0]} ∪ ∅.
Proof.
  destruct (erase_hash_addr_footprint 4 1 11 0x100b half_table half_table)
    as (t' & Hrun & _ & _ & _ & Hfd & _ & _ & Hdirty & _).
  - by apply sample_table_wf.
  - reflexivity.
  - exists t'. split_and!; [exact Hrun | exact Hfd | exact Hdirty].
Defined.

(** X5 on a full bucket. *)
Lemma push_front_hash_addr_footprint_witness :
  ∃ found t', push_front_hash_addr 4 1 14 0x100e full_table = Ok found t' ∧
              m_buckets_missing t' = m_buckets_missing full_table ∧
              m_buckets_dirty t' ⊆ {[0]} ∪ ∅.
Proof.
  destruct (push_front_hash_addr_footprint 4 1 14 0x100e full_table full_table)
    as (found & t' & Hrun & _ & _ & Hmissing & _ & _ & _ & Hdirty & _).
  - by apply sample_table_wf.
  - reflexivity.
  - exists found, t'. split_and!; [exact Hrun | exact Hmissing | exact Hdirty].
Defined.

(** X6 on a full bucket, position 1. *)
Lemma push_random_hash_addr_footprint_witness :
  ∃ found t', push_random_hash_addr 4 1 1 14 0x100e full_table = Ok found t' ∧
              length (m_cell_ptr t') = length (m_cell_ptr full_table) ∧
              m_buckets_dirty t' ⊆ {[0]} ∪ ∅.
Proof.
  destruct (push_random_hash_addr_footprint 4 1 1 14 0x100e
              full_table full_table)
    as (found & t' & Hrun & _ & Hlen & _ & _ & _ & _ & Hdirty & _).
  - by apply sample_table_wf.
  - reflexivity.
  - lia.
  - exists found, t'. split_and!; [exact Hrun | exact Hlen | exact Hdirty].
Defined.

(** X7 on scenario 3 of the specification. *)
Lemma erase_hash_addr_keeps_clean_witness :
  ∃ t', erase_hash_addr 4 1 11 0x100b half_table = Ok () t' ∧
        clean (bucket_of 4 11 t').
Proof.
  apply (erase_hash_addr_keeps_clean 4 1 11 0x100b half_table half_table).
  - by apply sample_table_wf.
  - reflexivity.
  - apply (clean_verify _ ∅). reflexivity.
Defined.

(** X8 on a full bucket: E evicts D. *)
Lemma push_front_hash_addr_keeps_clean_witness :
  ∃ found t', push_front_hash_addr 4 1 14 0x100e full_table = Ok found t' ∧
              clean (bucket_of 4 14 t').
Proof.
  apply (push_front_hash_addr_keeps_clean 4 1 14 0x100e full_table full_table).
  - by apply sample_table_wf.
  - reflexivity.
  - right. lia.
  - apply (clean_verify _ ∅). reflexivity.
Defined.

(** X9 on a full bucket, position 1. *)
Lemma push_random_hash_addr_keeps_clean_witness :
  ∃ found t', push_random_hash_addr 4 1 1 14 0x100e full_table = Ok found t' ∧
              clean (bucket_of 4 14 t').
Proof.
  apply (push_random_hash_addr_keeps_clean 4 1 1 14 0x100e
           full_table full_table).
  - by apply sample_table_wf.
  - reflexivity.
  - lia.
  - right. lia.
  - apply (clean_verify _ ∅). reflexivity.
Defined.

(** X10 on a bucket with an empty last cell: A, B and C stay. *)
Lemma push_front_hash_addr_keeps_entries_witness :
  ∃ found t', push_front_hash_addr 4 1 14 0x100e roomy_table = Ok found t' ∧
              cell_A ∈ bucket_of 4 14 t' ∧
              cell_B ∈ bucket_of 4 14 t' ∧
              cell_C ∈ bucket_of 4 14 t'.
Proof.
  destruct (push_front_hash_addr_keeps_entries 4 1 14 0x100e
              roomy_table roomy_table)
    as (found & t' & Hrun & _ & Hkeeps & _).
  - by apply sample_table_wf.
  - reflexivity.
  - assert (empty_cell ∈ bucket_of 4 14 roomy_table) as Hroom
      by (apply (bool_decide_unpack _); vm_compute; exact I).
    exists found, t'.
    split_and!; [exact Hrun | | |]; apply Hkeeps;
      solve [by right | discriminate
            | apply (bool_decide_unpack _); vm_compute; exact I].
Defined.

(** X11 on a full bucket, position 1: the last cell is the one lost. *)
Lemma push_random_hash_addr_keeps_entries_witness :
  ∃ found t', push_random_hash_addr 4 1 1 14 0x100e full_table = Ok found t' ∧
              bucket_of 4 14 t' ≡ₚ [cell_E; cell_A; cell_B; cell_C].
Proof.
  destruct (push_random_hash_addr_keeps_entries 4 1 1 14 0x100e
              full_table full_table)
    as (found & t' & Hrun & _ & _ & Hevict).
  - by apply sample_table_wf.
  - reflexivity.
  - lia.
  - exists found, t'. split; [exact Hrun |]. apply Hevict.
    split; apply (bool_decide_unpack _); vm_compute; exact I.
Defined.

(** X12 on scenario 2 of the specification. *)
Lemma push_front_hash_addr_twice_witness :
  ∃ found t', push_front_hash_addr 4 1 12 0x100c roomy_table = Ok found t' ∧
              push_front_hash_addr 4 1 12 0x100c t' = Ok true t'.
Proof.
  apply (push_front_hash_addr_twice 4 1 12 0x100c roomy_table roomy_table).
  - by apply sample_table_wf.
  - reflexivity.
Defined.

(** X13 on a full bucket. *)
Lemma push_front_hash_addr_then_find_cell_witness :
  ∃ found t' rv t'',
    push_front_hash_addr 4 1 14 0x100e full_table = Ok found t' ∧
    find_cell 4 1 512 14 t' = Ok (cell_E :: rv) t''.
Proof.
  apply (push_front_hash_addr_then_find_cell 4 1 512 14 0x100e
           full_table full_table).
  - by apply sample_table_wf.
  - reflexivity.
  - by apply sample_table_not_toxic.
  - lia.
Defined.

(** X14 on a full bucket, position 1. *)
Lemma push_random_hash_addr_then_find_cell_witness :
  ∃ found t' rv t'',
    push_random_hash_addr 4 1 1 14 0x100e full_table = Ok found t' ∧
    find_cell 4 1 512 14 t' = Ok rv t'' ∧
    cell_E ∈ rv.
Proof.
  apply (push_random_hash_addr_then_find_cell 4 1 512 1 14 0x100e
           full_table full_table).
  - by apply sample_table_wf.
  - reflexivity.
  - lia.
  - by apply sample_table_not_toxic.
  - lia.
Defined.

(** X15 on scenario 3 of the specification. *)
Lemma erase_hash_addr_then_find_cell_witness :
  ∃ rv0 t0 t' rv t'',
    find_cell 4 1 512 11 half_table = Ok rv0 t0 ∧
    erase_hash_addr 4 1 11 0x100b half_table = Ok () t' ∧
    find_cell 4 1 512 11 t' = Ok rv t'' ∧
    rv = filter (λ c, c ≠ cell_B) rv0.
Proof.
  apply (erase_hash_addr_then_find_cell 4 1 512 11 0x100b
           half_table half_table).
  - by apply sample_table_wf.
  - reflexivity.
  - by apply sample_table_not_toxic.
  - apply (clean_verify _ ∅). reflexivity.
Defined.

(** X16 on the table of two extents of two buckets of two cells: the
    bucket of hash 3 is the last of extent 1. *)
Lemma bucket_range_within_extent_witness :
  get_cell_range 2 3 unreadable_extent_table
    = Ok (6, 8) unreadable_extent_table ∧
  get_extent_range 2 2 3 unreadable_extent_table
    = Ok (4, 8) unreadable_extent_table.
Proof.
  destruct (bucket_range_within_extent 2 2 3 unreadable_extent_table)
    as (Hcell & Hextent & _).
  - unfold wf; simpl. lia.
  - split; [exact Hcell | exact Hextent].
Defined.

(** X17 on the fresh table whose file holds the cell D twice. *)
Lemma fetch_missing_extent_loads_file_witness :
  ∃ t1, fetch_missing_extent 4 1 13 duplicate_file_table = Ok () t1 ∧
        bucket_of 4 13 t1 = [cell_D; cell_B; cell_C; cell_D] ∧
        m_buckets_missing t1 = {[0]} ∖ {[0]}.
Proof.
  destruct (fetch_missing_extent_loads_file 4 1 13 duplicate_file_table
              [cell_D; cell_B; cell_C; cell_D])
    as (t1 & Hrun & _ & Hbucket & _ & Hmissing & _).
  - unfold wf; simpl. lia.
  - apply (bool_decide_unpack _). vm_compute. exact I.
  - reflexivity.
  - reflexivity.
  - exists t1. split_and!; [exact Hrun | exact Hbucket | exact Hmissing].
Defined.


(** X19 on a table without buckets. *)
Lemma no_buckets_throws_witness :
  flush_dirty_extents 4 1 no_bucket_table = Throw no_bucket_table ∧
  erase_hash_addr 4 1 11 0x100b no_bucket_table = Throw no_bucket_table.
Proof.
  destruct (no_buckets_throws 4 1 512 11 0x100b 0 no_bucket_table)
    as (_ & _ & _ & _ & Hflush & _ & Herase & _).
  - reflexivity.
  - split; [exact Hflush | exact Herase].
Defined.


(** X21 on the same table: what the reopened table finds for hash 11. *)
Lemma flush_then_reopen_find_cell_witness :
  ∃ t' rv t0 u1,
    flush_dirty_extents 4 1 dirty_table = Ok () t' ∧
    find_cell 4 1 512 11 dirty_table = Ok rv t0 ∧
    find_cell 4 1 512 11 (BeesHashTable_ctor 4 1 1 (m_fd t') {[77%Z]})
      = Ok rv u1.
Proof.
  apply (flush_then_reopen_find_cell 4 1 512 11 dirty_table).
  - unfold wf; simpl. lia.
  - simpl. rewrite elem_of_singleton. discriminate.
  - apply (bool_decide_unpack _). vm_compute. exact I.
  - apply (bool_decide_unpack _). vm_compute. exact I.
Defined.


(** X23 on a bucket of four cells, two of them occupied: slot 25 of 64. *)
Lemma occupancy_slot_in_range_witness :
  this_bucket_occupied_count [cell_A; empty_cell; cell_C; empty_cell] 0 ≤ 4 ∧
  occupancy_slot 4 [cell_A; empty_cell; cell_C; empty_cell] < width.
Proof.
  destruct (occupancy_slot_in_range 4 [cell_A; empty_cell; cell_C; empty_cell])
    as (_ & Hcount & Hslot).
  - reflexivity.
  - split; [exact Hcount | exact Hslot].
Defined.

(** X24 on a fresh table of one extent: an insertion, a lookup, an erase,
    a write-back and a push at position 2. *)
Lemma calls_keep_dirty_extents_loaded_witness :
  dirty_loaded
    (foldl (after_call 4 1 512)
       (BeesHashTable_ctor 4 1 1 {[0 := [cell_D; cell_B; cell_C; cell_D]]} ∅)
       [call_push_front_hash_addr 14 0x100e; call_find_cell 13;
        call_erase_hash_addr 13 0x100d; call_flush_dirty_extents;
        call_push_random_hash_addr 2 10 0x100a]).
Proof.
  destruct (calls_keep_dirty_extents_loaded 4 1 512 1
              {[0 := [cell_D; cell_B; cell_C; cell_D]]} ∅
              [call_push_front_hash_addr 14 0x100e; call_find_cell 13;
               call_erase_hash_addr 13 0x100d; call_flush_dirty_extents;
               call_push_random_hash_addr 2 10 0x100a])
    as (_ & Hinv).
  - lia.
  - lia.
  - lia.
  - repeat constructor.
  - exact Hinv.
Defined.

(** X25 on the table of two extents of two buckets: the turn for extent 1
    loads it, finds the reserved address and marks extent 0. *)
Lemma prefetch_extent_marks_quotient_witness :
  ∃ t', prefetch_extent 2 2 1 unreadable_extent_table = Ok () t' ∧
        m_buckets_dirty t' = {[1 / 2]} ∪ ∅.
Proof.
  destruct (prefetch_extent_marks_quotient 2 2 1 unreadable_extent_table
              (state_of (fetch_missing_extent 2 2 2 unreadable_extent_table)))
    as (t' & Hrun & Hmarks & _).
  - unfold wf; simpl. lia.
  - simpl. lia.
  - reflexivity.
  - exists t'. split; [exact Hrun |]. apply Hmarks.
    exists 2, 0. split; [lia |].
    exists (mkCell 1 0x10). split_and!; [reflexivity | done | left; done].
Defined.
